(** * Upgrade plan-info validation (package [planinfo]) *)

(** A shallow embedding of the hand-written core of the upgrade module's
    plan-info checker: [ParsePlanInfo], [PlanInfo.ValidateFull],
    [BinaryDownloadURLMap.ValidateBasic] and [BinaryDownloadURLMap.CheckURLs].

    Go strings are byte sequences, modelled as [string] (a list of [ascii]
    bytes).  A Go [error] is modelled by its message; the [nil] error is
    [None].  A Go map is a [gmap]; the order in which a [range] loop visits
    its entries is not fixed by the language, so every function that ranges
    over a map takes the order of that visit as an extra argument, and the
    theorems quantify over every order that enumerates the map. *)

From Stdlib Require Import Ascii String NArith ZArith DecimalString.
From stdpp Require Import base option list strings gmap fin_maps sorting.

Open Scope string_scope.

(** ** Errors and formatting *)

Definition error : Type := string.

Definition errors_New (msg : string) : error := msg.

(** The double-quote byte, which the source writes as an escaped quote
    inside its message literals. *)
Definition DQ : string := String "034"%char EmptyString.

(** ** Package [strings] *)

Module strings.

(** [strings.ReplaceAll s old new] for a non-empty [old]: the
    non-overlapping occurrences of [old] are replaced from left to right.
    [skip] counts the bytes of an occurrence that are still to be dropped. *)
Fixpoint replaceFrom (skip : nat) (s old new : string) : string :=
  match s with
  | EmptyString => EmptyString
  | String c s' =>
      match skip with
      | S k => replaceFrom k s' old new
      | O =>
          if String.prefix old s
          then new ++ replaceFrom (String.length old - 1) s' old new
          else String c (replaceFrom 0 s' old new)
      end
  end.

Definition ReplaceAll (s old new : string) : string := replaceFrom 0 s old new.

(** A string from the codes of its bytes. *)
Definition bytes (codes : list nat) : string :=
  fold_right (fun n s => String (ascii_of_nat n) s) EmptyString codes.

(** The UTF-8 encodings of the runes for which [unicode.IsSpace] holds:
    the ASCII white space, U+0085, U+00A0, U+1680, U+2000 to U+200A,
    U+2028, U+2029, U+202F, U+205F and U+3000. *)
Definition spaceRunes : list string :=
  map bytes
    [[9]; [10]; [11]; [12]; [13]; [32]; [194; 133]; [194; 160]; [225; 154; 128];
     [226; 128; 128]; [226; 128; 129]; [226; 128; 130]; [226; 128; 131];
     [226; 128; 132]; [226; 128; 133]; [226; 128; 134]; [226; 128; 135];
     [226; 128; 136]; [226; 128; 137]; [226; 128; 138]; [226; 128; 168];
     [226; 128; 169]; [226; 128; 175]; [226; 129; 159]; [227; 128; 128]].

(** [strings.TrimLeftFunc(s, unicode.IsSpace)]; [skip] bytes of a space
    are still to be dropped. *)
Fixpoint trimLeftFrom (skip : nat) (s : string) : string :=
  match s with
  | EmptyString => EmptyString
  | String _ rest =>
      match skip with
      | S k => trimLeftFrom k rest
      | O =>
          match List.find (fun e => String.prefix e s) spaceRunes with
          | Some e => trimLeftFrom (String.length e - 1) rest
          | None => s
          end
      end
  end.

(** [strings.TrimRightFunc(s, unicode.IsSpace)]: what is left of [s]
    once its tail has been trimmed is dropped when it is one space. *)
Fixpoint trimRight (s : string) : string :=
  match s with
  | EmptyString => EmptyString
  | String c rest =>
      let kept := String c (trimRight rest) in
      if existsb (String.eqb kept) spaceRunes then EmptyString else kept
  end.

(** [strings.TrimSpace] *)
Definition TrimSpace (s : string) : string := trimRight (trimLeftFrom 0 s).

(** [strings.Cut(s, sep)] for a separator of one byte, without the flag:
    the text before the first [sep] and the text after it; [s] and the
    empty string when [sep] is not in [s]. *)
Fixpoint Cut (s : string) (sep : ascii) : string * string :=
  match s with
  | EmptyString => (EmptyString, EmptyString)
  | String c rest =>
      if Ascii.eqb c sep then (EmptyString, rest)
      else let '(before, after) := Cut rest sep in (String c before, after)
  end.

Fixpoint ContainsByte (s : string) (b : ascii) : bool :=
  match s with
  | EmptyString => false
  | String c rest => Ascii.eqb c b || ContainsByte rest b
  end.

End strings.

(** ** Package [unicode/utf8] *)

Module utf8.

Definition between (lo hi : nat) (b : ascii) : bool :=
  (lo <=? nat_of_ascii b)%nat && (nat_of_ascii b <=? hi)%nat.

(** A continuation byte, [10xxxxxx]. *)
Definition cont (b : ascii) : bool := between 128 191 b.

(** [utf8.RuneSelf]: the bytes below it are runes of their own. *)
Definition isASCII (b : ascii) : bool := (nat_of_ascii b <? 128)%nat.

(** The range of the second byte that a first byte of a multi-byte
    encoding accepts, with the number of bytes of the encoding (the table
    [acceptRanges] of the package: no overlong form, no surrogate, nothing
    above U+10FFFF). *)
Definition accept (b0 : ascii) : option (nat * nat * nat) :=
  let n := nat_of_ascii b0 in
  if between 194 223 b0 then Some (2, 128, 191)
  else if (n =? 224)%nat then Some (3, 160, 191)
  else if between 225 236 b0 then Some (3, 128, 191)
  else if (n =? 237)%nat then Some (3, 128, 159)
  else if between 238 239 b0 then Some (3, 128, 191)
  else if (n =? 240)%nat then Some (4, 144, 191)
  else if between 241 243 b0 then Some (4, 128, 191)
  else if (n =? 244)%nat then Some (4, 128, 143)
  else None.

(** The size that [utf8.DecodeRuneInString] reports for the non-ASCII
    first byte of [s] when the encoding is well formed, and [None] when it
    answers [(RuneError, 1)]. *)
Definition multiByte (s : string) : option nat :=
  match s with
  | String b0 (String b1 rest) =>
      match accept b0 with
      | Some (2, lo, hi) => if between lo hi b1 then Some 2 else None
      | Some (3, lo, hi) =>
          match rest with
          | String b2 _ => if between lo hi b1 && cont b2 then Some 3 else None
          | _ => None
          end
      | Some (_, lo, hi) =>
          match rest with
          | String b2 (String b3 _) =>
              if between lo hi b1 && cont b2 && cont b3 then Some 4 else None
          | _ => None
          end
      | None => None
      end
  | _ => None
  end.

(** [utf8.ValidString]; [pending] bytes of an encoding already checked are
    still ahead. *)
Fixpoint validFrom (pending : nat) (s : string) : bool :=
  match s with
  | EmptyString => true
  | String b rest =>
      match pending with
      | S k => validFrom k rest
      | O =>
          if isASCII b then validFrom 0 rest
          else match multiByte s with
               | Some n => validFrom (n - 1) rest
               | None => false
               end
      end
  end.

Definition ValidString (s : string) : bool := validFrom 0 s.

(** The encoding of U+FFFD, [utf8.RuneError]. *)
Definition replacement : string :=
  String "239"%char (String "191"%char (String "189"%char EmptyString)).

Definition byte (n : N) : ascii := ascii_of_N n.

(** [utf8.EncodeRune]. *)
Definition EncodeRune (r : N) : string :=
  if (r <? 128)%N then String (byte r) EmptyString
  else if (r <? 2048)%N then
    String (byte (192 + r / 64)) (String (byte (128 + r mod 64)) EmptyString)
  else if ((55296 <=? r) && (r <=? 57343))%N || (1114111 <? r)%N then replacement
  else if (r <? 65536)%N then
    String (byte (224 + r / 4096))
      (String (byte (128 + (r / 64) mod 64))
         (String (byte (128 + r mod 64)) EmptyString))
  else
    String (byte (240 + r / 262144))
      (String (byte (128 + (r / 4096) mod 64))
         (String (byte (128 + (r / 64) mod 64))
            (String (byte (128 + r mod 64)) EmptyString))).

End utf8.

(** ** Package [regexp] *)

(** The fragment of Go's regular expressions that the source uses, with the
    operator names of [regexp/syntax].  The pattern of the source has only
    ASCII classes and an ASCII literal, so matching byte by byte agrees with
    matching rune by rune: no byte of a multi-byte UTF-8 sequence is ASCII. *)
Module regexp.

Inductive Regexp : Type :=
| NoMatch
| EmptyMatch
| Literal (c : ascii)
| CharClass (ranges : list (ascii * ascii))
| Concat (r1 r2 : Regexp)
| Alternate (r1 r2 : Regexp)
| Star (r : Regexp)
| Plus (r : Regexp).

Definition inRange (c : ascii) (range : ascii * ascii) : bool :=
  (nat_of_ascii (fst range) <=? nat_of_ascii c)%nat
  && (nat_of_ascii c <=? nat_of_ascii (snd range))%nat.

Definition inClass (ranges : list (ascii * ascii)) (c : ascii) : bool :=
  existsb (inRange c) ranges.

Fixpoint nullable (r : Regexp) : bool :=
  match r with
  | NoMatch => false
  | EmptyMatch => true
  | Literal _ => false
  | CharClass _ => false
  | Concat r1 r2 => nullable r1 && nullable r2
  | Alternate r1 r2 => nullable r1 || nullable r2
  | Star _ => true
  | Plus r1 => nullable r1
  end.

(** The residual of [r] after the byte [c]. *)
Fixpoint deriv (c : ascii) (r : Regexp) : Regexp :=
  match r with
  | NoMatch => NoMatch
  | EmptyMatch => NoMatch
  | Literal d => if Ascii.eqb c d then EmptyMatch else NoMatch
  | CharClass ranges => if inClass ranges c then EmptyMatch else NoMatch
  | Concat r1 r2 =>
      if nullable r1
      then Alternate (Concat (deriv c r1) r2) (deriv c r2)
      else Concat (deriv c r1) r2
  | Alternate r1 r2 => Alternate (deriv c r1) (deriv c r2)
  | Star r1 => Concat (deriv c r1) (Star r1)
  | Plus r1 => Concat (deriv c r1) (Star r1)
  end.

(** The whole of [s] matches [r]: what an anchored pattern [^r$] asks. *)
Fixpoint fullMatch (r : Regexp) (s : string) : bool :=
  match s with
  | EmptyString => nullable r
  | String c s' => fullMatch (deriv c r) s'
  end.

(** Some prefix of [s] matches [r]. *)
Fixpoint prefixMatch (r : Regexp) (s : string) : bool :=
  nullable r ||
  match s with
  | EmptyString => false
  | String c s' => prefixMatch (deriv c r) s'
  end.

(** The method [MatchString] of a compiled pattern: it "reports whether the
    string s contains any match of the regular expression re".  The match
    may start at any byte and stop before the end of [s]. *)
Fixpoint MatchString (re : Regexp) (s : string) : bool :=
  prefixMatch re s ||
  match s with
  | EmptyString => false
  | String _ s' => MatchString re s'
  end.

End regexp.

(** ** Package [path/filepath] (Unix) *)

Module filepath.

(** The elements of a path between its slashes. *)
Fixpoint split (s acc : string) : list string :=
  match s with
  | EmptyString => [String.rev acc]
  | String c s' =>
      if Ascii.eqb c "/" then String.rev acc :: split s' EmptyString
      else split s' (String c acc)
  end.

(** One element of a path on the stack of the elements kept so far (the
    last kept element first): empty and [.] elements are dropped, and [..]
    removes the element before it, is dropped at the root, and is kept at
    the start of a relative path. *)
Definition cleanStep (rooted : bool) (stack : list string) (elem : string) : list string :=
  if String.eqb elem EmptyString || String.eqb elem "." then stack
  else if String.eqb elem ".." then
    match stack with
    | top :: below => if String.eqb top ".." then elem :: stack else below
    | [] => if rooted then [] else [elem]
    end
  else elem :: stack.

Definition joinSlash (elems : list string) : string :=
  match elems with
  | [] => EmptyString
  | e :: es => fold_left (fun acc x => acc ++ "/" ++ x) es e
  end.

(** [filepath.Clean]: "the shortest path name equivalent to path by purely
    lexical processing". *)
Definition Clean (path : string) : string :=
  let rooted := String.prefix "/" path in
  let kept := List.rev (fold_left (cleanStep rooted) (split path EmptyString) []) in
  let out := (if rooted then "/" else EmptyString) ++ joinSlash kept in
  if String.eqb out EmptyString then "." else out.

(** [filepath.Join] of two elements: empty elements are ignored and the
    result is cleaned; the join of no element is the empty string. *)
Definition Join (a b : string) : string :=
  if String.eqb a EmptyString then
    if String.eqb b EmptyString then EmptyString else Clean b
  else if String.eqb b EmptyString then Clean a
  else Clean (a ++ "/" ++ b).

(** [filepath.Split]: "splits path immediately following the final
    Separator, separating it into a directory and file name component. If
    there is no Separator in path, Split returns an empty dir and file set
    to path." *)
Fixpoint Split (path : string) : string * string :=
  match path with
  | EmptyString => (EmptyString, EmptyString)
  | String c rest =>
      match Split rest with
      | (EmptyString, file) =>
          if Ascii.eqb c "/" then (String c EmptyString, rest) else (EmptyString, path)
      | (dir, file) => (String c dir, file)
      end
  end.

End filepath.

(** ** Package [net/url] *)

Module neturl.

Fixpoint stringContainsCTLByte (s : string) : bool :=
  match s with
  | EmptyString => false
  | String b rest =>
      (nat_of_ascii b <? 32)%nat || (nat_of_ascii b =? 127)%nat || stringContainsCTLByte rest
  end.

Definition isLetter (c : ascii) : bool := utf8.between 97 122 c || utf8.between 65 90 c.

(** The loop of [getScheme]: [seen] holds the bytes before [s], the
    newest first, and [rawURL] the whole string. *)
Fixpoint getSchemeFrom (seen s rawURL : string) : (string * string) + error :=
  match s with
  | EmptyString => inl (EmptyString, rawURL)
  | String c rest =>
      if isLetter c then getSchemeFrom (String c seen) rest rawURL
      else if utf8.between 48 57 c || Ascii.eqb c "+" || Ascii.eqb c "-" || Ascii.eqb c "."
      then match seen with
           | EmptyString => inl (EmptyString, rawURL)
           | _ => getSchemeFrom (String c seen) rest rawURL
           end
      else if Ascii.eqb c ":"
      then match seen with
           | EmptyString => inr "missing protocol scheme"
           | _ => inl (String.rev seen, rest)
           end
      else inl (EmptyString, rawURL)
  end.

Definition getScheme (rawURL : string) : (string * string) + error :=
  getSchemeFrom EmptyString rawURL rawURL.

Section Parse.

(** What the model leaves to the library: the rest of [parse] once the
    scheme, the query and the first path segment have been dealt with (the
    authority and the path of a URL with the given scheme), the check of
    the fragment, and the quoting of the URL in the text of an error. *)
Variable parseRest : string → string → option error.
Variable setFragment : string → option error.
Variable strconv_Quote : string → string.

(** [parse(rawURL, false)] *)
Definition parse (rawURL : string) : option error :=
  if stringContainsCTLByte rawURL then Some "net/url: invalid control character in URL"
  else if String.eqb rawURL "*" then None
  else
    match getScheme rawURL with
    | inr err => Some err
    | inl (scheme, rest) =>
        let rest := (strings.Cut rest "?").1 in
        if negb (String.prefix "/" rest) then
          if negb (String.eqb scheme EmptyString) then None
          else if strings.ContainsByte (strings.Cut rest "/").1 ":"
          then Some "first path segment in URL cannot contain colon"
          else parseRest scheme rest
        else parseRest scheme rest
    end.

Definition Error_text (URL : string) (err : error) : error :=
  "parse " ++ strconv_Quote URL ++ ": " ++ err.

(** [url.Parse(rawURL)], of which the result is only the error. *)
Definition Parse (rawURL : string) : option error :=
  let '(u, frag) := strings.Cut rawURL "#" in
  match parse u with
  | Some err => Some (Error_text u err)
  | None =>
      if String.eqb frag EmptyString then None
      else match setFragment frag with
           | Some err => Some (Error_text rawURL err)
           | None => None
           end
  end.

End Parse.

(** [ishex] *)
Definition ishex (c : ascii) : bool :=
  utf8.between 48 57 c || utf8.between 97 102 c || utf8.between 65 70 c.

(** [split(s, sep, false)]: the text before the first [sep], and the text
    from it on. *)
Fixpoint split (s : string) (sep : ascii) : string * string :=
  match s with
  | EmptyString => (EmptyString, EmptyString)
  | String c rest =>
      if Ascii.eqb c sep then (EmptyString, s)
      else let '(before, after) := split rest sep in (String c before, after)
  end.

Section Rest.

(** What is still left to the library: the check of the authority of a
    URL (user, host and port), and the quoting of a string in the text of
    an error. *)
Variable parseAuthority : string → option error.
Variable strconv_Quote : string → string.

(** The text of an [EscapeError]. *)
Definition EscapeError (s : string) : error := "invalid URL escape " ++ strconv_Quote s.

(** The error of [unescape(s, mode)] for the modes of a path and of a
    fragment: a [%] must be followed by two hexadecimal digits; the error
    shows the [%] and at most two bytes after it. *)
Fixpoint unescape (s : string) : option error :=
  match s with
  | EmptyString => None
  | String c rest =>
      if Ascii.eqb c "%" then
        match rest with
        | String h1 (String h2 rest') =>
            if ishex h1 && ishex h2 then unescape rest'
            else Some (EscapeError (String c (String h1 (String h2 EmptyString))))
        | _ => Some (EscapeError s)
        end
      else unescape rest
  end.

(** The error of [URL.setPath] and of [URL.setFragment]. *)
Definition setPath (p : string) : option error := unescape p.
Definition setFragment (f : string) : option error := unescape f.

(** The end of [parse(rawURL, false)]: the authority of a URL that has one,
    and the path. *)
Definition parseRest (scheme rest : string) : option error :=
  if (negb (String.eqb scheme EmptyString) || negb (String.prefix "///" rest))
     && String.prefix "//" rest
  then
    match rest with
    | String _ (String _ rest2) =>
        let '(authority, path) := split rest2 "/" in
        match parseAuthority authority with
        | Some err => Some err
        | None => setPath path
        end
    | _ => setPath rest
    end
  else setPath rest.

(** [url.Parse], with the authority left to the library. *)
Definition ParseURL (rawURL : string) : option error :=
  Parse parseRest setFragment strconv_Quote rawURL.

End Rest.

End neturl.

(** ** The world outside the process *)

(** How a call ends: it returns, or it panics.  A panic unwinds the stack
    and runs the deferred calls of every function it leaves. *)
Inductive outcome (A : Type) : Type :=
| Returned (a : A)
| Panicked (v : string).
Arguments Returned {A} a.
Arguments Panicked {A} v.

(** The calls that reach outside the process, as a log records them. *)
Inductive event : Type :=
| EvMkdirTemp (res : string + error)
| EvRemoveAll (path : string)
| EvDownloadUpgrade (dstRoot url daemonName : string) (res : outcome (option error))
| EvDownloadPlanInfoFromURL (url : string) (res : string + error).

(** The paths that exist on the file system, and the log of the calls made
    so far (the newest last). *)
Record World : Type := mkWorld { files : gset string; log : list event }.

(** [p] is [dir] or lies below it. *)
Definition within (dir p : string) : bool :=
  String.eqb p dir || String.prefix (dir ++ "/") p.

Definition record (e : event) (fs : gset string) (w : World) : World :=
  {| files := fs; log := log w ++ [e] |}.

Module os.

(** [joinPath] of package [os]. *)
Definition joinPath (dir name : string) : string :=
  match String.rev dir with
  | String "/" _ => dir ++ name
  | _ => dir ++ "/" ++ name
  end.

(** [prefixAndSuffix]: the pattern is cut at its last [*]; a pattern with a
    path separator is refused. *)
Fixpoint cutLastStar (pattern : string) : option (string * string) :=
  match pattern with
  | EmptyString => None
  | String c rest =>
      match cutLastStar rest with
      | Some (a, b) => Some (String c a, b)
      | None => if Ascii.eqb c "*" then Some (EmptyString, rest) else None
      end
  end.

Fixpoint hasSeparator (s : string) : bool :=
  match s with
  | EmptyString => false
  | String c rest => Ascii.eqb c "/" || hasSeparator rest
  end.

Definition prefixAndSuffix (pattern : string) : (string * string) + error :=
  if hasSeparator pattern then inr "pattern contains path separator"
  else match cutLastStar pattern with
       | Some ps => inl ps
       | None => inl (pattern, EmptyString)
       end.

Section Calls.

(** What the operating system answers: the default directory for temporary
    files, and for an attempt to create a fresh directory either the random
    part of the name under which it was created or the error. *)
Variable TempDir_env : World → string.
Variable Mkdir_env : World → string + error.

(** [os.MkdirTemp(dir, pattern)]: creates a new directory
    [dir/prefix<random>suffix] and returns its path. *)
Definition MkdirTemp (dir pattern : string) (w : World) : World * (string + error) :=
  let dir := if String.eqb dir EmptyString then TempDir_env w else dir in
  match prefixAndSuffix pattern with
  | inr err =>
      let res := inr ("mkdirtemp " ++ pattern ++ ": " ++ err) in
      (record (EvMkdirTemp res) (files w) w, res)
  | inl (pre, suf) =>
      match Mkdir_env w with
      | inl random =>
          let name := joinPath dir pre ++ random ++ suf in
          (record (EvMkdirTemp (inl name)) ({[ name ]} ∪ files w) w, inl name)
      | inr err => (record (EvMkdirTemp (inr err)) (files w) w, inr err)
      end
  end.

End Calls.

Section Removal.

(** What the operating system answers to the removal of a tree: [None]
    when the removal goes through, or the paths that it could not remove
    together with the first error it met. *)
Variable RemoveAll_env : string → World → option (gset string * error).

(** [endsWithDot] of package [os]: the path is [.] or ends with [/.]. *)
Definition endsWithDot (path : string) : bool :=
  match String.rev path with
  | String "." EmptyString => true
  | String "." (String "/" _) => true
  | _ => false
  end.

(** [os.RemoveAll(path)]: "removes path and any children it contains.  It
    removes everything it can but returns the first error it encounters."
    The empty path is left alone without an error, and a path that ends
    with a dot is refused.  What is left of the tree after a removal that
    fails is among the paths that were there. *)
Definition RemoveAll (path : string) (w : World) : World * option error :=
  if String.eqb path EmptyString then (record (EvRemoveAll path) (files w) w, None)
  else if endsWithDot path then
    (record (EvRemoveAll path) (files w) w,
     Some ("RemoveAll " ++ path ++ ": invalid argument"))
  else
    match RemoveAll_env path w with
    | None =>
        (record (EvRemoveAll path) (filter (λ p, within path p = false) (files w)) w, None)
    | Some (kept, err) =>
        (record (EvRemoveAll path)
           (filter (λ p, within path p = false ∨ p ∈ kept) (files w)) w,
         Some err)
    end.

End Removal.

End os.

(** ** Package [planinfo]: the types *)

(** [type BinaryDownloadURLMap map[string]string] *)
Abbreviation BinaryDownloadURLMap := (gmap string string).

(** [type PlanInfo struct { Binaries BinaryDownloadURLMap }].  A Go map
    value is either [nil] or a map; [Binaries = None] is the [nil] map. *)
Record PlanInfo : Type := mkPlanInfo { Binaries : option BinaryDownloadURLMap }.

(** The entries of a map value; the [nil] map has none. *)
Definition entries (b : option BinaryDownloadURLMap) : BinaryDownloadURLMap :=
  default ∅ b.

(** [order] is an order in which a [range] loop may visit [m]. *)
Definition rangeOf (m : BinaryDownloadURLMap) (order : list (string * string)) : Prop :=
  order ≡ₚ map_to_list m.

(** ** Package [encoding/json], for the type [PlanInfo] *)

Module json.

(** *** Encoding *)

Definition hexDigit (n : nat) : ascii :=
  match String.get n "0123456789abcdef" with
  | Some c => c
  | None => "0"%char
  end.

(** [htmlSafeSet]: the ASCII bytes that [Marshal] writes as they are. *)
Definition htmlSafe (b : ascii) : bool :=
  (32 <=? nat_of_ascii b)%nat
  && negb (Ascii.eqb b "034" || Ascii.eqb b "&" || Ascii.eqb b "<"
           || Ascii.eqb b ">" || Ascii.eqb b "\").

(** The escape of an ASCII byte outside [htmlSafeSet]. *)
Definition escapeByte (b : ascii) : string :=
  String "\"
    (if Ascii.eqb b "\" || Ascii.eqb b "034" then String b EmptyString
     else if Ascii.eqb b "010" then "n"
     else if Ascii.eqb b "013" then "r"
     else if Ascii.eqb b "009" then "t"
     else "u00" ++ String (hexDigit (nat_of_ascii b / 16))
                     (String (hexDigit (nat_of_ascii b mod 16)) EmptyString)).

(** U+2028 and U+2029, which the encoder always escapes: the last digit
    of the escape when [s] starts with the encoding of one of them. *)
Definition lineSeparator (s : string) : option ascii :=
  match s with
  | String b0 (String b1 (String b2 _)) =>
      if Ascii.eqb b0 "226" && Ascii.eqb b1 "128" then
        if Ascii.eqb b2 "168" then Some "8"%char
        else if Ascii.eqb b2 "169" then Some "9"%char
        else None
      else None
  | _ => None
  end.

(** The body of [encodeState.string] with [escapeHTML] set.  After the
    first byte of a multi-byte encoding, [pending] bytes of it are still
    ahead; they are copied when [verbatim] and dropped otherwise. *)
Fixpoint encodeFrom (pending : nat) (verbatim : bool) (s : string) : string :=
  match s with
  | EmptyString => EmptyString
  | String b rest =>
      match pending with
      | S k =>
          if verbatim then String b (encodeFrom k verbatim rest)
          else encodeFrom k verbatim rest
      | O =>
          if utf8.isASCII b then
            (if htmlSafe b then String b EmptyString else escapeByte b)
            ++ encodeFrom 0 true rest
          else
            match utf8.multiByte s with
            | None => "\ufffd" ++ encodeFrom 0 true rest
            | Some n =>
                match lineSeparator s with
                | Some d => "\u202" ++ String d (encodeFrom (n - 1) false rest)
                | None => String b (encodeFrom (n - 1) true rest)
                end
            end
      end
  end.

Definition encodeString (s : string) : string :=
  DQ ++ encodeFrom 0 true s ++ DQ.

(** The keys of a map are written in increasing order, byte by byte. *)
Definition keyLe (a b : string * string) : Prop := Is_true (String.leb a.1 b.1).

Definition sortedEntries (m : BinaryDownloadURLMap) : list (string * string) :=
  merge_sort keyLe (map_to_list m).

Definition encodeEntry (kv : string * string) : string :=
  encodeString kv.1 ++ ":" ++ encodeString kv.2.

Fixpoint encodeEntries (l : list (string * string)) : string :=
  match l with
  | [] => EmptyString
  | [kv] => encodeEntry kv
  | kv :: rest => encodeEntry kv ++ "," ++ encodeEntries rest
  end.

Definition encodeMap (b : option BinaryDownloadURLMap) : string :=
  match b with
  | None => "null"
  | Some m => "{" ++ encodeEntries (sortedEntries m) ++ "}"
  end.

(** [json.Marshal] of a [PlanInfo]; it cannot fail for this type. *)
Definition Marshal (p : PlanInfo) : string :=
  "{" ++ DQ ++ "binaries" ++ DQ ++ ":" ++ encodeMap (Binaries p) ++ "}".

(** *** The scanner *)

(** A JSON value as the scanner delimits it.  A string and an object key
    are kept as the bytes between their quotes, a number as its literal. *)
Inductive value : Type :=
| Null
| Bool (b : bool)
| Number (lit : string)
| Str (raw : string)
| Array (elems : list value)
| Object (members : list (string * value)).

(** The states of [scanner.step]. *)
Inductive stepState : Type :=
| stateBeginValue | stateBeginValueOrEmpty | stateBeginStringOrEmpty
| stateBeginString | stateEndValue | stateEndTop
| stateInString | stateInStringEsc
| stateInStringEscU | stateInStringEscU1 | stateInStringEscU12 | stateInStringEscU123
| stateNeg | state1 | state0 | stateDot | stateDot0 | stateE | stateESign | stateE0
| stateT | stateTr | stateTru
| stateF | stateFa | stateFal | stateFals
| stateN | stateNu | stateNul.

(** An entry of [scanner.parseState], with what has been read of the
    composite value it stands for (the newest first): the elements of an
    array; the members of an object and, in [parseObjectKey] once the key
    has been read and in [parseObjectValue] until the value has, the key
    of the member in progress. *)
Inductive frame : Type :=
| parseObjectKey (members : list (string * value)) (key : option string)
| parseObjectValue (members : list (string * value)) (key : option string)
| parseArrayValue (elems : list value).

(** [lit] holds the bytes of the literal being read, the newest first;
    [top] the top-level value once it is complete. *)
Record scanner : Type := mkScanner {
  step : stepState;
  parseState : list frame;
  lit : string;
  top : option value
}.

(** [SyntaxError]: an invalid byte with the context it was met in, or the
    end of the input before the end of the value. *)
Inductive SyntaxError : Type :=
| invalidCharacter (c : ascii) (context : string)
| unexpectedEnd.

Definition maxNestingDepth : N := 10000.

Definition isSpace (c : ascii) : bool :=
  Ascii.eqb c " " || Ascii.eqb c "009" || Ascii.eqb c "013" || Ascii.eqb c "010".

Definition isDigit (c : ascii) : bool := utf8.between 48 57 c.

Definition isHex (c : ascii) : bool :=
  isDigit c || utf8.between 97 102 c || utf8.between 65 70 c.

Definition goto (st : stepState) (s : scanner) : scanner :=
  mkScanner st (parseState s) (lit s) (top s).

(** The next byte of a literal. *)
Definition more (st : stepState) (c : ascii) (s : scanner) : scanner :=
  mkScanner st (parseState s) (String c (lit s)) (top s).

(** A literal starts with [c]. *)
Definition begin (st : stepState) (c : ascii) (s : scanner) : scanner :=
  mkScanner st (parseState s) (String c EmptyString) (top s).

(** A value is complete: it joins the composite value around it, or it
    is the top-level value. *)
Definition attachFrame (v : value) (f : frame) : frame :=
  match f with
  | parseArrayValue elems => parseArrayValue (v :: elems)
  | parseObjectKey members _ =>
      parseObjectKey members (match v with Str raw => Some raw | _ => None end)
  | parseObjectValue members (Some key) => parseObjectValue ((key, v) :: members) None
  | parseObjectValue members None => f
  end.

Definition attach (v : value) (s : scanner) : scanner :=
  match parseState s with
  | [] => mkScanner (step s) [] EmptyString (Some v)
  | f :: below => mkScanner (step s) (attachFrame v f :: below) EmptyString (top s)
  end.

(** [pushParseState] *)
Definition pushParseState (c : ascii) (f : frame) (st : stepState) (s : scanner)
  : scanner + SyntaxError :=
  let stack := f :: parseState s in
  if (N.of_nat (length stack) <=? maxNestingDepth)%N
  then inl (mkScanner st stack (lit s) (top s))
  else inr (invalidCharacter c "exceeded max depth").

(** [popParseState], for the composite value [v] that the popped entry
    stood for. *)
Definition popParseState (v : value) (below : list frame) (s : scanner) : scanner :=
  attach v (mkScanner (match below with [] => stateEndTop | _ => stateEndValue end)
              below (lit s) (top s)).

Definition stateEndTop_fn (s : scanner) (c : ascii) : scanner + SyntaxError :=
  if isSpace c then inl s else inr (invalidCharacter c "after top-level value").

Definition stateEndValue_fn (s : scanner) (c : ascii) : scanner + SyntaxError :=
  match parseState s with
  | [] => stateEndTop_fn (goto stateEndTop s) c
  | f :: below =>
      if isSpace c then inl (goto stateEndValue s)
      else
        match f with
        | parseObjectKey members key =>
            if Ascii.eqb c ":" then
              inl (mkScanner stateBeginValue (parseObjectValue members key :: below)
                     (lit s) (top s))
            else inr (invalidCharacter c "after object key")
        | parseObjectValue members _ =>
            if Ascii.eqb c "," then
              inl (mkScanner stateBeginString (parseObjectKey members None :: below)
                     (lit s) (top s))
            else if Ascii.eqb c "}" then inl (popParseState (Object (rev members)) below s)
            else inr (invalidCharacter c "after object key:value pair")
        | parseArrayValue elems =>
            if Ascii.eqb c "," then inl (goto stateBeginValue s)
            else if Ascii.eqb c "]" then inl (popParseState (Array (rev elems)) below s)
            else inr (invalidCharacter c "after array element")
        end
  end.

Definition stateBeginValue_fn (s : scanner) (c : ascii) : scanner + SyntaxError :=
  if isSpace c then inl s
  else if Ascii.eqb c "{" then
    pushParseState c (parseObjectKey [] None) stateBeginStringOrEmpty s
  else if Ascii.eqb c "[" then
    pushParseState c (parseArrayValue []) stateBeginValueOrEmpty s
  else if Ascii.eqb c "034" then inl (mkScanner stateInString (parseState s) EmptyString (top s))
  else if Ascii.eqb c "-" then inl (begin stateNeg c s)
  else if Ascii.eqb c "0" then inl (begin state0 c s)
  else if Ascii.eqb c "t" then inl (goto stateT s)
  else if Ascii.eqb c "f" then inl (goto stateF s)
  else if Ascii.eqb c "n" then inl (goto stateN s)
  else if utf8.between 49 57 c then inl (begin state1 c s)
  else inr (invalidCharacter c "looking for beginning of value").

Definition stateBeginString_fn (s : scanner) (c : ascii) : scanner + SyntaxError :=
  if isSpace c then inl s
  else if Ascii.eqb c "034" then inl (mkScanner stateInString (parseState s) EmptyString (top s))
  else inr (invalidCharacter c "looking for beginning of object key string").

(** The end of a number is the byte after it, which is then read as the
    byte after a value. *)
Definition endNumber (s : scanner) (c : ascii) : scanner + SyntaxError :=
  stateEndValue_fn (attach (Number (String.rev (lit s))) s) c.

Definition state0_fn (s : scanner) (c : ascii) : scanner + SyntaxError :=
  if Ascii.eqb c "." then inl (more stateDot c s)
  else if Ascii.eqb c "e" || Ascii.eqb c "E" then inl (more stateE c s)
  else endNumber s c.

Definition stateESign_fn (s : scanner) (c : ascii) : scanner + SyntaxError :=
  if isDigit c then inl (more stateE0 c s)
  else inr (invalidCharacter c "in exponent of numeric literal").

(** One letter of [true], [false] or [null]. *)
Definition letter (expect : ascii) (next : stepState) (context : string)
    (s : scanner) (c : ascii) : scanner + SyntaxError :=
  if Ascii.eqb c expect then inl (goto next s) else inr (invalidCharacter c context).

Definition lastLetter (expect : ascii) (v : value) (context : string)
    (s : scanner) (c : ascii) : scanner + SyntaxError :=
  if Ascii.eqb c expect then inl (attach v (goto stateEndValue s))
  else inr (invalidCharacter c context).

Definition hexStep (next : stepState) (s : scanner) (c : ascii) : scanner + SyntaxError :=
  if isHex c then inl (more next c s)
  else inr (invalidCharacter c "in \u hexadecimal character escape").

(** [scanner.step(s, c)] *)
Definition stepByte (s : scanner) (c : ascii) : scanner + SyntaxError :=
  match step s with
  | stateBeginValue => stateBeginValue_fn s c
  | stateBeginValueOrEmpty =>
      if isSpace c then inl s
      else if Ascii.eqb c "]" then stateEndValue_fn s c
      else stateBeginValue_fn s c
  | stateBeginStringOrEmpty =>
      if isSpace c then inl s
      else if Ascii.eqb c "}" then
        match parseState s with
        | parseObjectKey members key :: below =>
            stateEndValue_fn
              (mkScanner (step s) (parseObjectValue members key :: below) (lit s) (top s)) c
        | _ => stateEndValue_fn s c
        end
      else stateBeginString_fn s c
  | stateBeginString => stateBeginString_fn s c
  | stateEndValue => stateEndValue_fn s c
  | stateEndTop => stateEndTop_fn s c
  | stateInString =>
      if Ascii.eqb c "034" then inl (attach (Str (String.rev (lit s))) (goto stateEndValue s))
      else if Ascii.eqb c "\" then inl (more stateInStringEsc c s)
      else if (nat_of_ascii c <? 32)%nat then inr (invalidCharacter c "in string literal")
      else inl (more stateInString c s)
  | stateInStringEsc =>
      if Ascii.eqb c "b" || Ascii.eqb c "f" || Ascii.eqb c "n" || Ascii.eqb c "r"
         || Ascii.eqb c "t" || Ascii.eqb c "\" || Ascii.eqb c "/" || Ascii.eqb c "034"
      then inl (more stateInString c s)
      else if Ascii.eqb c "u" then inl (more stateInStringEscU c s)
      else inr (invalidCharacter c "in string escape code")
  | stateInStringEscU => hexStep stateInStringEscU1 s c
  | stateInStringEscU1 => hexStep stateInStringEscU12 s c
  | stateInStringEscU12 => hexStep stateInStringEscU123 s c
  | stateInStringEscU123 => hexStep stateInString s c
  | stateNeg =>
      if Ascii.eqb c "0" then inl (more state0 c s)
      else if utf8.between 49 57 c then inl (more state1 c s)
      else inr (invalidCharacter c "in numeric literal")
  | state1 => if isDigit c then inl (more state1 c s) else state0_fn s c
  | state0 => state0_fn s c
  | stateDot =>
      if isDigit c then inl (more stateDot0 c s)
      else inr (invalidCharacter c "after decimal point in numeric literal")
  | stateDot0 =>
      if isDigit c then inl (more stateDot0 c s)
      else if Ascii.eqb c "e" || Ascii.eqb c "E" then inl (more stateE c s)
      else endNumber s c
  | stateE =>
      if Ascii.eqb c "+" || Ascii.eqb c "-" then inl (more stateESign c s)
      else stateESign_fn s c
  | stateESign => stateESign_fn s c
  | stateE0 => if isDigit c then inl (more stateE0 c s) else endNumber s c
  | stateT => letter "r" stateTr "in literal true (expecting 'r')" s c
  | stateTr => letter "u" stateTru "in literal true (expecting 'u')" s c
  | stateTru => lastLetter "e" (Bool true) "in literal true (expecting 'e')" s c
  | stateF => letter "a" stateFa "in literal false (expecting 'a')" s c
  | stateFa => letter "l" stateFal "in literal false (expecting 'l')" s c
  | stateFal => letter "s" stateFals "in literal false (expecting 's')" s c
  | stateFals => lastLetter "e" (Bool false) "in literal false (expecting 'e')" s c
  | stateN => letter "u" stateNu "in literal null (expecting 'u')" s c
  | stateNu => letter "l" stateNul "in literal null (expecting 'l')" s c
  | stateNul => lastLetter "l" Null "in literal null (expecting 'l')" s c
  end.

(** The loop of [checkValid] over the bytes of the input. *)
Fixpoint scanBytes (s : scanner) (data : string) : scanner + SyntaxError :=
  match data with
  | EmptyString => inl s
  | String c rest =>
      match stepByte s c with
      | inl s' => scanBytes s' rest
      | inr err => inr err
      end
  end.

(** [scanner.eof]: a number at the top level ends with the input. *)
Definition eof (s : scanner) : option value + SyntaxError :=
  match step s with
  | stateEndTop => inl (top s)
  | _ =>
      match stepByte s " " with
      | inr err => inr err
      | inl s' =>
          match step s' with
          | stateEndTop => inl (top s')
          | _ => inr unexpectedEnd
          end
      end
  end.

(** [scanner.reset] *)
Definition reset : scanner := mkScanner stateBeginValue [] EmptyString None.

(** The value that a valid input holds, or its syntax error. *)
Definition scan (data : string) : value + SyntaxError :=
  match scanBytes reset data with
  | inr err => inr err
  | inl s =>
      match eof s with
      | inr err => inr err
      | inl (Some v) => inl v
      | inl None => inr unexpectedEnd
      end
  end.

(** *** Unquoting *)

Definition hexVal (c : ascii) : option N :=
  let n := N_of_ascii c in
  if isDigit c then Some (n - 48)%N
  else if utf8.between 97 102 c then Some (n - 87)%N
  else if utf8.between 65 70 c then Some (n - 55)%N
  else None.

(** [getu4] on the four bytes after a [\u]. *)
Definition getu4 (h1 h2 h3 h4 : ascii) : option N :=
  match hexVal h1, hexVal h2, hexVal h3, hexVal h4 with
  | Some a, Some b, Some c, Some d => Some (((a * 16 + b) * 16 + c) * 16 + d)%N
  | _, _, _, _ => None
  end.

(** [utf16.IsSurrogate] *)
Definition IsSurrogate (r : N) : bool := ((55296 <=? r) && (r <? 57344))%N.

(** [utf16.DecodeRune]: the rune of a surrogate pair; [None] stands for
    the replacement rune that the function returns for anything else. *)
Definition DecodeRune (r1 r2 : N) : option N :=
  if ((55296 <=? r1) && (r1 <? 56320) && (56320 <=? r2) && (r2 <? 57344))%N
  then Some ((r1 - 55296) * 1024 + (r2 - 56320) + 65536)%N
  else None.

(** The byte that a one-letter escape stands for. *)
Definition simpleEscape (e : ascii) : option ascii :=
  if Ascii.eqb e "034" || Ascii.eqb e "\" || Ascii.eqb e "/" || Ascii.eqb e "'"
  then Some e
  else if Ascii.eqb e "b" then Some "008"%char
  else if Ascii.eqb e "f" then Some "012"%char
  else if Ascii.eqb e "n" then Some "010"%char
  else if Ascii.eqb e "r" then Some "013"%char
  else if Ascii.eqb e "t" then Some "009"%char
  else None.

(** [unquoteBytes] on the bytes between the quotes: escapes are replaced
    and the result is coerced to well-formed UTF-8; [None] is its
    [ok = false].  [pending] bytes of a well-formed encoding are still to
    be copied. *)
Fixpoint unquoteFrom (pending : nat) (s : string) : option string :=
  match s with
  | EmptyString => Some EmptyString
  | String c rest =>
      match pending with
      | S k => String c <$> unquoteFrom k rest
      | O =>
          if Ascii.eqb c "\" then
            match rest with
            | EmptyString => None
            | String e rest1 =>
                if Ascii.eqb e "u" then
                  match rest1 with
                  | String h1 (String h2 (String h3 (String h4 rest2))) =>
                      match getu4 h1 h2 h3 h4 with
                      | None => None
                      | Some rr =>
                          if IsSurrogate rr then
                            let lone := String.append utf8.replacement <$> unquoteFrom 0 rest2 in
                            match rest2 with
                            | String x (String y (String g1 (String g2 (String g3 (String g4 rest3))))) =>
                                match (if Ascii.eqb x "\" && Ascii.eqb y "u"
                                       then getu4 g1 g2 g3 g4 else None) with
                                | Some rr1 =>
                                    match DecodeRune rr rr1 with
                                    | Some dec =>
                                        String.append (utf8.EncodeRune dec) <$> unquoteFrom 0 rest3
                                    | None => lone
                                    end
                                | None => lone
                                end
                            | _ => lone
                            end
                          else String.append (utf8.EncodeRune rr) <$> unquoteFrom 0 rest2
                      end
                  | _ => None
                  end
                else
                  match simpleEscape e with
                  | Some b => String b <$> unquoteFrom 0 rest1
                  | None => None
                  end
            end
          else if Ascii.eqb c "034" || (nat_of_ascii c <? 32)%nat then None
          else if utf8.isASCII c then String c <$> unquoteFrom 0 rest
          else
            match utf8.multiByte s with
            | Some n => String c <$> unquoteFrom (n - 1) rest
            | None => String.append utf8.replacement <$> unquoteFrom 0 rest
            end
      end
  end.

Definition unquote (raw : string) : option string := unquoteFrom 0 raw.

(** *** Decoding a scanned value into a [PlanInfo] *)

(** The errors of [json.Unmarshal]: a syntax error, a value that does not
    fit its target ([UnmarshalTypeError] with its fields [Value], [Struct],
    [Field] and the name of its [Type]), and the panic of a decoder whose
    input changed under it. *)
Inductive Error : Type :=
| errSyntax (err : SyntaxError)
| UnmarshalTypeError (Value Struct Field Type_ : string)
| phasePanic.

(** [b & caseMask] *)
Definition upper (b : ascii) : N := N.land (N_of_ascii b) 223.

(** [equalFoldRight s t], the fold that a field name with an [s] or a [k]
    gets: ASCII letters match in either case, and [s] and [k] also match
    the long s (U+017F) and the Kelvin sign (U+212A) in [t]. *)
Fixpoint equalFoldRight (s t : string) : bool :=
  match s with
  | EmptyString => String.eqb t EmptyString
  | String sb s' =>
      match t with
      | EmptyString => false
      | String tb t1 =>
          if utf8.isASCII tb then
            if Ascii.eqb sb tb then equalFoldRight s' t1
            else if ((65 <=? upper sb) && (upper sb <=? 90))%N && (upper sb =? upper tb)%N
            then equalFoldRight s' t1
            else false
          else
            match t1 with
            | String tb1 t2 =>
                if (upper sb =? 83)%N then
                  if Ascii.eqb tb "197" && Ascii.eqb tb1 "191" then equalFoldRight s' t2
                  else false
                else if (upper sb =? 75)%N then
                  match t2 with
                  | String tb2 t3 =>
                      if Ascii.eqb tb "226" && Ascii.eqb tb1 "132" && Ascii.eqb tb2 "170"
                      then equalFoldRight s' t3
                      else false
                  | EmptyString => false
                  end
                else false
            | EmptyString => false
            end
      end
  end.

(** The field of [PlanInfo] that a key names: the exact name of the tag,
    or else a name that folds to it. *)
Definition isBinaries (key : string) : bool :=
  String.eqb key "binaries" || equalFoldRight "binaries" key.

(** The first error is the one that is kept ([saveError]). *)
Definition saveError (saved : option Error) (err : Error) : option Error :=
  match saved with
  | Some _ => saved
  | None => Some err
  end.

Definition elemError (Value : string) : Error :=
  UnmarshalTypeError Value "PlanInfo" "binaries" "string".

(** One member of the object that fills the map: a string is stored, a
    [null] leaves the zero value, anything else is a type error. *)
Definition decodeEntry (st : BinaryDownloadURLMap * option Error) (member : string * value)
  : BinaryDownloadURLMap * option Error :=
  let '(m, saved) := st in
  match unquote member.1 with
  | None => (m, saveError saved phasePanic)
  | Some key =>
      match member.2 with
      | Str raw =>
          match unquote raw with
          | Some val => (<[key := val]> m, saved)
          | None => (m, saveError saved phasePanic)
          end
      | Null => (<[key := EmptyString]> m, saved)
      | Bool _ => (<[key := EmptyString]> m, saveError saved (elemError "bool"))
      | Number _ => (<[key := EmptyString]> m, saveError saved (elemError "number"))
      | Array _ => (<[key := EmptyString]> m, saveError saved (elemError "array"))
      | Object _ => (<[key := EmptyString]> m, saveError saved (elemError "object"))
      end
  end.

Definition mapError (Value : string) : Error :=
  UnmarshalTypeError Value "PlanInfo" "binaries" "planinfo.BinaryDownloadURLMap".

(** The value of the field [Binaries]: [null] sets the map to [nil], an
    object fills the map (a [nil] map is made first), anything else is a
    type error. *)
Definition decodeBinaries (st : option BinaryDownloadURLMap * option Error) (v : value)
  : option BinaryDownloadURLMap * option Error :=
  let '(cur, saved) := st in
  match v with
  | Null => (None, saved)
  | Object members =>
      let '(m, saved') := fold_left decodeEntry members (entries cur, saved) in
      (Some m, saved')
  | Bool _ => (cur, saveError saved (mapError "bool"))
  | Number _ => (cur, saveError saved (mapError "number"))
  | Str _ => (cur, saveError saved (mapError "string"))
  | Array _ => (cur, saveError saved (mapError "array"))
  end.

(** One member of the top-level object: a key that names no field is
    skipped with its value. *)
Definition decodeField (st : option BinaryDownloadURLMap * option Error)
    (member : string * value) : option BinaryDownloadURLMap * option Error :=
  match unquote member.1 with
  | None => (st.1, saveError st.2 phasePanic)
  | Some key => if isBinaries key then decodeBinaries st member.2 else st
  end.

Definition topError (Value : string) : Error :=
  UnmarshalTypeError Value EmptyString EmptyString "planinfo.PlanInfo".

(** [decodeState.unmarshal] into a zero [PlanInfo]. *)
Definition decode (v : value) : PlanInfo + Error :=
  match v with
  | Null => inl (mkPlanInfo None)
  | Object members =>
      match fold_left decodeField members (None, None) with
      | (b, None) => inl (mkPlanInfo b)
      | (_, Some err) => inr err
      end
  | Bool _ => inr (topError "bool")
  | Number _ => inr (topError "number")
  | Str _ => inr (topError "string")
  | Array _ => inr (topError "array")
  end.

(** [json.Unmarshal(data, &planInfo)] for a zero [planInfo]: the input is
    checked first, and decoded when it is valid. *)
Definition Unmarshal (data : string) : PlanInfo + Error :=
  match scan data with
  | inr err => inr (errSyntax err)
  | inl v => decode v
  end.

End json.

(** ** Package [planinfo]: the functions *)

Module planinfo.

(** *** The key pattern and the basic validator *)

(** The class [[a-zA-Z0-9]]. *)
Definition alnum : regexp.Regexp :=
  regexp.CharClass [("a", "z"); ("A", "Z"); ("0", "9")]%char.

(** [osArchRx = regexp.MustCompile(`[a-zA-Z0-9]+/[a-zA-Z0-9]+`)]: the
    pattern has no [^] and no [$]. *)
Definition osArchRx : regexp.Regexp :=
  regexp.Concat (regexp.Plus alnum)
    (regexp.Concat (regexp.Literal "/") (regexp.Plus alnum)).

Section BasicValidator.

(** [neturl.Parse] of the standard library, of which the source only uses
    the error: [None] when the string parses as a URL, the error otherwise. *)
Variable neturl_Parse : string → option error.

(** The body of the loop of [ValidateBasic] for one entry. *)
Definition ValidateBasic_entry (key val : string) : option error :=
  if negb (String.eqb key "any") && negb (regexp.MatchString osArchRx key)
  then Some ("invalid os/arch format in key " ++ DQ ++ key ++ DQ)
  else
    match neturl_Parse val with
    | Some err =>
        Some ("invalid url " ++ DQ ++ val ++ DQ ++ " in binaries[" ++ key ++ "]: " ++ err)
    | None => None
    end.

(** [for key, val := range m { ... }], in the order the loop runs. *)
Fixpoint ValidateBasic_range (order : list (string * string)) : option error :=
  match order with
  | [] => None
  | (key, val) :: rest =>
      match ValidateBasic_entry key val with
      | Some err => Some err
      | None => ValidateBasic_range rest
      end
  end.

(** [func (m BinaryDownloadURLMap) ValidateBasic() error] *)
Definition ValidateBasic (m : BinaryDownloadURLMap) (order : list (string * string))
  : option error :=
  if decide (size m = 0)
  then Some (errors_New ("no " ++ DQ ++ "binaries" ++ DQ ++ " entries found"))
  else ValidateBasic_range order.

End BasicValidator.

(** *** The artifact checker and the orchestrator *)

Section ArtifactChecker.

Variable neturl_Parse : string → option error.
Variable TempDir_env : World → string.
Variable Mkdir_env : World → string + error.

(** [DownloadUpgrade(dstRoot, url, daemonName)] belongs to this repository
    but not to the files at hand, so it is a parameter: in a given world it
    leaves some set of paths behind and returns [nil], returns an error, or
    panics. *)
Variable DownloadUpgrade_env :
  string → string → string → World → gset string * outcome (option error).
Variable RemoveAll_env : string → World → option (gset string * error).

Definition DownloadUpgrade (dstRoot url daemonName : string) (w : World)
  : World * outcome (option error) :=
  let '(fs, res) := DownloadUpgrade_env dstRoot url daemonName w in
  (record (EvDownloadUpgrade dstRoot url daemonName res) fs w, res).

(** The destination of one platform inside the scratch directory. *)
Definition dstRootOf (tempDir osArch : string) : string :=
  filepath.Join tempDir (strings.ReplaceAll osArch "/" "-").

(** [for osArch, url := range m { ... }] of [CheckURLs], in the order the
    loop runs. *)
Fixpoint CheckURLs_range (tempDir daemonName : string)
    (order : list (string * string)) (w : World) : World * outcome (option error) :=
  match order with
  | [] => (w, Returned None)
  | (osArch, url) :: rest =>
      let dstRoot := dstRootOf tempDir osArch in
      match DownloadUpgrade dstRoot url daemonName w with
      | (w', Returned None) => CheckURLs_range tempDir daemonName rest w'
      | (w', Returned (Some err)) =>
          (w', Returned (Some ("error downloading binary for os/arch " ++ osArch ++ ": " ++ err)))
      | (w', Panicked v) => (w', Panicked v)
      end
  end.

(** [func (m BinaryDownloadURLMap) CheckURLs(daemonName string) error].
    The receiver enters through [order] only.  The deferred
    [os.RemoveAll(tempDir)] runs when the function is left after the
    [defer] statement, by a [return] or by a panic; what it returns is
    dropped. *)
Definition CheckURLs (order : list (string * string)) (daemonName : string) (w : World)
  : World * outcome (option error) :=
  match os.MkdirTemp TempDir_env Mkdir_env EmptyString "os-arch-downloads" w with
  | (w1, inr err) => (w1, Returned (Some ("could not create temp directory: " ++ err)))
  | (w1, inl tempDir) =>
      let '(w2, res) := CheckURLs_range tempDir daemonName order w1 in
      ((os.RemoveAll RemoveAll_env tempDir w2).1, res)
  end.

(** [func (m PlanInfo) ValidateFull(daemonName string) error].  The two
    loops over [m.Binaries] each run in an order of their own. *)
Definition ValidateFull (m : PlanInfo) (orderBasic orderURLs : list (string * string))
    (daemonName : string) (w : World) : World * outcome (option error) :=
  match ValidateBasic neturl_Parse (entries (Binaries m)) orderBasic with
  | Some err => (w, Returned (Some err))
  | None =>
      match CheckURLs orderURLs daemonName w with
      | (w', Returned (Some err)) => (w', Returned (Some err))
      | (w', Returned None) => (w', Returned None)
      | (w', Panicked v) => (w', Panicked v)
      end
  end.

End ArtifactChecker.

(** *** The plan-info parser *)

Section Parser.

Variable neturl_Parse : string → option error.

(** The text of a decoding error, [err.Error()]. *)
Variable json_Error : json.Error → string.

(** [DownloadPlanInfoFromURL(url)] belongs to this repository but not to
    the files at hand: in a given world it leaves some set of paths behind
    and returns the text it fetched or an error. *)
Variable DownloadPlanInfoFromURL_env : string → World → gset string * (string + error).

Definition DownloadPlanInfoFromURL (url : string) (w : World) : World * (string + error) :=
  let '(fs, res) := DownloadPlanInfoFromURL_env url w in
  (record (EvDownloadPlanInfoFromURL url res) fs w, res).

(** The first half of [ParsePlanInfo]: the trimmed string, or what the
    URL that it is refers to. *)
Definition resolveInfo (infoStr : string) (w : World) : World * (string + error) :=
  let infoStr := strings.TrimSpace infoStr in
  match neturl_Parse infoStr with
  | None => DownloadPlanInfoFromURL infoStr w
  | Some _ => (w, inl infoStr)
  end.

(** [func ParsePlanInfo(infoStr string)], which returns a pointer to a
    [PlanInfo] or an error. *)
Definition ParsePlanInfo (infoStr : string) (w : World) : World * (PlanInfo + error) :=
  match resolveInfo infoStr w with
  | (w', inr err) => (w', inr err)
  | (w', inl infoStr) =>
      match json.Unmarshal infoStr with
      | inr err => (w', inr ("could not parse plan info: " ++ json_Error err))
      | inl planInfo => (w', inl planInfo)
      end
  end.

End Parser.

End planinfo.

(** ** Package [cli]: the transaction commands of the upgrade module *)

Module cli.

Definition FlagUpgradeHeight : string := "upgrade-height".
Definition FlagUpgradeInfo : string := "upgrade-info".
Definition FlagNoValidate : string := "no-validate".
Definition FlagDaemonName : string := "daemon-name".

(** [os.Getenv(key)]: "the value of the environment variable named by the
    key", which is "empty if the variable is not present". *)
Definition Getenv (environ : gmap string string) (key : string) : string :=
  default EmptyString (environ !! key).

(** [func getDefaultDaemonName() string], in a process with the
    environment [environ] and the command line [Args]; an empty command
    line makes [os.Args[0]] panic. *)
Definition getDefaultDaemonName (environ : gmap string string) (Args : list string)
  : outcome string :=
  let name := Getenv environ "DAEMON_NAME" in
  if (String.length name =? 0)%nat then
    match Args with
    | arg0 :: _ => Returned (filepath.Split arg0).2
    | [] => Panicked "runtime error: index out of range [0] with length 0"
    end
  else Returned name.

(** [types.Plan{Name: name, Height: height, Info: info}]: the fields that
    the source sets; the others keep their zero value. *)
Record Plan : Type := mkPlan { Name : string; Height : Z; Info : string }.

(** [cmd.Flags()]: the three typed reads that the source makes of a flag
    set, each of which returns the value of the flag or an error. *)
Record FlagSet : Type := mkFlagSet {
  GetString : string → string + error;
  GetInt64 : string → Z + error;
  GetBool : string → bool + error
}.

(** A run of a command: the world of the plan-info checker, and the
    messages handed to [tx.GenerateOrBroadcastTxCLI] so far (the newest
    last). *)
Record Session (Msg : Type) : Type := mkSession { world : World; sent : list Msg }.
Arguments mkSession {Msg} world sent.
Arguments world {Msg} s.
Arguments sent {Msg} s.

Section Commands.

(** The types and the functions of the other packages of the repository
    that the commands use: the proposal content of [x/gov], the client
    context, addresses, coins and messages, the names of the flags of
    [x/gov/client/cli], and the constructors and helpers called by the
    source.  [SoftwareUpgradeProposal_Plan] is the type assertion of the
    content to a pointer to [types.SoftwareUpgradeProposal], followed by
    the read of the field [Plan]; it is [None] when the assertion
    panics. *)
Variables Content Context AccAddress Coins Msg : Type.
Variables FlagTitle FlagDescription FlagDeposit : string.
Variable NewSoftwareUpgradeProposal : string → string → Plan → Content.
Variable SoftwareUpgradeProposal_Plan : Content → option Plan.
Variable GetClientTxContext_env : FlagSet → World → Context + error.
Variable GetFromAddress : Context → AccAddress.
Variable ParseCoinsNormalized : string → Coins + error.
Variable NewMsgSubmitProposal : Content → Coins → AccAddress → Msg + error.
Variable GenerateOrBroadcastTxCLI_env : Context → FlagSet → Msg → World → option error.

(** The environment of the plan-info checker. *)
Variable neturl_Parse : string → option error.
Variable json_Error : json.Error → string.
Variable DownloadPlanInfoFromURL_env : string → World → gset string * (string + error).
Variable TempDir_env : World → string.
Variable Mkdir_env : World → string + error.
Variable DownloadUpgrade_env :
  string → string → string → World → gset string * outcome (option error).
Variable RemoveAll_env : string → World → option (gset string * error).

(** The orders in which the two loops of [ValidateFull] visit a map. *)
Variables rangeBasic rangeURLs : BinaryDownloadURLMap → list (string * string).

(** [func parseArgsToContent(cmd, name)] *)
Definition parseArgsToContent (cmd : FlagSet) (name : string) : Content + error :=
  match GetString cmd FlagTitle with
  | inr err => inr err
  | inl title =>
      match GetString cmd FlagDescription with
      | inr err => inr err
      | inl description =>
          match GetInt64 cmd FlagUpgradeHeight with
          | inr err => inr err
          | inl height =>
              match GetString cmd FlagUpgradeInfo with
              | inr err => inr err
              | inl info =>
                  let plan := mkPlan name height info in
                  inl (NewSoftwareUpgradeProposal title description plan)
              end
          end
      end
  end.

(** The block [if !noValidate { ... }] of the handler of
    [NewCmdSubmitUpgradeProposal]: the error with which the handler
    returns from inside the block, or [nil] when it goes on. *)
Definition validateInfo (cmd : FlagSet) (content : Content) (w : World)
  : World * outcome (option error) :=
  match SoftwareUpgradeProposal_Plan content with
  | None => (w, Panicked "interface conversion: not a *types.SoftwareUpgradeProposal")
  | Some plan =>
      match GetString cmd FlagDaemonName with
      | inr err => (w, Returned (Some err))
      | inl daemonName =>
          match planinfo.ParsePlanInfo neturl_Parse json_Error DownloadPlanInfoFromURL_env
                  (Info plan) w with
          | (w1, inr err) => (w1, Returned (Some err))
          | (w1, inl planInfo) =>
              planinfo.ValidateFull neturl_Parse TempDir_env Mkdir_env DownloadUpgrade_env
                RemoveAll_env planInfo (rangeBasic (entries (Binaries planInfo)))
                (rangeURLs (entries (Binaries planInfo))) daemonName w1
          end
      end
  end.

(** The end of the handler, from [clientCtx.GetFromAddress()] on. *)
Definition submit (clientCtx : Context) (cmd : FlagSet) (content : Content) (s : Session Msg)
  : Session Msg * outcome (option error) :=
  let from := GetFromAddress clientCtx in
  match GetString cmd FlagDeposit with
  | inr err => (s, Returned (Some err))
  | inl depositStr =>
      match ParseCoinsNormalized depositStr with
      | inr err => (s, Returned (Some err))
      | inl deposit =>
          match NewMsgSubmitProposal content deposit from with
          | inr err => (s, Returned (Some err))
          | inl msg =>
              (mkSession (world s) (sent s ++ [msg])%list,
               Returned (GenerateOrBroadcastTxCLI_env clientCtx cmd msg (world s)))
          end
      end
  end.

(** The handler [RunE] of [NewCmdSubmitUpgradeProposal]. *)
Definition RunE (cmd : FlagSet) (args : list string) (s : Session Msg)
  : Session Msg * outcome (option error) :=
  match GetClientTxContext_env cmd (world s) with
  | inr err => (s, Returned (Some err))
  | inl clientCtx =>
      match args with
      | [] => (s, Panicked "runtime error: index out of range [0] with length 0")
      | name :: _ =>
          match parseArgsToContent cmd name with
          | inr err => (s, Returned (Some err))
          | inl content =>
              match GetBool cmd FlagNoValidate with
              | inr err => (s, Returned (Some err))
              | inl noValidate =>
                  if negb noValidate then
                    match validateInfo cmd content (world s) with
                    | (w1, Returned None) => submit clientCtx cmd content (mkSession w1 (sent s))
                    | (w1, res) => (mkSession w1 (sent s), res)
                    end
                  else submit clientCtx cmd content s
              end
          end
      end
  end.

End Commands.

End cli.

(** ** Package [module]: the generated code of the messages that configure
    the auth module *)

Module module.

(** A byte of a buffer is an [ascii]; [val] is its value.  The conversions
    of Go are written with their wrap-around; [int] is 64 bits wide. *)
Definition val (b : ascii) : Z := Z.of_N (N_of_ascii b).
Definition uint8 (z : Z) : ascii := ascii_of_N (Z.to_N (z mod 256)).
Definition uint64 (z : Z) : Z := (z mod 2 ^ 64)%Z.
Definition int (z : Z) : Z := ((z + 2 ^ 63) mod 2 ^ 64 - 2 ^ 63)%Z.
Definition int32 (z : Z) : Z := ((z + 2 ^ 31) mod 2 ^ 32 - 2 ^ 31)%Z.

(** [len] of a slice and of a string. *)
Definition len (dAtA : list ascii) : Z := Z.of_nat (length dAtA).
Definition strlen (s : string) : Z := Z.of_nat (String.length s).

(** The verb [%d] of [fmt]. *)
Definition itoa (z : Z) : string := NilZero.string_of_int (Z.to_int z).

Definition ErrInvalidLengthModule : error := "proto: negative length found during unmarshaling".
Definition ErrIntOverflowModule : error := "proto: integer overflow".
Definition ErrUnexpectedEndOfGroupModule : error := "proto: unexpected end of group".
Definition io_ErrUnexpectedEOF : error := "unexpected EOF".

(** A call that returns a value and a [nil] error, returns an error, or
    panics. *)
Definition result (A : Type) : Type := outcome (A + error).
Definition ok {A} (a : A) : result A := Returned (inl a).
Definition fail {A} (err : error) : result A := Returned (inr err).
Definition panic {A} (v : string) : result A := Panicked v.

Definition bind {A B} (r : result A) (k : A → result B) : result B :=
  match r with
  | Returned (inl a) => k a
  | Returned (inr err) => Returned (inr err)
  | Panicked v => Panicked v
  end.

(** [dAtA[i]], [dAtA[i] = b] and [dAtA[lo:hi]]: out of range they panic,
    which is [None] here. *)
Definition index (dAtA : list ascii) (i : Z) : option ascii :=
  if (0 <=? i)%Z then dAtA !! Z.to_nat i else None.

Definition store (dAtA : list ascii) (i : Z) (b : ascii) : option (list ascii) :=
  if ((0 <=? i) && (i <? len dAtA))%Z then Some (<[Z.to_nat i := b]> dAtA) else None.

Definition slice (dAtA : list ascii) (lo hi : Z) : option (list ascii) :=
  if ((0 <=? lo) && (lo <=? hi) && (hi <=? len dAtA))%Z
  then Some (take (Z.to_nat (hi - lo)) (drop (Z.to_nat lo) dAtA))
  else None.

(** [copy(dAtA[i:], s)]: as many bytes of [s] as there is room for. *)
Definition copyAt (dAtA : list ascii) (i : Z) (s : string) : option (list ascii) :=
  match slice dAtA i (len dAtA) with
  | None => None
  | Some dst =>
      let n := Nat.min (length dst) (String.length s) in
      Some (take (Z.to_nat i) dAtA ++ take n (list_ascii_of_string s) ++ drop n dst)%list
  end.

(** [bits.Len64]: "the minimum number of bits required to represent x; the
    result is 0 for x == 0". *)
Definition Len64 (x : Z) : Z := if (x =? 0)%Z then 0%Z else (Z.log2 x + 1)%Z.

(** [func sovModule(x uint64) (n int)] *)
Definition sovModule (x : Z) : Z := ((Len64 (Z.lor x 1) + 6) / 7)%Z.

(** [func sozModule(x uint64) (n int)] *)
Definition sozModule (x : Z) : Z :=
  sovModule (Z.lxor (uint64 (Z.shiftl x 1)) (uint64 (Z.shiftr (int x) 63))).

(** The loop of [encodeVarintModule].  A [uint64] has nine groups of seven
    bits above its lowest one, so the body of [for v >= 1<<7] runs at most
    nine times, which is what [passes] counts down from. *)
Fixpoint encodeVarintLoop (passes : nat) (dAtA : list ascii) (offset v : Z)
  : option (list ascii) :=
  match passes with
  | S passes' =>
      if (128 <=? v)%Z then
        match store dAtA offset (uint8 (Z.lor (Z.land v 127) 128)) with
        | None => None
        | Some dAtA => encodeVarintLoop passes' dAtA (int (offset + 1)) (Z.shiftr v 7)
        end
      else store dAtA offset (uint8 v)
  | O => store dAtA offset (uint8 v)
  end.

(** [func encodeVarintModule(dAtA []byte, offset int, v uint64) int]: the
    buffer as it is left, and the result. *)
Definition encodeVarintModule (dAtA : list ascii) (offset v : Z) : outcome (list ascii * Z) :=
  let offset := int (offset - sovModule v) in
  let base := offset in
  match encodeVarintLoop 9 dAtA offset v with
  | None => Panicked "runtime error: index out of range"
  | Some dAtA => Returned (dAtA, base)
  end.

(** [type Permission struct].  A [nil] slice and an empty slice are both
    the empty list.  The receiver of every method below is not [nil]. *)
Record Permission : Type := mkPermission { Address : string; Permissions : list string }.

(** One term of [Size]: [n += 1 + l + sovModule(uint64(l))]. *)
Definition addSize (n : Z) (s : string) : Z :=
  let l := strlen s in int (n + (1 + l + sovModule (uint64 l))).

(** [func (m *Permission) Size() (n int)], for a receiver that is not
    [nil]. *)
Definition Size (m : Permission) : Z :=
  let n := 0%Z in
  let n := if (0 <? strlen (Address m))%Z then addSize n (Address m) else n in
  if (0 <? Z.of_nat (length (Permissions m)))%Z
  then fold_left addSize (Permissions m) n
  else n.

(** The four statements that write one field of type string before the
    index [i]: the bytes, their number as a varint, and the tag. *)
Definition marshalString (tag : ascii) (s : string) (st : list ascii * Z)
  : outcome (list ascii * Z) :=
  let '(dAtA, i) := st in
  let i := int (i - strlen s) in
  match copyAt dAtA i s with
  | None => Panicked "runtime error: slice bounds out of range"
  | Some dAtA =>
      match encodeVarintModule dAtA i (uint64 (strlen s)) with
      | Panicked v => Panicked v
      | Returned (dAtA, i) =>
          let i := int (i - 1) in
          match store dAtA i tag with
          | None => Panicked "runtime error: index out of range"
          | Some dAtA => Returned (dAtA, i)
          end
      end
  end.

(** [for iNdEx := len(m.Permissions) - 1; iNdEx >= 0; iNdEx--], over the
    elements in the order of the visit. *)
Fixpoint marshalStrings (tag : ascii) (l : list string) (st : list ascii * Z)
  : outcome (list ascii * Z) :=
  match l with
  | [] => Returned st
  | s :: rest =>
      match marshalString tag s st with
      | Panicked v => Panicked v
      | Returned st => marshalStrings tag rest st
      end
  end.

(** [func (m *Permission) MarshalToSizedBuffer(dAtA []byte) (int, error)]:
    the buffer as it is left, and the number of bytes written at its end;
    the error is always [nil]. *)
Definition MarshalToSizedBuffer (m : Permission) (dAtA : list ascii)
  : outcome (list ascii * Z) :=
  let i := len dAtA in
  match (if (0 <? Z.of_nat (length (Permissions m)))%Z
         then marshalStrings "018" (rev (Permissions m)) (dAtA, i)
         else Returned (dAtA, i)) with
  | Panicked v => Panicked v
  | Returned st =>
      match (if (0 <? strlen (Address m))%Z
             then marshalString "010" (Address m) st
             else Returned st) with
      | Panicked v => Panicked v
      | Returned (dAtA', i) => Returned (dAtA', int (len dAtA - i))
      end
  end.

(** [func (m *Permission) Marshal() (dAtA []byte, err error)] *)
Definition Marshal (m : Permission) : outcome (list ascii) :=
  let size := Size m in
  if (size <? 0)%Z then Panicked "runtime error: makeslice: len out of range"
  else
    let dAtA := replicate (Z.to_nat size) zero in
    match slice dAtA 0 size with
    | None => Panicked "runtime error: slice bounds out of range"
    | Some buf =>
        match MarshalToSizedBuffer m buf with
        | Panicked v => Panicked v
        | Returned (dAtA, n) =>
            match slice dAtA 0 n with
            | None => Panicked "runtime error: slice bounds out of range"
            | Some out => Returned out
            end
        end
    end.

(** [func (m *Permission) MarshalTo(dAtA []byte) (int, error)]: the first
    [Size()] bytes of the buffer are written in place.  The capacity of the
    buffer is taken to be its length, so [dAtA[:size]] beyond the length
    panics. *)
Definition MarshalTo (m : Permission) (dAtA : list ascii) : outcome (list ascii * Z) :=
  let size := Size m in
  match slice dAtA 0 size with
  | None => Panicked "runtime error: slice bounds out of range"
  | Some buf =>
      match MarshalToSizedBuffer m buf with
      | Panicked v => Panicked v
      | Returned (buf, n) => Returned ((buf ++ drop (Z.to_nat size) dAtA)%list, n)
      end
  end.

(** The values of [shift] in the loops [for shift := uint(0); ; shift += 7]
    before [shift >= 64] ends them. *)
Definition shifts : list Z := [0; 7; 14; 21; 28; 35; 42; 49; 56; 63]%Z.

(** The loop that reads a varint into a [uint64], from [iNdEx] on: the
    value and the index after it. *)
Fixpoint readVarint (shifts : list Z) (dAtA : list ascii) (iNdEx x : Z) : result (Z * Z) :=
  match shifts with
  | [] => fail ErrIntOverflowModule
  | shift :: later =>
      if (len dAtA <=? iNdEx)%Z then fail io_ErrUnexpectedEOF
      else
        match index dAtA iNdEx with
        | None => panic "runtime error: index out of range"
        | Some b =>
            let iNdEx := int (iNdEx + 1) in
            let x := Z.lor x (uint64 (Z.shiftl (Z.land (val b) 127) shift)) in
            if (val b <? 128)%Z then ok (x, iNdEx) else readVarint later dAtA iNdEx x
        end
  end.

(** The loop of [skipModule] that passes over a varint. *)
Fixpoint skipVarint (shifts : list Z) (dAtA : list ascii) (iNdEx : Z) : result Z :=
  match shifts with
  | [] => fail ErrIntOverflowModule
  | shift :: later =>
      if (len dAtA <=? iNdEx)%Z then fail io_ErrUnexpectedEOF
      else
        let iNdEx := int (iNdEx + 1) in
        match index dAtA (int (iNdEx - 1)) with
        | None => panic "runtime error: index out of range"
        | Some b => if (val b <? 128)%Z then ok iNdEx else skipVarint later dAtA iNdEx
        end
  end.

(** The loop of [skipModule] that reads a length into an [int]. *)
Fixpoint readLength (shifts : list Z) (dAtA : list ascii) (iNdEx length : Z) : result (Z * Z) :=
  match shifts with
  | [] => fail ErrIntOverflowModule
  | shift :: later =>
      if (len dAtA <=? iNdEx)%Z then fail io_ErrUnexpectedEOF
      else
        match index dAtA iNdEx with
        | None => panic "runtime error: index out of range"
        | Some b =>
            let iNdEx := int (iNdEx + 1) in
            let length := Z.lor length (int (Z.shiftl (Z.land (val b) 127) shift)) in
            if (val b <? 128)%Z then ok (length, iNdEx) else readLength later dAtA iNdEx length
        end
  end.

(** One pass of the loop of [skipModule], up to the tests at its end: the
    index and the depth after the field. *)
Definition skipField (dAtA : list ascii) (iNdEx depth : Z) : result (Z * Z) :=
  bind (readVarint shifts dAtA iNdEx 0) (λ '(wire, iNdEx),
    let wireType := int (Z.land wire 7) in
    if (wireType =? 0)%Z then
      bind (skipVarint shifts dAtA iNdEx) (λ iNdEx, ok (iNdEx, depth))
    else if (wireType =? 1)%Z then ok (int (iNdEx + 8), depth)
    else if (wireType =? 2)%Z then
      bind (readLength shifts dAtA iNdEx 0) (λ '(length, iNdEx),
        if (length <? 0)%Z then fail ErrInvalidLengthModule
        else ok (int (iNdEx + length), depth))
    else if (wireType =? 3)%Z then ok (iNdEx, int (depth + 1))
    else if (wireType =? 4)%Z then
      if (depth =? 0)%Z then fail ErrUnexpectedEndOfGroupModule
      else ok (iNdEx, int (depth - 1))
    else if (wireType =? 5)%Z then ok (int (iNdEx + 4), depth)
    else fail ("proto: illegal wireType " ++ itoa wireType)).

(** The loop [for iNdEx < l] of [skipModule].  Every pass moves [iNdEx]
    forward, so there are at most [len dAtA] passes, which is what [passes]
    counts down from. *)
Fixpoint skipLoop (passes : nat) (dAtA : list ascii) (iNdEx depth : Z) : result Z :=
  if (iNdEx <? len dAtA)%Z then
    match passes with
    | O => panic "more passes than bytes"
    | S passes' =>
        bind (skipField dAtA iNdEx depth) (λ '(iNdEx, depth),
          if (iNdEx <? 0)%Z then fail ErrInvalidLengthModule
          else if (depth =? 0)%Z then ok iNdEx
          else skipLoop passes' dAtA iNdEx depth)
    end
  else fail io_ErrUnexpectedEOF.

(** [func skipModule(dAtA []byte) (n int, err error)] *)
Definition skipModule (dAtA : list ascii) : result Z :=
  skipLoop (length dAtA) dAtA 0 0.

(** The [default] case of the [switch fieldNum] of every [Unmarshal]. *)
Definition skipUnknown (dAtA : list ascii) (preIndex : Z) : result Z :=
  let iNdEx := preIndex in
  match slice dAtA iNdEx (len dAtA) with
  | None => panic "runtime error: slice bounds out of range"
  | Some rest =>
      bind (skipModule rest) (λ skippy,
        if ((skippy <? 0) || (int (iNdEx + skippy) <? 0))%Z then fail ErrInvalidLengthModule
        else if (len dAtA <? int (iNdEx + skippy))%Z then fail io_ErrUnexpectedEOF
        else ok (int (iNdEx + skippy)))
  end.

(** The body of a [case] for a field of type string, after the test of
    the wire type: the string and the index after it. *)
Definition readString (dAtA : list ascii) (iNdEx : Z) : result (string * Z) :=
  bind (readVarint shifts dAtA iNdEx 0) (λ '(stringLen, iNdEx),
    let intStringLen := int stringLen in
    if (intStringLen <? 0)%Z then fail ErrInvalidLengthModule
    else
      let postIndex := int (iNdEx + intStringLen) in
      if (postIndex <? 0)%Z then fail ErrInvalidLengthModule
      else if (len dAtA <? postIndex)%Z then fail io_ErrUnexpectedEOF
      else
        match slice dAtA iNdEx postIndex with
        | None => panic "runtime error: slice bounds out of range"
        | Some bs => ok (string_of_list_ascii bs, postIndex)
        end).

(** The start of a pass of the loop of an [Unmarshal] of the message
    [name]: the tag, with the two tests on it. *)
Definition readTag (name : string) (dAtA : list ascii) (iNdEx : Z) : result (Z * Z * Z) :=
  bind (readVarint shifts dAtA iNdEx 0) (λ '(wire, iNdEx),
    let fieldNum := int32 (Z.shiftr wire 3) in
    let wireType := int (Z.land wire 7) in
    if (wireType =? 4)%Z
    then fail ("proto: " ++ name ++ ": wiretype end group for non-group")
    else if (fieldNum <=? 0)%Z
    then fail ("proto: " ++ name ++ ": illegal tag " ++ itoa fieldNum
               ++ " (wire type " ++ itoa wire ++ ")")
    else ok (fieldNum, wireType, iNdEx)).

Definition wrongWireType (wireType : Z) (field : string) : error :=
  "proto: wrong wireType = " ++ itoa wireType ++ " for field " ++ field.

(** One pass of the loop of [Permission.Unmarshal]: the message and the
    index after the field. *)
Definition unmarshalField (m : Permission) (dAtA : list ascii) (iNdEx : Z)
  : result (Permission * Z) :=
  let preIndex := iNdEx in
  bind (readTag "Permission" dAtA iNdEx) (λ '(fieldNum, wireType, iNdEx),
    if (fieldNum =? 1)%Z then
      if negb (wireType =? 2)%Z then fail (wrongWireType wireType "Address")
      else
        bind (readString dAtA iNdEx) (λ '(s, iNdEx),
          ok (mkPermission s (Permissions m), iNdEx))
    else if (fieldNum =? 2)%Z then
      if negb (wireType =? 2)%Z then fail (wrongWireType wireType "Permissions")
      else
        bind (readString dAtA iNdEx) (λ '(s, iNdEx),
          ok (mkPermission (Address m) (Permissions m ++ [s]), iNdEx))
    else
      bind (skipUnknown dAtA preIndex) (λ iNdEx, ok (m, iNdEx))).

(** The loop [for iNdEx < l] of an [Unmarshal] and the test after it, for
    the pass [field]: the message as it is left, and the error.  Every
    pass moves [iNdEx] forward, so there are at most [len dAtA] passes. *)
Fixpoint unmarshalLoop {M} (field : M → list ascii → Z → result (M * Z))
    (passes : nat) (m : M) (dAtA : list ascii) (iNdEx : Z) : M * outcome (option error) :=
  if (iNdEx <? len dAtA)%Z then
    match passes with
    | O => (m, Panicked "more passes than bytes")
    | S passes' =>
        match field m dAtA iNdEx with
        | Returned (inl (m, iNdEx)) => unmarshalLoop field passes' m dAtA iNdEx
        | Returned (inr err) => (m, Returned (Some err))
        | Panicked v => (m, Panicked v)
        end
    end
  else if (len dAtA <? iNdEx)%Z then (m, Returned (Some io_ErrUnexpectedEOF))
  else (m, Returned None).

(** [func (m *Permission) Unmarshal(dAtA []byte) error]: the receiver as
    the call leaves it, and the error. *)
Definition Unmarshal (m : Permission) (dAtA : list ascii) : Permission * outcome (option error) :=
  unmarshalLoop unmarshalField (length dAtA) m dAtA 0.

(** One pass of the loop of the [Unmarshal] of a message without fields:
    [TxHandler], [DefaultAccountConstructor] and
    [DefaultRandomGenesisAccountsProvider]. *)
Definition emptyField (name : string) (m : unit) (dAtA : list ascii) (iNdEx : Z)
  : result (unit * Z) :=
  let preIndex := iNdEx in
  bind (readTag name dAtA iNdEx) (λ '(fieldNum, wireType, iNdEx),
    bind (skipUnknown dAtA preIndex) (λ iNdEx, ok (m, iNdEx))).

Definition TxHandler_Unmarshal (dAtA : list ascii) : outcome (option error) :=
  (unmarshalLoop (emptyField "TxHandler") (length dAtA) () dAtA 0).2.

Definition DefaultAccountConstructor_Unmarshal (dAtA : list ascii) : outcome (option error) :=
  (unmarshalLoop (emptyField "DefaultAccountConstructor") (length dAtA) () dAtA 0).2.

Definition DefaultRandomGenesisAccountsProvider_Unmarshal (dAtA : list ascii)
  : outcome (option error) :=
  (unmarshalLoop (emptyField "DefaultRandomGenesisAccountsProvider") (length dAtA) () dAtA 0).2.

End module.

(** * The vocabulary of the statements and of the examples *)

Definition fetched (tempDir daemonName : string) (kv : string * string) : event :=
  EvDownloadUpgrade (planinfo.dstRootOf tempDir kv.1) kv.2 daemonName (Returned None).

(** The error of an empty table. *)
Definition errNoBinaries : error := "no " ++ DQ ++ "binaries" ++ DQ ++ " entries found".

(** A URL parser that accepts every string, for the examples in which no
    value is at fault. *)
Definition acceptAll (rawURL : string) : option error := None.

(** An environment for the examples: temporary directories are made under
    [/tmp] with the random part [123]; a download leaves its destination
    behind, and fails with [404] for the URL [bad]. *)
Definition exampleTempDir (w : World) : string := "/tmp".
Definition exampleMkdir (w : World) : string + error := inl "123".
Definition exampleRemoveAll (path : string) (w : World) : option (gset string * error) := None.

Definition exampleDownload (dstRoot url daemonName : string) (w : World)
  : gset string * outcome (option error) :=
  ({[ dstRoot ]} ∪ files w,
   if String.eqb url "bad" then Returned (Some "404") else Returned None).


Definition emptyWorld : World := mkWorld ∅ [].


Definition exampleScratch : string := "/tmp/os-arch-downloads123".

Definition high (b : ascii) : Prop := (128 <= nat_of_ascii b)%nat.

(** One rune of a well-formed string, as its bytes. *)
Inductive rune : string → Prop :=
| rune2 b0 b1 lo hi :
    utf8.accept b0 = Some (2, lo, hi) → utf8.between lo hi b1 = true →
    rune (String b0 (String b1 EmptyString))
| rune3 b0 b1 b2 lo hi :
    utf8.accept b0 = Some (3, lo, hi) → utf8.between lo hi b1 = true →
    utf8.cont b2 = true →
    rune (String b0 (String b1 (String b2 EmptyString)))
| rune4 b0 b1 b2 b3 lo hi :
    utf8.accept b0 = Some (4, lo, hi) → utf8.between lo hi b1 = true →
    utf8.cont b2 = true → utf8.cont b3 = true →
    rune (String b0 (String b1 (String b2 (String b3 EmptyString)))).

(** The text that the encoder writes for a well-formed string, rune by
    rune. *)
Inductive Enc : string → string → Prop :=
| Enc_nil : Enc EmptyString EmptyString
| Enc_safe b s e :
    utf8.isASCII b = true → json.htmlSafe b = true → Enc s e →
    Enc (String b s) (String b e)
| Enc_escape b s e :
    utf8.isASCII b = true → json.htmlSafe b = false → Enc s e →
    Enc (String b s) (json.escapeByte b ++ e)
| Enc_separator d r s e :
    rune r → json.lineSeparator r = Some d → Enc s e →
    Enc (r ++ s) ("\u202" ++ String d e)
| Enc_rune r s e :
    rune r → json.lineSeparator r = None → Enc s e →
    Enc (r ++ s) (r ++ e).

Definition inString (ps : list json.frame) (l : string) (t : option json.value) : json.scanner :=
  json.mkScanner json.stateInString ps l t.

(** What the scanner keeps of an entry that the encoder wrote. *)
Definition rawEntry (kv : string * string) : string * json.value :=
  (json.encodeFrom 0 true kv.1, json.Str (json.encodeFrom 0 true kv.2)).

Definition validEntry (kv : string * string) : Prop :=
  utf8.ValidString kv.1 = true ∧ utf8.ValidString kv.2 = true.

(** The keys and the values of [p] are well-formed UTF-8. *)
Definition validPlanInfo (p : PlanInfo) : Prop :=
  map_Forall (λ k v, utf8.ValidString k = true ∧ utf8.ValidString v = true)
    (entries (Binaries p)).

Definition store (m : BinaryDownloadURLMap) (kv : string * string) : BinaryDownloadURLMap :=
  <[kv.1 := kv.2]> m.

(** The fixed start of every serialization, [{"binaries":]. *)
Definition marshalPrefix : string := "{" ++ DQ ++ "binaries" ++ DQ ++ ":".

(** The spec's shape of a plan-info document, "a single field binaries
    mapped to a string-to-string table", as a property of a scanned
    value. *)
Definition conformsToShape (v : json.value) : bool :=
  match v with
  | json.Object [(key, json.Object table)] =>
      bool_decide (json.unquote key = Some "binaries")
      && forallb (λ member, match member.2 with json.Str _ => true | _ => false end) table
  | _ => false
  end.

(** An environment for the examples: the rest of [url.Parse] accepts
    everything, errors are shown by their kind, nothing can be fetched,
    and the world is empty. *)
Definition exampleParse : string → option error :=
  neturl.Parse (λ _ _, None) (λ _, None) (λ s, DQ ++ s ++ DQ).

Definition exampleError (err : json.Error) : string :=
  match err with
  | json.errSyntax _ => "syntax error"
  | json.UnmarshalTypeError Value _ _ Type_ =>
      "json: cannot unmarshal " ++ Value ++ " into Go value of type " ++ Type_
  | json.phasePanic => "JSON decoder out of sync - data changing underfoot?"
  end.

Definition exampleFetch (url : string) (w : World) : gset string * (string + error) :=
  (files w, inr "unreachable").

Definition examplePlan : PlanInfo :=
  mkPlanInfo (Some (<[ "linux/amd64" := "https://example.com/v2.tgz?a=1&b=<2>" ]>
                      {[ "any" := "https://example.com/" ++ utf8.EncodeRune 233 ]})).

(** The one-letter escapes that the scanner lets through. *)
Definition scannerEscape (e : ascii) : bool :=
  Ascii.eqb e "b" || Ascii.eqb e "f" || Ascii.eqb e "n" || Ascii.eqb e "r"
  || Ascii.eqb e "t" || Ascii.eqb e "\" || Ascii.eqb e "/" || Ascii.eqb e "034".

(** The bytes between the quotes of a string that the scanner lets
    through: no quote, no control byte, and only complete escapes. *)
Fixpoint okBody (raw : string) : bool :=
  match raw with
  | EmptyString => true
  | String c rest =>
      if Ascii.eqb c "\" then
        match rest with
        | EmptyString => false
        | String e rest1 =>
            if Ascii.eqb e "u" then
              match rest1 with
              | String h1 (String h2 (String h3 (String h4 rest2))) =>
                  json.isHex h1 && json.isHex h2 && json.isHex h3 && json.isHex h4
                  && okBody rest2
              | _ => false
              end
            else scannerEscape e && okBody rest1
        end
      else negb (Ascii.eqb c "034") && negb (nat_of_ascii c <? 32)%nat && okBody rest
  end.

(** Every string and every key of a scanned value has such a body. *)
Fixpoint wellQuoted (v : json.value) : bool :=
  match v with
  | json.Str raw => okBody raw
  | json.Array elems => forallb wellQuoted elems
  | json.Object members =>
      forallb (λ member, let '(key, val) := member in okBody key && wellQuoted val) members
  | _ => true
  end.

Definition membersOK (members : list (string * json.value)) : bool :=
  forallb (λ member, let '(key, val) := member in okBody key && wellQuoted val) members.

Definition keyOK (key : option string) : bool :=
  match key with Some raw => okBody raw | None => true end.

Definition frameOK (f : json.frame) : bool :=
  match f with
  | json.parseObjectKey members key => membersOK members && keyOK key
  | json.parseObjectValue members key => membersOK members && keyOK key
  | json.parseArrayValue elems => forallb wellQuoted elems
  end.

(** What the bytes read so far of a string literal are, by the state of
    the scanner; [l] holds them with the newest first. *)
Definition litOK (st : json.stepState) (l : string) : Prop :=
  match st with
  | json.stateInString => okBody (String.rev l) = true
  | json.stateInStringEsc => ∃ l', l = String "\" l' ∧ okBody (String.rev l') = true
  | json.stateInStringEscU =>
      ∃ l', l = String "u" (String "\" l') ∧ okBody (String.rev l') = true
  | json.stateInStringEscU1 =>
      ∃ h1 l', l = String h1 (String "u" (String "\" l'))
               ∧ json.isHex h1 = true ∧ okBody (String.rev l') = true
  | json.stateInStringEscU12 =>
      ∃ h1 h2 l', l = String h2 (String h1 (String "u" (String "\" l')))
                  ∧ json.isHex h1 = true ∧ json.isHex h2 = true
                  ∧ okBody (String.rev l') = true
  | json.stateInStringEscU123 =>
      ∃ h1 h2 h3 l', l = String h3 (String h2 (String h1 (String "u" (String "\" l'))))
                     ∧ json.isHex h1 = true ∧ json.isHex h2 = true ∧ json.isHex h3 = true
                     ∧ okBody (String.rev l') = true
  | _ => True
  end.

(** The invariant of the scanner. *)
Definition scannerOK (s : json.scanner) : Prop :=
  forallb frameOK (json.parseState s) = true
  ∧ match json.top s with Some v => wellQuoted v = true | None => True end
  ∧ litOK (json.step s) (json.lit s).

(** The key of a member names the field [Binaries]. *)
Definition namesBinaries (raw : string) : bool :=
  match json.unquote raw with
  | Some key => json.isBinaries key
  | None => false
  end.

(** The values that the decoder stores in a [string]: a string, and
    [null]. *)
Definition fitsString (v : json.value) : bool :=
  match v with
  | json.Str _ | json.Null => true
  | _ => false
  end.

(** The values that the decoder stores in a [BinaryDownloadURLMap]:
    [null], and an object whose values fit a [string]. *)
Definition fitsMap (v : json.value) : bool :=
  match v with
  | json.Null => true
  | json.Object table => forallb (λ member, fitsString member.2) table
  | _ => false
  end.

(** The values that the decoder stores in a [PlanInfo]: [null], and an
    object in which the value of every member that names the field
    [Binaries] fits a [BinaryDownloadURLMap]. *)
Definition fitsPlanInfo (v : json.value) : bool :=
  match v with
  | json.Null => true
  | json.Object members =>
      forallb (λ member, if namesBinaries member.1 then fitsMap member.2 else true) members
  | _ => false
  end.

(** The strings that a regular expression denotes. *)
Inductive matches : regexp.Regexp → string → Prop :=
| matches_empty : matches regexp.EmptyMatch EmptyString
| matches_literal c : matches (regexp.Literal c) (String c EmptyString)
| matches_class ranges c :
    regexp.inClass ranges c = true → matches (regexp.CharClass ranges) (String c EmptyString)
| matches_concat r1 r2 s1 s2 :
    matches r1 s1 → matches r2 s2 → matches (regexp.Concat r1 r2) (s1 ++ s2)
| matches_alternate_l r1 r2 s : matches r1 s → matches (regexp.Alternate r1 r2) s
| matches_alternate_r r1 r2 s : matches r2 s → matches (regexp.Alternate r1 r2) s
| matches_star_nil r : matches (regexp.Star r) EmptyString
| matches_star_more r s1 s2 :
    matches r s1 → matches (regexp.Star r) s2 → matches (regexp.Star r) (s1 ++ s2)
| matches_plus r s1 s2 :
    matches r s1 → matches (regexp.Star r) s2 → matches (regexp.Plus r) (s1 ++ s2).

(** A byte of the class [[a-zA-Z0-9]]. *)
Definition alnumByte (c : ascii) : bool :=
  regexp.inClass [("a", "z"); ("A", "Z"); ("0", "9")]%char c.

Fixpoint allAlnum (s : string) : bool :=
  match s with
  | EmptyString => true
  | String c rest => alnumByte c && allAlnum rest
  end.

(** The shape that the doc comment of [ValidateBasic] gives to a key: the
    sentinel [any], or [os/arch] as a whole. *)
Definition osArchKey (key : string) : Prop :=
  key = "any" ∨ regexp.fullMatch planinfo.osArchRx key = true.

Fixpoint hasByte (c : ascii) (s : string) : bool :=
  match s with
  | EmptyString => false
  | String d rest => Ascii.eqb d c || hasByte c rest
  end.

(** A world in which the text behind the URL [https://example.com/plan] is
    the serialization of a plan, for the examples of the parser. *)
Definition exampleBody : string :=
  "{" ++ DQ ++ "binaries" ++ DQ ++ ":{" ++ DQ ++ "any" ++ DQ ++ ":" ++ DQ ++ "https://x" ++ DQ ++ "}}".

Definition exampleServer (url : string) (w : World) : gset string * (string + error) :=
  (files w,
   if String.eqb url "https://example.com/plan" then inl exampleBody else inr "not found").

(** The strings that [url.Parse] takes for a relative reference whatever
    they hold: no control byte, no colon, no percent sign, and no two
    slashes at the start. *)
Definition plain (s : string) : bool :=
  negb (neturl.stringContainsCTLByte s)
  && negb (strings.ContainsByte s ":")
  && negb (strings.ContainsByte s "%")
  && negb (String.prefix "//" s).

(** What is left of a string trimmed on the left does not start with a
    space. *)
Definition noSpaceAhead (s : string) : Prop :=
  s = EmptyString ∨ List.find (λ e, String.prefix e s) strings.spaceRunes = None.

(** ASCII white space: a space, a tab, a line feed, a vertical tab, a form
    feed or a carriage return. *)
Definition asciiSpace (c : ascii) : bool :=
  Ascii.eqb c " " || utf8.between 9 13 c.

Fixpoint allSpace (s : string) : bool :=
  match s with
  | EmptyString => true
  | String c rest => asciiSpace c && allSpace rest
  end.

(** A rune of [spaceRunes] is one ASCII byte, or has no ASCII byte. *)
Fixpoint allHigh (s : string) : bool :=
  match s with
  | EmptyString => true
  | String c rest => negb (utf8.isASCII c) && allHigh rest
  end.

(** The bytes that end the first segment of a path. *)
Definition inFirstSegment (a : string) : bool :=
  negb (strings.ContainsByte a "/") && negb (strings.ContainsByte a "?")
  && negb (strings.ContainsByte a "#").

(** An environment for the examples of the commands: contents and
    messages are the plan itself, and the flags have the values given. *)
Definition exampleFlags (info : string) (noValidate : bool) : cli.FlagSet :=
  cli.mkFlagSet
    (λ name, if String.eqb name "title" then inl "Upgrade"
             else if String.eqb name "description" then inl "To v2"
             else if String.eqb name "deposit" then inl "10stake"
             else if String.eqb name "upgrade-info" then inl info
             else if String.eqb name "daemon-name" then inl "simd"
             else inr "flag accessed but not defined")
    (λ name, if String.eqb name "upgrade-height" then inl 100%Z
             else inr "flag accessed but not defined")
    (λ name, if String.eqb name "no-validate" then inl noValidate
             else inr "flag accessed but not defined").

Definition exampleRunE (ParseURL : string → option error)
    (fetch : string → World → gset string * (string + error))
    (cmd : cli.FlagSet) (args : list string) (s : cli.Session cli.Plan)
  : cli.Session cli.Plan * outcome (option error) :=
  cli.RunE cli.Plan unit unit string cli.Plan "title" "description" "deposit"
    (λ _ _ plan, plan) Some (λ _ _, inl ()) (λ _, ()) inl (λ content _ _, inl content)
    (λ _ _ _ _, None) ParseURL exampleError fetch exampleTempDir exampleMkdir exampleDownload
    exampleRemoveAll map_to_list map_to_list cmd args s.

(** ** The encoding of a [Permission] *)

(** The bytes of a varint: the groups of seven bits from the lowest on,
    each but the last with its high bit set. *)
Fixpoint varintBytes (passes : nat) (v : Z) : list ascii :=
  match passes with
  | S passes' =>
      if (128 <=? v)%Z
      then module.uint8 (Z.lor (Z.land v 127) 128) :: varintBytes passes' (Z.shiftr v 7)
      else [module.uint8 v]
  | O => [module.uint8 v]
  end.

(** The shifts [7 * k], [7 * (k + 1)], ... of a loop over a varint. *)
Fixpoint shiftsFrom (k : Z) (n : nat) : list Z :=
  match n with
  | O => []
  | S n' => (7 * k)%Z :: shiftsFrom (k + 1) n'
  end.

(** The bytes of one field of type string: the tag, the length, the
    text. *)
Definition fieldBytes (tag : ascii) (s : string) : list ascii :=
  (tag :: varintBytes 9 (module.strlen s) ++ list_ascii_of_string s)%list.

(** The encoding of a [Permission]: its address when that is not empty,
    then its permissions in their order. *)
Definition wire (m : module.Permission) : list ascii :=
  ((if String.eqb (module.Address m) EmptyString then []
    else fieldBytes "010" (module.Address m))
   ++ flat_map (fieldBytes "018") (module.Permissions m))%list.

(** The number of bytes of a field and of a message, as numbers without
    wrap-around. *)
Definition fieldSize (s : string) : Z :=
  (1 + module.strlen s + module.sovModule (module.strlen s))%Z.

Definition rawSize (m : module.Permission) : Z :=
  ((if String.eqb (module.Address m) EmptyString then 0 else fieldSize (module.Address m))
   + foldr (λ s n, fieldSize s + n) 0 (module.Permissions m))%Z.

(** What one field of the encoding does to the message it is decoded into:
    an address replaces the address, a permission joins the permissions. *)
Definition setField (m : module.Permission) (f : ascii * string) : module.Permission :=
  if Ascii.eqb f.1 "010"
  then module.mkPermission f.2 (module.Permissions m)
  else module.mkPermission (module.Address m) (module.Permissions m ++ [f.2])%list.

Definition fieldsOf (m : module.Permission) : list (ascii * string) :=
  ((if String.eqb (module.Address m) EmptyString then [] else [("010"%char, module.Address m)])
   ++ map (λ s, ("018"%char, s)) (module.Permissions m))%list.

(** What [proto.Merge] makes of two messages: the address of the second
    when it has one, and the permissions of both. *)
Definition merge (m0 m : module.Permission) : module.Permission :=
  module.mkPermission
    (if String.eqb (module.Address m) EmptyString then module.Address m0 else module.Address m)
    (module.Permissions m0 ++ module.Permissions m)%list.

(** A call does not panic, and the index it returns lies after [i] and
    not after the end of the buffer. *)
Definition advances {A} (dAtA : list ascii) (i : Z) (index : A → Z) (r : module.result A) : Prop :=
  match r with
  | Panicked _ => False
  | Returned (inl a) => (i < index a ≤ module.len dAtA)%Z
  | Returned (inr _) => True
  end.

(** A call does not panic, and the index it returns lies after [i]. *)
Definition moves {A} (i : Z) (index : A → Z) (r : module.result A) : Prop :=
  match r with
  | Panicked _ => False
  | Returned (inl a) => (i < index a < 2 ^ 63)%Z
  | Returned (inr _) => True
  end.

(** What follows the tag of a field of a given wire type: a varint, eight
    bytes, a length and as many bytes, or four bytes. *)
Definition payloadOf (wireType : Z) (payload : list ascii) : Prop :=
  (wireType = 0 ∧ ∃ v, 0 ≤ v < 2 ^ 64 ∧ payload = varintBytes 9 v)%Z
  ∨ (wireType = 1 ∧ module.len payload = 8)%Z
  ∨ (wireType = 2
     ∧ ∃ body, module.len body < 2 ^ 63
               ∧ payload = varintBytes 9 (module.len body) ++ body)%Z%list
  ∨ (wireType = 5 ∧ module.len payload = 4)%Z.

(** A field given by its number, its wire type and its payload: the tag
    as a varint, then the payload. *)
Definition unknownField (fieldNum wireType : Z) (payload : list ascii) : list ascii :=
  (varintBytes 9 (fieldNum * 8 + wireType) ++ payload)%list.

(** A run of bytes that one pass of the loop of [Permission.Unmarshal]
    consumes wherever it stands, with what the pass does to the message. *)
Definition consumed (bytes : list ascii) (effect : module.Permission → module.Permission) : Prop :=
  (0 < module.len bytes)%Z
  ∧ ∀ m pre post,
      (module.len (pre ++ bytes ++ post) < 2 ^ 63)%Z →
      module.unmarshalField m (pre ++ bytes ++ post)%list (module.len pre)
      = module.ok (effect m, (module.len pre + module.len bytes)%Z).

Definition examplePermission : module.Permission :=
  module.mkPermission "cosmos1abc" ["minter"; "burner"].

(** A field of type string under any field number. *)
Definition taggedBytes (fieldNum : Z) (s : string) : list ascii :=
  (varintBytes 9 (fieldNum * 8 + 2) ++ varintBytes 9 (module.strlen s)
   ++ list_ascii_of_string s)%list.

(** * Theorems *)

#[local] Arguments String.append !_ _ /.

(** ** Strings *)

Lemma append_assoc (a b c : string) : (a ++ b) ++ c = a ++ (b ++ c).
Proof. induction a as [|x a IH]; simpl; [done | by f_equal]. Qed.

Lemma append_nil_r (a : string) : a ++ EmptyString = a.
Proof. induction a as [|x a IH]; simpl; [done | by f_equal]. Qed.

Lemma rev_app_append (a acc : string) :
  String.rev_app a acc = String.rev a ++ acc.
Proof.
  unfold String.rev. revert acc. induction a as [|x a IH]; intros acc; simpl; [done|].
  rewrite (IH (String x acc)), (IH (String x EmptyString)).
  by rewrite append_assoc.
Qed.

Lemma rev_rev_app (a acc : string) :
  String.rev (String.rev_app a acc) = String.rev acc ++ a.
Proof.
  revert acc. induction a as [|x a IH]; intros acc; simpl.
  - by rewrite append_nil_r.
  - rewrite IH. unfold String.rev at 1. simpl.
    rewrite rev_app_append, append_assoc. done.
Qed.

(** ** The matcher and the language of a pattern *)

#[local] Hint Constructors matches : core.

Lemma append_eq_nil (a b : string) : a ++ b = EmptyString → a = EmptyString ∧ b = EmptyString.
Proof. destruct a; [done | discriminate]. Qed.

Lemma nullable_matches r : regexp.nullable r = true ↔ matches r EmptyString.
Proof.
  split.
  - induction r; simpl; try done; auto.
    + intros [H1 H2]%andb_true_iff. change EmptyString with (EmptyString ++ EmptyString). auto.
    + intros [H|H]%orb_true_iff; auto.
    + intros H. change EmptyString with (EmptyString ++ EmptyString). auto.
  - remember EmptyString as s eqn:Hs. intros H. revert Hs.
    induction H; intros Hs; simpl; try done.
    + apply append_eq_nil in Hs as [-> ->]. by rewrite IHmatches1, IHmatches2.
    + by rewrite IHmatches.
    + rewrite IHmatches by done. apply orb_true_r.
    + apply append_eq_nil in Hs as [-> ->]. auto.
Qed.

(** A non-empty match of a star starts with a non-empty match of its
    body. *)
Lemma matches_star_cons r c s :
  matches (regexp.Star r) (String c s) →
  ∃ s1 s2, s = s1 ++ s2 ∧ matches r (String c s1) ∧ matches (regexp.Star r) s2.
Proof.
  remember (regexp.Star r) as r' eqn:Hr. remember (String c s) as t eqn:Ht.
  intros H. revert Hr Ht.
  induction H as [| | | | | | |r0 s1 s2 H1 _ H2 IH2|]; intros Hr Ht; try done.
  injection Hr as ->. destruct s1 as [|c1 s1].
  - cbn [String.append] in Ht. by apply IH2.
  - cbn [String.append] in Ht. injection Ht as -> <-. by exists s1, s2.
Qed.

Lemma deriv_matches c r s : matches (regexp.deriv c r) s ↔ matches r (String c s).
Proof.
  revert s. induction r as [| |d|ranges|r1 IH1 r2 IH2|r1 IH1 r2 IH2|r IH|r IH]; intros s; simpl.
  - split; inversion 1.
  - split; inversion 1.
  - destruct (Ascii.eqb_spec c d) as [->|Hne].
    + split; [inversion 1; subst; constructor|inversion 1; constructor].
    + split; inversion 1; congruence.
  - destruct (regexp.inClass ranges c) eqn:Hc.
    + split; [inversion 1; subst; by constructor|inversion 1; constructor].
    + split; inversion 1; congruence.
  - assert (matches (regexp.Concat (regexp.deriv c r1) r2) s →
            matches (regexp.Concat r1 r2) (String c s)) as Hl.
    { inversion 1; subst. change (String c (s1 ++ s2)) with (String c s1 ++ s2).
      constructor; [by apply IH1 | done]. }
    assert (matches (regexp.Concat r1 r2) (String c s) →
            matches (regexp.Concat (regexp.deriv c r1) r2) s
            ∨ (matches r1 EmptyString ∧ matches r2 (String c s))) as Hr.
    { inversion 1 as [| | |? ? s1 s2 H1 H2 [E1 E2] E3| | | | |]; subst.
      destruct s1 as [|c1 s1]; simpl in E3.
      - right. by subst.
      - injection E3 as -> <-. left. constructor; [by apply IH1 | done]. }
    destruct (regexp.nullable r1) eqn:Hn.
    + split.
      * inversion 1; subst; [by apply Hl|].
        change (String c s) with (EmptyString ++ String c s).
        constructor; [by apply nullable_matches | by apply IH2].
      * intros [H|[_ H]]%Hr; [by apply matches_alternate_l|].
        apply matches_alternate_r. by apply IH2.
    + split; [done|]. intros [H|[H _]]%Hr; [done|].
      apply nullable_matches in H. congruence.
  - split.
    + inversion 1; subst; [apply matches_alternate_l; by apply IH1
                          | apply matches_alternate_r; by apply IH2].
    + inversion 1; subst; [apply matches_alternate_l; by apply IH1
                          | apply matches_alternate_r; by apply IH2].
  - split.
    + inversion 1; subst. change (String c (s1 ++ s2)) with (String c s1 ++ s2).
      constructor; [by apply IH | done].
    + intros (s1 & s2 & -> & H1 & H2)%matches_star_cons.
      constructor; [by apply IH | done].
  - split.
    + inversion 1; subst. change (String c (s1 ++ s2)) with (String c s1 ++ s2).
      constructor; [by apply IH | done].
    + inversion 1 as [| | | | | | | |? s1 s2 H1 H2 E1 E2]; subst.
      destruct s1 as [|c1 s1]; simpl in E2.
      * subst. apply matches_star_cons in H2 as (t1 & t2 & -> & Ht1 & Ht2).
        constructor; [by apply IH | done].
      * injection E2 as -> <-. constructor; [by apply IH | done].
Qed.

(** The matcher decides membership in the language of the pattern. *)
Lemma fullMatch_matches r s : regexp.fullMatch r s = true ↔ matches r s.
Proof.
  revert r. induction s as [|c s IH]; intros r; simpl.
  - apply nullable_matches.
  - rewrite IH. apply deriv_matches.
Qed.

Lemma prefixMatch_matches r s :
  regexp.prefixMatch r s = true ↔ ∃ mid post, s = mid ++ post ∧ matches r mid.
Proof.
  revert r. induction s as [|c s IH]; intros r; cbn [regexp.prefixMatch];
    rewrite orb_true_iff, nullable_matches.
  - split.
    + intros [H|H]; [|done]. by exists EmptyString, EmptyString.
    + intros (mid & post & [-> ->]%eq_sym%append_eq_nil & H). by left.
  - rewrite IH. split.
    + intros [H|(mid & post & -> & H)].
      * by exists EmptyString, (String c s).
      * exists (String c mid), post. split; [done | by apply deriv_matches].
    + intros (mid & post & Hs & H). destruct mid as [|c1 mid]; [by left|].
      simpl in Hs. injection Hs as <- ->. right. exists mid, post.
      split; [done | by apply deriv_matches].
Qed.

(** [MatchString] holds when some part of the string is in the language
    of the pattern. *)
Lemma MatchString_matches re s :
  regexp.MatchString re s = true ↔ ∃ pre mid post, s = pre ++ mid ++ post ∧ matches re mid.
Proof.
  induction s as [|c s IH]; cbn [regexp.MatchString]; rewrite orb_true_iff, prefixMatch_matches.
  - split.
    + intros [(mid & post & -> & H)|H]; [|done]. by exists EmptyString, mid, post.
    + intros (pre & mid & post & Hs & H). left.
      symmetry in Hs. apply append_eq_nil in Hs as [-> Hs]. by exists mid, post.
  - rewrite IH. split.
    + intros [(mid & post & -> & H)|(pre & mid & post & -> & H)].
      * by exists EmptyString, mid, post.
      * by exists (String c pre), mid, post.
    + intros (pre & mid & post & Hs & H). destruct pre as [|c1 pre].
      * left. by exists mid, post.
      * simpl in Hs. injection Hs as <- ->. right. by exists pre, mid, post.
Qed.

(** Whatever matches a pattern as a whole is found by [MatchString]. *)
Lemma fullMatch_MatchString re s : regexp.fullMatch re s = true → regexp.MatchString re s = true.
Proof.
  rewrite fullMatch_matches, MatchString_matches. intros H.
  exists EmptyString, s, EmptyString. by rewrite append_nil_r.
Qed.

(** ** The key pattern *)

Lemma matches_alnum s : matches planinfo.alnum s ↔ ∃ c, s = String c EmptyString ∧ alnumByte c = true.
Proof.
  split.
  - inversion 1; subst. by eexists.
  - intros (c & -> & Hc). by constructor.
Qed.

Lemma matches_star_alnum s : matches (regexp.Star planinfo.alnum) s ↔ allAlnum s = true.
Proof.
  split.
  - remember (regexp.Star planinfo.alnum) as r eqn:Hr. intros H. revert Hr.
    induction H as [| | | | | | |r0 s1 s2 H1 _ H2 IH2|]; intros Hr; try done.
    injection Hr as ->. apply matches_alnum in H1 as (c & -> & Hc).
    simpl. by rewrite Hc, IH2.
  - induction s as [|c s IH]; simpl; [constructor|].
    intros [Hc Hs]%andb_true_iff.
    change (String c s) with (String c EmptyString ++ s).
    constructor; [by apply matches_alnum; eexists | by apply IH].
Qed.

Lemma matches_plus_alnum s :
  matches (regexp.Plus planinfo.alnum) s ↔ s ≠ EmptyString ∧ allAlnum s = true.
Proof.
  split.
  - inversion 1 as [| | | | | | | |? s1 s2 H1 H2]; subst.
    apply matches_alnum in H1 as (c & -> & Hc). apply matches_star_alnum in H2.
    split; [done|]. simpl. by rewrite Hc, H2.
  - intros [Hne Hs]. destruct s as [|c s]; [done|].
    simpl in Hs. apply andb_true_iff in Hs as [Hc Hs].
    change (String c s) with (String c EmptyString ++ s).
    constructor; [by apply matches_alnum; eexists | by apply matches_star_alnum].
Qed.

(** The keys that the pattern matches as a whole. *)
Lemma fullMatch_osArchRx key :
  regexp.fullMatch planinfo.osArchRx key = true ↔
  ∃ os arch, key = os ++ "/" ++ arch
             ∧ os ≠ EmptyString ∧ arch ≠ EmptyString
             ∧ allAlnum os = true ∧ allAlnum arch = true.
Proof.
  rewrite fullMatch_matches. unfold planinfo.osArchRx. split.
  - inversion 1 as [| | |? ? os rest Hos Hrest| | | | |]; subst.
    inversion Hrest as [| | |? ? slash arch Hslash Harch| | | | |]; subst.
    inversion Hslash; subst.
    apply matches_plus_alnum in Hos as [? ?], Harch as [? ?].
    by exists os, arch.
  - intros (os & arch & -> & ? & ? & ? & ?).
    constructor; [by apply matches_plus_alnum|].
    change ("/" ++ arch) with (String "/" EmptyString ++ arch).
    constructor; [constructor | by apply matches_plus_alnum].
Qed.

(** X1: the keys that the key check of [ValidateBasic] lets through are
    those with a slash between two bytes of the class, anywhere. *)
Lemma MatchString_osArchRx key :
  regexp.MatchString planinfo.osArchRx key = true ↔
  ∃ pre x y post, key = pre ++ String x (String "/" (String y post))
                  ∧ alnumByte x = true ∧ alnumByte y = true.
Proof.
  rewrite MatchString_matches. split.
  - intros (pre & mid & post & -> & Hm). apply fullMatch_matches in Hm.
    apply fullMatch_osArchRx in Hm as (os & arch & -> & Hos & Harch & Hao & Haa).
    assert (∃ os' x, os = os' ++ String x EmptyString ∧ alnumByte x = true)
      as (os' & x & -> & Hx).
    { clear -Hos Hao. induction os as [|c os IH]; [done|].
      simpl in Hao. apply andb_true_iff in Hao as [Hc Hao].
      destruct os as [|c' os'].
      - by exists EmptyString, c.
      - destruct IH as (os'' & x & -> & Hx); [done | done|].
        by exists (String c os''), x. }
    destruct arch as [|y arch]; [done|].
    simpl in Haa. apply andb_true_iff in Haa as [Hy _].
    exists (pre ++ os'), x, y, (arch ++ post). split; [|done].
    rewrite ?append_assoc. cbn [String.append]. by rewrite ?append_assoc.
  - intros (pre & x & y & post & -> & Hx & Hy).
    exists pre, (String x (String "/" (String y EmptyString))), post. split; [done|].
    apply fullMatch_matches, fullMatch_osArchRx.
    exists (String x EmptyString), (String y EmptyString). simpl.
    by rewrite Hx, Hy.
Qed.

Lemma ReplaceAll_cons c s :
  strings.ReplaceAll (String c s) "/" "-" =
  String (if Ascii.eqb c "/" then "-"%char else c) (strings.ReplaceAll s "/" "-").
Proof.
  unfold strings.ReplaceAll. cbn [strings.replaceFrom String.prefix].
  destruct (Ascii.eqb_spec c "/") as [->|Hne].
  - simpl. by destruct s.
  - destruct (ascii_dec "/" c) as [<-|_]; [done|]. done.
Qed.

Lemma alnumByte_plain c : alnumByte c = true → Ascii.eqb c "/" = false ∧ Ascii.eqb c "-" = false.
Proof.
  intros Hc. split; apply Ascii.eqb_neq; intros ->; by vm_compute in Hc.
Qed.

Lemma ReplaceAll_alnum s :
  allAlnum s = true → strings.ReplaceAll s "/" "-" = s ∧ hasByte "-" s = false.
Proof.
  induction s as [|c s IH]; [done|]. simpl.
  intros [Hc Hs]%andb_true_iff. destruct (alnumByte_plain _ Hc) as [H1 H2].
  destruct (IH Hs) as [IH1 IH2]. rewrite ReplaceAll_cons, H1, IH1. simpl. by rewrite H2, IH2.
Qed.

Lemma ReplaceAll_app a b :
  strings.ReplaceAll (a ++ b) "/" "-" = strings.ReplaceAll a "/" "-" ++ strings.ReplaceAll b "/" "-".
Proof.
  induction a as [|c a IH]; [done|]. cbn [String.append].
  rewrite !ReplaceAll_cons. cbn [String.append]. by rewrite IH.
Qed.

Lemma split_at_first c a b a' b' :
  hasByte c a = false → hasByte c a' = false →
  a ++ String c b = a' ++ String c b' → a = a' ∧ b = b'.
Proof.
  revert a'. induction a as [|x a IH]; intros [|x' a']; simpl.
  - by intros _ _ [= ->].
  - intros _ [Hx _]%orb_false_iff [= <- _]. by rewrite Ascii.eqb_refl in Hx.
  - intros [Hx _]%orb_false_iff _ [= -> _]. by rewrite Ascii.eqb_refl in Hx.
  - intros [_ Ha]%orb_false_iff [_ Ha']%orb_false_iff [= -> H].
    destruct (IH _ Ha Ha' H) as [-> ->]. done.
Qed.

Lemma hasByte_app c a b : hasByte c (a ++ b) = hasByte c a || hasByte c b.
Proof. induction a as [|x a IH]; [done|]. simpl. by rewrite IH, orb_assoc. Qed.

(** X3: on the keys that are [any] or [os/arch] as a whole, replacing the
    slash by a dash loses nothing: two such keys with the same destination
    name are the same key. *)
Lemma ReplaceAll_osArchKey_inj k1 k2 :
  osArchKey k1 → osArchKey k2 →
  strings.ReplaceAll k1 "/" "-" = strings.ReplaceAll k2 "/" "-" → k1 = k2.
Proof.
  assert (∀ os arch, allAlnum os = true → allAlnum arch = true →
            strings.ReplaceAll (os ++ "/" ++ arch) "/" "-" = os ++ String "-" arch) as Hrep.
  { intros os arch Hos Harch. rewrite ReplaceAll_app. cbn [String.append].
    rewrite ReplaceAll_cons. simpl.
    by rewrite (proj1 (ReplaceAll_alnum _ Hos)), (proj1 (ReplaceAll_alnum _ Harch)). }
  assert (∀ os arch, allAlnum os = true → "any" ≠ os ++ String "-" arch) as Hany.
  { intros os arch Hos Heq.
    apply (f_equal (hasByte "-")) in Heq. rewrite hasByte_app in Heq. simpl in Heq.
    by rewrite orb_true_r in Heq. }
  intros [->|H1] [->|H2]; try done.
  - apply fullMatch_osArchRx in H2 as (os & arch & -> & _ & _ & Hos & Harch).
    rewrite Hrep by done. intros Heq. by apply Hany in Heq.
  - apply fullMatch_osArchRx in H1 as (os & arch & -> & _ & _ & Hos & Harch).
    rewrite Hrep by done. intros Heq. symmetry in Heq. by apply Hany in Heq.
  - apply fullMatch_osArchRx in H1 as (os1 & arch1 & -> & _ & _ & Hos1 & Harch1).
    apply fullMatch_osArchRx in H2 as (os2 & arch2 & -> & _ & _ & Hos2 & Harch2).
    rewrite !Hrep by done. intros Heq.
    apply split_at_first in Heq as [-> ->]; [done | |];
      by apply ReplaceAll_alnum.
Qed.

(** ** The basic validator *)

Section BasicValidatorFacts.

Variable neturl_Parse : string → option error.

Lemma rangeOf_empty (m : BinaryDownloadURLMap) order :
  size m = 0 → rangeOf m order → order = [].
Proof.
  intros Hsz Hr. apply map_size_empty_iff in Hsz. subst m.
  unfold rangeOf in Hr. rewrite map_to_list_empty in Hr.
  by apply Permutation_nil_r.
Qed.

Lemma rangeOf_lookup (m : BinaryDownloadURLMap) order k v :
  rangeOf m order → (k, v) ∈ order ↔ m !! k = Some v.
Proof.
  intros Hr. unfold rangeOf in Hr. rewrite Hr. apply elem_of_map_to_list.
Qed.

Lemma ValidateBasic_range_None order :
  planinfo.ValidateBasic_range neturl_Parse order = None ↔
  Forall (λ kv, planinfo.ValidateBasic_entry neturl_Parse kv.1 kv.2 = None) order.
Proof.
  induction order as [|[k v] rest IH]; simpl.
  - split; [constructor | done].
  - destruct (planinfo.ValidateBasic_entry neturl_Parse k v) eqn:E.
    + split; [done | intros H; inversion H; simpl in *; congruence].
    + rewrite IH. split; [by constructor | by inversion 1].
Qed.



End BasicValidatorFacts.

Section BasicValidatorMore.

Variable neturl_Parse : string → option error.

Local Abbreviation ValidateBasic := (planinfo.ValidateBasic neturl_Parse).
Local Abbreviation ValidateBasic_entry := (planinfo.ValidateBasic_entry neturl_Parse).

Lemma ValidateBasic_entry_None key val :
  ValidateBasic_entry key val = None ↔
  (key = "any" ∨ regexp.MatchString planinfo.osArchRx key = true) ∧ neturl_Parse val = None.
Proof.
  unfold planinfo.ValidateBasic_entry.
  destruct (String.eqb_spec key "any") as [->|Hne]; simpl.
  - destruct (neturl_Parse val); split; try done; [by intros [_ ?] | by split; [left|]].
  - destruct (regexp.MatchString planinfo.osArchRx key); simpl.
    + destruct (neturl_Parse val); split; try done; [by intros [_ ?] | by split; [right|]].
    + split; [done|]. by intros [[?|?] _].
Qed.

(** X2: a key that is [any] or that is [os/arch] as a whole passes the key
    check: with a value that is a URL, its entry is accepted. *)
Lemma osArchKey_accepted key val :
  osArchKey key → neturl_Parse val = None → ValidateBasic_entry key val = None.
Proof.
  intros Hkey Hval. apply ValidateBasic_entry_None. split; [|done].
  destruct Hkey as [->|H]; [by left | right; by apply fullMatch_MatchString].
Qed.

(** X4: [ValidateBasic] accepts a map exactly when it has an entry, every key
    is [any] or has a match of the pattern in it, and every value is a
    URL; the order of the visit does not matter. *)
Lemma ValidateBasic_accepts_iff (m : BinaryDownloadURLMap) order :
  rangeOf m order →
  ValidateBasic m order = None ↔
  size m ≠ 0
  ∧ ∀ key val, m !! key = Some val →
      (key = "any" ∨ regexp.MatchString planinfo.osArchRx key = true)
      ∧ neturl_Parse val = None.
Proof.
  intros Hr. unfold planinfo.ValidateBasic.
  destruct (decide (size m = 0)) as [Hsz|Hsz]; [by split; [|intros [? _]]|].
  rewrite ValidateBasic_range_None, Forall_forall. split.
  - intros Hall. split; [done|]. intros key val Hkv.
    apply ValidateBasic_entry_None. apply (Hall (key, val)).
    by apply (rangeOf_lookup m order).
  - intros [_ Hall] [key val] Hin. apply ValidateBasic_entry_None, Hall.
    by apply (rangeOf_lookup m order).
Qed.

End BasicValidatorMore.

Section BasicValidatorClaims.

Variable neturl_Parse : string → option error.

Local Abbreviation ValidateBasic := (planinfo.ValidateBasic neturl_Parse).
Local Abbreviation ValidateBasic_entry := (planinfo.ValidateBasic_entry neturl_Parse).
Local Abbreviation ValidateBasic_range := (planinfo.ValidateBasic_range neturl_Parse).

Lemma ValidateBasic_no_entries (m : BinaryDownloadURLMap) (order : list (string * string)) :
  size m = 0 → ValidateBasic m order = Some errNoBinaries.
Proof. intros Hsz. unfold planinfo.ValidateBasic. by rewrite decide_True. Qed.

(** C7 (amended): for every PlanInfo whose binaries map has zero entries,
    [ValidateBasic] returns the error whose message is exactly
    [no "binaries" entries found], with the word binaries in double quotes,
    whatever the keys, the values and the URL parser would say: it is
    returned before any key or value is examined. *)
Theorem ValidateBasic_empty (p : PlanInfo) (order : list (string * string)) :
  size (entries (Binaries p)) = 0 →
  ValidateBasic (entries (Binaries p)) order = Some errNoBinaries.
Proof. apply ValidateBasic_no_entries. Qed.


End BasicValidatorClaims.

(** The witness of C7 (amended): the [nil] map of a zero [PlanInfo]. *)
Lemma ValidateBasic_empty_witness :
  planinfo.ValidateBasic acceptAll (entries (Binaries (mkPlanInfo None))) [] = Some errNoBinaries.
Proof. apply (ValidateBasic_empty acceptAll (mkPlanInfo None) []). reflexivity. Defined.

(** C7 (counterexample): the message of the error is not the text
    [no binaries entries found]. *)
Lemma ValidateBasic_empty_message :
  planinfo.ValidateBasic acceptAll (entries (Binaries (mkPlanInfo (Some ∅)))) []
  = Some ("no " ++ DQ ++ "binaries" ++ DQ ++ " entries found")
  ∧ "no " ++ DQ ++ "binaries" ++ DQ ++ " entries found" ≠ "no binaries entries found".
Proof. split; [reflexivity | discriminate]. Qed.




(** C1 (the code at the failing input): the key [linux/amd64/extra] is not
    [any] and does not match the pattern as a whole, and [ValidateBasic]
    accepts a map that has it. *)
Lemma ValidateBasic_accepts_unanchored_key :
  String.eqb "linux/amd64/extra" "any" = false
  ∧ regexp.fullMatch planinfo.osArchRx "linux/amd64/extra" = false
  ∧ planinfo.ValidateBasic acceptAll {[ "linux/amd64/extra" := "https://x" ]}
      [("linux/amd64/extra", "https://x")] = None.
Proof.
  split_and!; [reflexivity | reflexivity |].
  unfold planinfo.ValidateBasic. rewrite decide_False; [reflexivity|].
  by rewrite map_size_singleton.
Qed.

(** C5 (the code at the failing input): the keys [a/b/c] and [a/b-c] are
    distinct, both pass the key check of [ValidateBasic], and both get the
    same destination in the scratch directory. *)
Lemma dstRootOf_collision :
  planinfo.ValidateBasic_entry acceptAll "a/b/c" "u" = None
  ∧ planinfo.ValidateBasic_entry acceptAll "a/b-c" "u" = None
  ∧ planinfo.dstRootOf "/tmp/os-arch-downloads123" "a/b/c" = "/tmp/os-arch-downloads123/a-b-c"
  ∧ planinfo.dstRootOf "/tmp/os-arch-downloads123" "a/b-c" = "/tmp/os-arch-downloads123/a-b-c".
Proof. split_and!; vm_compute; reflexivity. Qed.

(** X2 at the key [linux/amd64]. *)
Lemma osArchKey_accepted_witness :
  osArchKey "linux/amd64"
  ∧ planinfo.ValidateBasic_entry acceptAll "linux/amd64" "https://x" = None.
Proof.
  assert (osArchKey "linux/amd64") as H by (right; reflexivity).
  split; [exact H|]. apply (osArchKey_accepted acceptAll "linux/amd64" "https://x" H).
  reflexivity.
Defined.

(** X3 at the key [linux/amd64], whose destination name is [linux-amd64]. *)
Lemma ReplaceAll_osArchKey_inj_witness :
  strings.ReplaceAll "linux/amd64" "/" "-" = "linux-amd64" ∧ "linux/amd64" = "linux/amd64".
Proof.
  split; [reflexivity|].
  apply (ReplaceAll_osArchKey_inj "linux/amd64" "linux/amd64");
    [right; reflexivity | right; reflexivity | reflexivity].
Defined.

(** X4 at the map with the one key [any]. *)
Lemma ValidateBasic_accepts_iff_witness :
  planinfo.ValidateBasic acceptAll {[ "any" := "https://x" ]} [("any", "https://x")] = None.
Proof.
  apply (ValidateBasic_accepts_iff acceptAll {[ "any" := "https://x" ]} [("any", "https://x")]).
  - unfold rangeOf. by rewrite map_to_list_singleton.
  - split; [by rewrite map_size_singleton|].
    intros key val [<- <-]%lookup_singleton_Some. split; [by left | reflexivity].
Defined.

(** ** The artifact checker and the orchestrator *)

Section ArtifactCheckerFacts.

Variable neturl_Parse : string → option error.
Variable TempDir_env : World → string.
Variable Mkdir_env : World → string + error.
Variable DownloadUpgrade_env :
  string → string → string → World → gset string * outcome (option error).
Variable RemoveAll_env : string → World → option (gset string * error).

Local Abbreviation DownloadUpgrade := (planinfo.DownloadUpgrade DownloadUpgrade_env).
Local Abbreviation CheckURLs_range := (planinfo.CheckURLs_range DownloadUpgrade_env).
Local Abbreviation CheckURLs :=
  (planinfo.CheckURLs TempDir_env Mkdir_env DownloadUpgrade_env RemoveAll_env).
Local Abbreviation MkdirTemp := (os.MkdirTemp TempDir_env Mkdir_env).

Lemma DownloadUpgrade_log dstRoot url daemonName w w' res :
  DownloadUpgrade dstRoot url daemonName w = (w', res) →
  log w' = (log w ++ [EvDownloadUpgrade dstRoot url daemonName res])%list.
Proof.
  unfold planinfo.DownloadUpgrade.
  destruct (DownloadUpgrade_env dstRoot url daemonName w) as [fs r].
  by intros [= <- <-].
Qed.



(** A run of the loop that does not end in success stops at one entry: the
    entries before it were fetched, its own call failed, and the log ends
    with that call. *)
Lemma CheckURLs_range_failure tempDir daemonName order w w' res :
  CheckURLs_range tempDir daemonName order w = (w', res) →
  res ≠ Returned None →
  ∃ before osArch url after out,
    order = (before ++ (osArch, url) :: after)%list
    ∧ out ≠ Returned None
    ∧ log w' = (log w ++ map (fetched tempDir daemonName) before
                  ++ [EvDownloadUpgrade (planinfo.dstRootOf tempDir osArch) url daemonName out])%list
    ∧ res = match out with
            | Returned (Some cause) =>
                Returned (Some ("error downloading binary for os/arch " ++ osArch ++ ": " ++ cause))
            | other => other
            end.
Proof.
  revert w. induction order as [|[k u] rest IH]; intros w; simpl.
  - intros [= <- <-]. done.
  - destruct (DownloadUpgrade _ _ _ w) as [w1 out] eqn:E.
    pose proof (DownloadUpgrade_log _ _ _ _ _ _ E) as Hlog.
    destruct out as [[cause|]|v].
    + intros [= <- <-] _. exists [], k, u, rest, (Returned (Some cause)). by simpl.
    + intros H Hne. destruct (IH _ H Hne) as (before & k' & u' & after & out & -> & Hout & Hl & ->).
      exists ((k, u) :: before), k', u', after, out. split_and!; try done.
      rewrite Hl, Hlog. simpl. by rewrite <- !app_assoc.
    + intros [= <- <-] _. exists [], k, u, rest, (Panicked v). by simpl.
Qed.

Lemma MkdirTemp_scratch w w1 tempDir :
  MkdirTemp EmptyString "os-arch-downloads" w = (w1, inl tempDir) →
  tempDir ≠ EmptyString ∧ log w1 = (log w ++ [EvMkdirTemp (inl tempDir)])%list.
Proof.
  unfold os.MkdirTemp. simpl.
  destruct (Mkdir_env w) as [rnd|err]; [|done].
  intros [= <- <-]. split; [|done].
  unfold os.joinPath. destruct (String.rev (TempDir_env w)) as [|[[] [] [] [] [] [] [] []] ?];
    destruct (TempDir_env w); simpl; done.
Qed.

Lemma RemoveAll_log dir w :
  log (os.RemoveAll RemoveAll_env dir w).1 = (log w ++ [EvRemoveAll dir])%list.
Proof.
  unfold os.RemoveAll. destruct (String.eqb dir EmptyString); [done|].
  destruct (os.endsWithDot dir); [done|]. by destruct (RemoveAll_env dir w) as [[kept err]|].
Qed.





End ArtifactCheckerFacts.

Section ArtifactCheckerClaims.

Variable neturl_Parse : string → option error.
Variable TempDir_env : World → string.
Variable Mkdir_env : World → string + error.
Variable DownloadUpgrade_env :
  string → string → string → World → gset string * outcome (option error).
Variable RemoveAll_env : string → World → option (gset string * error).

Local Abbreviation DownloadUpgrade := (planinfo.DownloadUpgrade DownloadUpgrade_env).
Local Abbreviation CheckURLs_range := (planinfo.CheckURLs_range DownloadUpgrade_env).
Local Abbreviation CheckURLs :=
  (planinfo.CheckURLs TempDir_env Mkdir_env DownloadUpgrade_env RemoveAll_env).
Local Abbreviation MkdirTemp := (os.MkdirTemp TempDir_env Mkdir_env).
Local Abbreviation ValidateBasic := (planinfo.ValidateBasic neturl_Parse).
Local Abbreviation ValidateFull :=
  (planinfo.ValidateFull neturl_Parse TempDir_env Mkdir_env DownloadUpgrade_env
     RemoveAll_env).

(** C2: [ValidateFull] runs [ValidateBasic] first.  When that returns an
    error, [ValidateFull] returns the same error and leaves the world as it
    was: nothing was logged, so neither [CheckURLs] nor any call it makes
    took place.  When it succeeds, [ValidateFull] returns what [CheckURLs]
    returns.  In particular a plan with no entry fails with the error of
    the empty table, in an unchanged world. *)
Theorem ValidateFull_gates (m : PlanInfo) orderBasic orderURLs daemonName w :
  (∀ err, ValidateBasic (entries (Binaries m)) orderBasic = Some err →
     ValidateFull m orderBasic orderURLs daemonName w = (w, Returned (Some err)))
  ∧ (ValidateBasic (entries (Binaries m)) orderBasic = None →
     ValidateFull m orderBasic orderURLs daemonName w = CheckURLs orderURLs daemonName w)
  ∧ (size (entries (Binaries m)) = 0 →
     ValidateFull m orderBasic orderURLs daemonName w = (w, Returned (Some errNoBinaries))).
Proof.
  unfold planinfo.ValidateFull. split_and!.
  - by intros err ->.
  - intros ->. by destruct (CheckURLs _ _ _) as [w' [[err|]|v]].
  - intros Hsz. by rewrite (ValidateBasic_no_entries neturl_Parse _ orderBasic Hsz).
Qed.



(** C10: for a map with no entry, [CheckURLs] makes no download at all,
    and when its scratch directory can be created it returns [nil] after it
    has removed the directory again; only [ValidateBasic] refuses such a
    map. *)
Theorem CheckURLs_empty (m : BinaryDownloadURLMap) order daemonName w :
  size m = 0 → rangeOf m order →
  (∀ w1 tempDir, MkdirTemp EmptyString "os-arch-downloads" w = (w1, inl tempDir) →
     CheckURLs order daemonName w = ((os.RemoveAll RemoveAll_env tempDir w1).1, Returned None)
     ∧ log ((os.RemoveAll RemoveAll_env tempDir w1).1) =
       (log w ++ [EvMkdirTemp (inl tempDir); EvRemoveAll tempDir])%list)
  ∧ (∀ w' res, CheckURLs order daemonName w = (w', res) →
     ∀ dstRoot url name out, EvDownloadUpgrade dstRoot url name out ∉ drop (length (log w)) (log w'))
  ∧ ValidateBasic m order = Some errNoBinaries.
Proof.
  intros Hsz Hr. rewrite (rangeOf_empty _ _ Hsz Hr). split_and!.
  - intros w1 tempDir Hmk. unfold planinfo.CheckURLs. rewrite Hmk. simpl.
    split; [done|]. rewrite RemoveAll_log.
    destruct (MkdirTemp_scratch _ _ _ _ _ Hmk) as [_ ->]. by rewrite <- app_assoc.
  - intros w' res. unfold planinfo.CheckURLs.
    destruct (MkdirTemp EmptyString "os-arch-downloads" w) as [w1 [tempDir|err]] eqn:Hmk.
    + simpl. intros [= <- <-]. rewrite RemoveAll_log.
      destruct (MkdirTemp_scratch _ _ _ _ _ Hmk) as [_ ->].
      rewrite <- app_assoc, drop_app_length. set_solver.
    + intros [= <- <-]. revert Hmk. unfold os.MkdirTemp. simpl.
      destruct (Mkdir_env w); intros [= <- <-]; simpl.
      rewrite drop_app_length. set_solver.
  - by apply ValidateBasic_no_entries.
Qed.

End ArtifactCheckerClaims.




(** The witness of C10: the empty map in the empty world. *)
Lemma CheckURLs_empty_witness :
  planinfo.CheckURLs exampleTempDir exampleMkdir exampleDownload exampleRemoveAll [] "myd"
    emptyWorld =
  ((os.RemoveAll exampleRemoveAll exampleScratch
      (mkWorld {[ exampleScratch ]} [EvMkdirTemp (inl exampleScratch)])).1,
   Returned None).
Proof.
  refine (proj1 (proj1 (CheckURLs_empty acceptAll exampleTempDir exampleMkdir exampleDownload
                          exampleRemoveAll ∅ [] "myd" emptyWorld _ _) _ exampleScratch _)).
  - reflexivity.
  - unfold rangeOf. by rewrite map_to_list_empty.
  - vm_compute. reflexivity.
Defined.

(** ** Well-formed UTF-8 and the encoder *)

Lemma between_spec lo hi b :
  utf8.between lo hi b = true ↔ (lo <= nat_of_ascii b <= hi)%nat.
Proof.
  unfold utf8.between. rewrite andb_true_iff, !Nat.leb_le. done.
Qed.

Lemma accept_inv b0 n lo hi :
  utf8.accept b0 = Some (n, lo, hi) →
  high b0 ∧ (128 <= lo)%nat ∧ (n = 2 ∨ n = 3 ∨ n = 4).
Proof.
  unfold utf8.accept, high.
  repeat match goal with
         | |- context [utf8.between ?l ?h b0] =>
             destruct (utf8.between l h b0) eqn:?
         | |- context [(nat_of_ascii b0 =? ?k)%nat] =>
             destruct (Nat.eqb_spec (nat_of_ascii b0) k)
         end;
    intros [= <- <- <-];
    repeat match goal with H : utf8.between _ _ _ = true |- _ => apply between_spec in H end;
    lia.
Qed.

Lemma multiByte_inv s n :
  utf8.multiByte s = Some n →
  ∃ r rest, s = r ++ rest ∧ rune r ∧ String.length r = n.
Proof.
  destruct s as [|b0 [|b1 rest]]; simpl; try done.
  destruct (utf8.accept b0) as [[[k lo] hi]|] eqn:Ha; [|done].
  destruct (accept_inv _ _ _ _ Ha) as (_ & _ & Hk).
  destruct Hk as [-> | [-> | ->]].
  - destruct (utf8.between lo hi b1) eqn:Hb; intros [= <-].
    exists (String b0 (String b1 EmptyString)), rest. split_and!; [done | by econstructor | done].
  - destruct rest as [|b2 rest]; [done|].
    destruct (utf8.between lo hi b1) eqn:Hb; simpl; [|done].
    destruct (utf8.cont b2) eqn:Hc; intros [= <-].
    exists (String b0 (String b1 (String b2 EmptyString))), rest.
    split_and!; [done | by econstructor | done].
  - destruct rest as [|b2 [|b3 rest]]; try done.
    destruct (utf8.between lo hi b1) eqn:Hb; simpl; [|done].
    destruct (utf8.cont b2) eqn:Hc; simpl; [|done].
    destruct (utf8.cont b3) eqn:Hd; intros [= <-].
    exists (String b0 (String b1 (String b2 (String b3 EmptyString)))), rest.
    split_and!; [done | by econstructor | done].
Qed.

Lemma rune_multiByte r rest :
  rune r → utf8.multiByte (r ++ rest) = Some (String.length r).
Proof.
  destruct 1 as [b0 b1 lo hi Ha Hb | b0 b1 b2 lo hi Ha Hb Hc | b0 b1 b2 b3 lo hi Ha Hb Hc Hd];
    simpl; rewrite Ha, Hb; simpl; rewrite ?Hc, ?Hd; done.
Qed.

Lemma cont_high b : utf8.cont b = true → high b.
Proof. unfold utf8.cont. rewrite between_spec. unfold high. lia. Qed.

Lemma rune_high r : rune r → ∀ n b, String.get n r = Some b → high b.
Proof.
  destruct 1 as [b0 b1 lo hi Ha Hb | b0 b1 b2 lo hi Ha Hb Hc | b0 b1 b2 b3 lo hi Ha Hb Hc Hd];
    destruct (accept_inv _ _ _ _ Ha) as (H0 & Hlo & _);
    apply between_spec in Hb;
    intros n b; repeat (destruct n as [|n]; simpl; [intros [= <-] | ]); try done;
    try (by apply cont_high); unfold high; lia.
Qed.

Lemma high_not_ASCII b : high b → utf8.isASCII b = false.
Proof. unfold high, utf8.isASCII. intros. apply Nat.ltb_ge. lia. Qed.

Lemma rune_first r : rune r → ∃ b0 r', r = String b0 r' ∧ high b0.
Proof.
  intros Hr. pose proof (rune_high _ Hr 0) as Hh.
  destruct Hr; eexists _, _; (split; [reflexivity | by apply Hh]).
Qed.

Lemma eqb_code (b : ascii) (c : ascii) :
  nat_of_ascii b ≠ nat_of_ascii c → Ascii.eqb b c = false.
Proof. intros H. apply Ascii.eqb_neq. congruence. Qed.

Lemma lineSeparator_rune r s : rune r → json.lineSeparator (r ++ s) = json.lineSeparator r.
Proof.
  destruct 1 as [b0 b1 lo hi Ha Hb | b0 b1 b2 lo hi Ha Hb Hc | b0 b1 b2 b3 lo hi Ha Hb Hc Hd];
    simpl; try done.
  destruct s as [|b2 s]; [done|]. simpl.
  assert (Ascii.eqb b0 "226" = false) as ->; [|done].
  apply eqb_code. revert Ha. unfold utf8.accept.
  destruct (utf8.between 194 223 b0) eqn:Hr.
  - apply between_spec in Hr. intros _.
    change (nat_of_ascii "226") with 226. lia.
  - repeat match goal with
           | |- context [utf8.between ?l ?h b0] => destruct (utf8.between l h b0)
           | |- context [(nat_of_ascii b0 =? ?k)%nat] => destruct (nat_of_ascii b0 =? k)%nat
           end; done.
Qed.

Lemma lineSeparator_shape r d :
  rune r → json.lineSeparator r = Some d →
  (r = strings.bytes [226; 128; 168] ∧ d = "8"%char)
  ∨ (r = strings.bytes [226; 128; 169] ∧ d = "9"%char).
Proof.
  destruct 1 as [b0 b1 lo hi Ha Hb | b0 b1 b2 lo hi Ha Hb Hc | b0 b1 b2 b3 lo hi Ha Hb Hc Hd];
    simpl; try done.
  - destruct (Ascii.eqb_spec b0 "226") as [->|]; [|done].
    destruct (Ascii.eqb_spec b1 "128") as [->|]; [|done]. simpl.
    destruct (Ascii.eqb_spec b2 "168") as [->|]; [intros [= <-]; by left|].
    destruct (Ascii.eqb_spec b2 "169") as [->|]; [intros [= <-]; by right|done].
  - destruct (Ascii.eqb_spec b0 "226") as [->|]; [|done]. done.
Qed.

Lemma encodeFrom_copy r s : 
  json.encodeFrom (String.length r) true (r ++ s) = r ++ json.encodeFrom 0 true s.
Proof. induction r as [|b r IH]; simpl; [by destruct s | by rewrite IH]. Qed.

Lemma encodeFrom_drop r s : 
  json.encodeFrom (String.length r) false (r ++ s) = json.encodeFrom 0 false s.
Proof. induction r as [|b r IH]; simpl; [by destruct s | by rewrite IH]. Qed.

Lemma encodeFrom_flag v s : json.encodeFrom 0 v s = json.encodeFrom 0 true s.
Proof. by destruct s. Qed.

Lemma encodeFrom_rune r s :
  rune r →
  json.encodeFrom 0 true (r ++ s) =
  match json.lineSeparator r with
  | Some d => "\u202" ++ String d (json.encodeFrom 0 true s)
  | None => r ++ json.encodeFrom 0 true s
  end.
Proof.
  intros Hr. destruct (rune_first _ Hr) as (b0 & r' & -> & Hh).
  change (String b0 r' ++ s) with (String b0 (r' ++ s)).
  cbn [json.encodeFrom]. rewrite (high_not_ASCII _ Hh).
  change (String b0 (r' ++ s)) with (String b0 r' ++ s).
  rewrite (rune_multiByte _ s Hr), (lineSeparator_rune _ s Hr).
  cbn [String.length]. rewrite Nat.sub_1_r. cbn [Nat.pred].
  destruct (json.lineSeparator (String b0 r')).
  - by rewrite encodeFrom_drop, encodeFrom_flag.
  - by rewrite encodeFrom_copy.
Qed.

Lemma validFrom_skip r s : utf8.validFrom (String.length r) (r ++ s) = utf8.validFrom 0 s.
Proof. induction r as [|b r IH]; simpl; [by destruct s | by rewrite IH]. Qed.

Lemma validFrom_rune r s : rune r → utf8.validFrom 0 (r ++ s) = utf8.validFrom 0 s.
Proof.
  intros Hr. destruct (rune_first _ Hr) as (b0 & r' & -> & Hh).
  change (String b0 r' ++ s) with (String b0 (r' ++ s)).
  cbn [utf8.validFrom]. rewrite (high_not_ASCII _ Hh).
  change (String b0 (r' ++ s)) with (String b0 r' ++ s).
  rewrite (rune_multiByte _ s Hr).
  cbn [String.length]. rewrite Nat.sub_1_r. cbn [Nat.pred].
  apply validFrom_skip.
Qed.

Lemma length_append (a b : string) :
  String.length (a ++ b) = String.length a + String.length b.
Proof. induction a as [|x a IH]; simpl; [done | by rewrite IH]. Qed.

Lemma encodeFrom_Enc s : utf8.ValidString s = true → Enc s (json.encodeFrom 0 true s).
Proof.
  unfold utf8.ValidString.
  remember (String.length s) as n eqn:Hn.
  revert s Hn. induction (lt_wf n) as [n _ IH]. intros s -> Hv.
  destruct s as [|b rest]; [constructor|].
  destruct (utf8.isASCII b) eqn:Hb.
  - cbn [utf8.validFrom] in Hv. rewrite Hb in Hv.
    cbn [json.encodeFrom]. rewrite Hb.
    assert (Enc rest (json.encodeFrom 0 true rest)) as IHr.
    { eapply IH; [|reflexivity|done]. simpl. lia. }
    destruct (json.htmlSafe b) eqn:Hs; simpl.
    + by constructor.
    + by apply Enc_escape.
  - assert (∃ k, utf8.multiByte (String b rest) = Some k) as [k Hk].
    { cbn [utf8.validFrom] in Hv. rewrite Hb in Hv.
      destruct (utf8.multiByte (String b rest)); [by eexists | done]. }
    destruct (multiByte_inv _ _ Hk) as (r & s & Hs & Hr & Hlen).
    rewrite Hs in *. rewrite validFrom_rune in Hv by done.
    rewrite encodeFrom_rune by done.
    assert (Enc s (json.encodeFrom 0 true s)) as IHr.
    { eapply IH; [|reflexivity|done]. rewrite length_append.
      destruct Hr; simpl; lia. }
    destruct (json.lineSeparator r) eqn:Hl.
    + by apply Enc_separator.
    + by apply Enc_rune.
Qed.

(** ** Unquoting what the encoder wrote *)

Lemma htmlSafe_plain b :
  json.htmlSafe b = true →
  Ascii.eqb b "\" = false ∧ Ascii.eqb b "034" = false ∧ (nat_of_ascii b <? 32)%nat = false.
Proof.
  unfold json.htmlSafe. rewrite andb_true_iff, negb_true_iff, !orb_false_iff, Nat.leb_le.
  intros [? ([([? ?] & ?) ?] & ?)]. split_and!; try done. apply Nat.ltb_ge. lia.
Qed.

Lemma high_plain b :
  high b →
  Ascii.eqb b "\" = false ∧ Ascii.eqb b "034" = false ∧ (nat_of_ascii b <? 32)%nat = false.
Proof.
  unfold high. intros H. split_and!.
  - apply eqb_code. change (nat_of_ascii "\") with 92. lia.
  - apply eqb_code. change (nat_of_ascii "034") with 34. lia.
  - apply Nat.ltb_ge. lia.
Qed.

Lemma unquoteFrom_plain b e :
  Ascii.eqb b "\" = false → Ascii.eqb b "034" = false → (nat_of_ascii b <? 32)%nat = false →
  utf8.isASCII b = true →
  json.unquoteFrom 0 (String b e) = String b <$> json.unquoteFrom 0 e.
Proof. intros H1 H2 H3 H4. cbn [json.unquoteFrom]. rewrite H1, H2, H3, H4. done. Qed.

Lemma unquoteFrom_escapeByte b e :
  utf8.isASCII b = true → json.htmlSafe b = false →
  json.unquoteFrom 0 (json.escapeByte b ++ e) = String b <$> json.unquoteFrom 0 e.
Proof.
  destruct b as [[] [] [] [] [] [] [] []]; intros H1 H2;
    vm_compute in H1, H2; try discriminate; reflexivity.
Qed.

Lemma unquoteFrom_copy r e :
  json.unquoteFrom (String.length r) (r ++ e) = String.append r <$> json.unquoteFrom 0 e.
Proof.
  induction r as [|b r IH]; simpl.
  - destruct e; [done|]. by destruct (json.unquoteFrom 0 (String a e)).
  - rewrite IH. by destruct (json.unquoteFrom 0 e).
Qed.

Lemma unquoteFrom_rune r e :
  rune r → json.unquoteFrom 0 (r ++ e) = String.append r <$> json.unquoteFrom 0 e.
Proof.
  intros Hr. destruct (rune_first _ Hr) as (b0 & r' & -> & Hh).
  destruct (high_plain _ Hh) as (H1 & H2 & H3).
  change (String b0 r' ++ e) with (String b0 (r' ++ e)).
  cbn [json.unquoteFrom]. rewrite H1, H2, H3, (high_not_ASCII _ Hh). cbn [orb].
  change (String b0 (r' ++ e)) with (String b0 r' ++ e).
  rewrite (rune_multiByte _ e Hr).
  cbn [String.length]. rewrite Nat.sub_1_r. cbn [Nat.pred].
  rewrite unquoteFrom_copy. by destruct (json.unquoteFrom 0 e).
Qed.

Lemma unquoteFrom_separator r d e :
  rune r → json.lineSeparator r = Some d →
  json.unquoteFrom 0 ("\u202" ++ String d e) = String.append r <$> json.unquoteFrom 0 e.
Proof.
  intros Hr Hd. destruct (lineSeparator_shape _ _ Hr Hd) as [[-> ->] | [-> ->]]; reflexivity.
Qed.

Lemma unquote_Enc s e : Enc s e → json.unquoteFrom 0 e = Some s.
Proof.
  induction 1 as [| b s e Ha Hs _ IH | b s e Ha Hs _ IH | d r s e Hr Hd _ IH | r s e Hr Hd _ IH].
  - done.
  - destruct (htmlSafe_plain _ Hs) as (H1 & H2 & H3).
    by rewrite unquoteFrom_plain, IH.
  - by rewrite unquoteFrom_escapeByte, IH.
  - by rewrite (unquoteFrom_separator r), IH.
  - by rewrite unquoteFrom_rune, IH.
Qed.

(** The encoder and the decoder of strings agree on well-formed UTF-8. *)
Lemma unquote_encode s :
  utf8.ValidString s = true → json.unquote (json.encodeFrom 0 true s) = Some s.
Proof. intros Hv. apply unquote_Enc. by apply encodeFrom_Enc. Qed.

(** ** Scanning what the encoder wrote *)

Lemma scanBytes_app sc a b :
  json.scanBytes sc (a ++ b) =
  match json.scanBytes sc a with
  | inl sc' => json.scanBytes sc' b
  | inr err => inr err
  end.
Proof.
  revert sc. induction a as [|c a IH]; intros sc; simpl; [done|].
  destruct (json.stepByte sc c); [apply IH | done].
Qed.

Lemma scan_plain ps l t b :
  Ascii.eqb b "\" = false → Ascii.eqb b "034" = false → (nat_of_ascii b <? 32)%nat = false →
  json.stepByte (inString ps l t) b = inl (inString ps (String b l) t).
Proof. intros H1 H2 H3. unfold json.stepByte. simpl. by rewrite H1, H2, H3. Qed.

Lemma scan_high ps l t r :
  (∀ n b, String.get n r = Some b → high b) →
  json.scanBytes (inString ps l t) r = inl (inString ps (String.rev_app r l) t).
Proof.
  revert l. induction r as [|b r IH]; intros l Hh; simpl; [done|].
  destruct (high_plain b) as (H1 & H2 & H3); [by apply (Hh 0)|].
  rewrite scan_plain by done. apply IH. intros n. apply (Hh (S n)).
Qed.

Lemma scan_escapeByte ps l t b :
  utf8.isASCII b = true → json.htmlSafe b = false →
  json.scanBytes (inString ps l t) (json.escapeByte b) =
  inl (inString ps (String.rev_app (json.escapeByte b) l) t).
Proof.
  destruct b as [[] [] [] [] [] [] [] []]; intros H1 H2;
    vm_compute in H1, H2; try discriminate; reflexivity.
Qed.

Lemma rev_app_app a b l : String.rev_app (a ++ b) l = String.rev_app b (String.rev_app a l).
Proof. revert l. induction a as [|x a IH]; intros l; simpl; [done | apply IH]. Qed.

Lemma scan_Enc s e :
  Enc s e → ∀ ps l t,
  json.scanBytes (inString ps l t) e = inl (inString ps (String.rev_app e l) t).
Proof.
  induction 1 as [| b s e Ha Hs _ IH | b s e Ha Hs _ IH | d r s e Hr Hd _ IH | r s e Hr Hd _ IH];
    intros ps l t.
  - done.
  - destruct (htmlSafe_plain _ Hs) as (H1 & H2 & H3).
    cbn [json.scanBytes]. rewrite scan_plain by done. apply IH.
  - rewrite scanBytes_app, scan_escapeByte by done. rewrite IH. by rewrite rev_app_app.
  - destruct (lineSeparator_shape _ _ Hr Hd) as [[_ ->] | [_ ->]];
      cbn; exact (IH _ _ _).
  - rewrite scanBytes_app, scan_high by (by apply rune_high). rewrite IH.
    by rewrite rev_app_app.
Qed.

Lemma scanBytes_cons sc c rest sc' :
  json.stepByte sc c = inl sc' → json.scanBytes sc (String c rest) = json.scanBytes sc' rest.
Proof. intros H. simpl. by rewrite H. Qed.

(** A string literal, from the byte after its opening quote to its
    closing quote. *)
Lemma scan_literal s ps l t Y :
  utf8.ValidString s = true →
  json.scanBytes (inString ps l t) (json.encodeFrom 0 true s ++ DQ ++ Y) =
  json.scanBytes
    (json.attach (json.Str (String.rev l ++ json.encodeFrom 0 true s))
       (json.mkScanner json.stateEndValue ps l t)) Y.
Proof.
  intros Hv. rewrite scanBytes_app, (scan_Enc s) by (by apply encodeFrom_Enc).
  unfold DQ. cbn [String.append]. erewrite scanBytes_cons; [|reflexivity].
  cbn [json.lit inString]. by rewrite rev_rev_app.
Qed.

Lemma scan_entry st ms below l0 t kv Y :
  st = json.stateBeginStringOrEmpty ∨ st = json.stateBeginString →
  validEntry kv →
  json.scanBytes (json.mkScanner st (json.parseObjectKey ms None :: below) l0 t)
    (json.encodeEntry kv ++ Y) =
  json.scanBytes
    (json.mkScanner json.stateEndValue
       (json.parseObjectValue (rawEntry kv :: ms) None :: below) EmptyString t) Y.
Proof.
  intros Hst [Hk Hv]. unfold json.encodeEntry, json.encodeString.
  rewrite !append_assoc. unfold DQ at 1. cbn [String.append].
  erewrite scanBytes_cons; [|by destruct Hst as [-> | ->]].
  rewrite (scan_literal _ _ _ _ _ Hk). cbn [json.attach json.parseState json.attachFrame].
  cbn [String.append]. erewrite scanBytes_cons; [|reflexivity].
  unfold DQ at 1. cbn [String.append]. erewrite scanBytes_cons; [|reflexivity].
  rewrite (scan_literal _ _ _ _ _ Hv). reflexivity.
Qed.

Lemma scan_entries l : 
  l ≠ [] → Forall validEntry l →
  ∀ st ms below l0 t Y,
  st = json.stateBeginStringOrEmpty ∨ st = json.stateBeginString →
  json.scanBytes (json.mkScanner st (json.parseObjectKey ms None :: below) l0 t)
    (json.encodeEntries l ++ Y) =
  json.scanBytes
    (json.mkScanner json.stateEndValue
       (json.parseObjectValue (rev (map rawEntry l) ++ ms) None :: below) EmptyString t) Y.
Proof.
  induction l as [|kv l IH]; [done|]. intros _ Hall st ms below l0 t Y Hst.
  apply Forall_cons in Hall as [Hkv Hall].
  destruct l as [|kv' l].
  - cbn [json.encodeEntries map rev]. rewrite scan_entry by done. done.
  - assert (json.encodeEntries (kv :: kv' :: l) =
            json.encodeEntry kv ++ "," ++ json.encodeEntries (kv' :: l)) as -> by done.
    rewrite !append_assoc, scan_entry by done.
    cbn [String.append]. erewrite scanBytes_cons; [|reflexivity].
    cbn [json.parseState json.lit json.top].
    rewrite IH by (done || by right).
    cbn [map rev]. by rewrite <- !app_assoc.
Qed.

Lemma scan_Marshal_map m :
  Forall validEntry (json.sortedEntries m) →
  json.scan (json.Marshal (mkPlanInfo (Some m))) =
  inl (json.Object [("binaries", json.Object (map rawEntry (json.sortedEntries m)))]).
Proof.
  intros Hall. unfold json.Marshal, json.encodeMap, Binaries.
  rewrite !append_assoc. unfold DQ. cbn [String.append].
  unfold json.scan.
  do 13 (erewrite scanBytes_cons; [|reflexivity]).
  destruct (json.sortedEntries m) as [|kv l] eqn:El.
  - reflexivity.
  - rewrite scan_entries by (done || by left).
    cbn [String.append]. do 2 (erewrite scanBytes_cons; [|reflexivity]).
    cbn. by rewrite app_nil_r, rev_app_distr, rev_involutive.
Qed.

(** ** Decoding what the scanner kept *)

Lemma decode_entries l m0 :
  Forall validEntry l →
  fold_left json.decodeEntry (map rawEntry l) (m0, None) = (fold_left store l m0, None).
Proof.
  revert m0. induction l as [|[k v] l IH]; intros m0 Hall; [done|].
  apply Forall_cons in Hall as [[Hk Hv] Hall]. simpl in Hk, Hv.
  cbn [map fold_left]. rewrite <- IH by done. f_equal.
  unfold json.decodeEntry, rawEntry. cbn [fst snd].
  by rewrite !unquote_encode.
Qed.

Lemma fold_store (l : list (string * string)) :
  NoDup l.*1 → fold_left store l ∅ = list_to_map l.
Proof.
  intros Hnd. rewrite <- fold_left_rev_right.
  transitivity (list_to_map (rev l) : BinaryDownloadURLMap).
  - generalize (rev l). intros l'. induction l' as [|[k v] l' IH]; [done|].
    simpl. by rewrite IH.
  - apply list_to_map_proper.
    + by rewrite <- (Permutation_rev l).
    + symmetry. apply Permutation_rev.
Qed.

Lemma sortedEntries_perm (m : BinaryDownloadURLMap) : json.sortedEntries m ≡ₚ map_to_list m.
Proof. apply merge_sort_Permutation. Qed.

Lemma sortedEntries_valid m :
  validPlanInfo (mkPlanInfo (Some m)) → Forall validEntry (json.sortedEntries m).
Proof.
  unfold validPlanInfo. simpl. intros H. rewrite sortedEntries_perm.
  apply map_Forall_to_list in H. eapply Forall_impl; [exact H|]. by intros [k v].
Qed.

Lemma Unmarshal_Marshal p :
  validPlanInfo p → json.Unmarshal (json.Marshal p) = inl p.
Proof.
  destruct p as [[m|]]; intros Hv; [|reflexivity].
  pose proof (sortedEntries_valid _ Hv) as Hall.
  unfold json.Unmarshal. rewrite scan_Marshal_map by done.
  unfold json.decode. cbn [fold_left].
  assert (json.decodeField (None, None)
            ("binaries", json.Object (map rawEntry (json.sortedEntries m)))
          = (Some m, None)) as ->; [|done].
  unfold json.decodeField. cbn [fst snd].
  change (json.unquote "binaries") with (Some "binaries").
  change (json.isBinaries "binaries") with true. cbn match.
  unfold json.decodeBinaries. cbn [entries default].
  rewrite decode_entries by done. do 2 f_equal.
  rewrite fold_store.
  - rewrite (list_to_map_proper _ (map_to_list m)).
    + apply list_to_map_to_list.
    + rewrite sortedEntries_perm. apply NoDup_fst_map_to_list.
    + apply sortedEntries_perm.
  - rewrite sortedEntries_perm. apply NoDup_fst_map_to_list.
Qed.

(** ** The serialization is neither trimmed nor taken for a URL *)

Lemma Marshal_prefix p :
  json.Marshal p = marshalPrefix ++ json.encodeMap (Binaries p) ++ "}".
Proof. reflexivity. Qed.

Lemma trimRight_brace t : strings.trimRight (t ++ "}") = t ++ "}".
Proof.
  induction t as [|c t IH]; [reflexivity|].
  cbn [String.append strings.trimRight]. rewrite IH.
  destruct (existsb _ strings.spaceRunes) eqn:E; [|done].
  apply existsb_exists in E as (e & He & Heq). apply String.eqb_eq in Heq. subst e.
  exfalso. destruct t as [|? [|? [|? ?]]];
    repeat (destruct He as [He | He]; [discriminate He|]); destruct He.
Qed.

Lemma TrimSpace_Marshal p : strings.TrimSpace (json.Marshal p) = json.Marshal p.
Proof.
  unfold strings.TrimSpace.
  assert (strings.trimLeftFrom 0 (json.Marshal p) = json.Marshal p) as -> by reflexivity.
  rewrite Marshal_prefix, <- !append_assoc. apply trimRight_brace.
Qed.

Lemma Cut_cons c s sep :
  Ascii.eqb c sep = false →
  strings.Cut (String c s) sep = (String c (strings.Cut s sep).1, (strings.Cut s sep).2).
Proof. intros H. simpl. rewrite H. by destruct (strings.Cut s sep). Qed.

Section ParseSerialization.

Variable parseRest : string → string → option error.
Variable setFragment : string → option error.
Variable strconv_Quote : string → string.

(** A string that starts with [{"binaries":] is no URL: without a scheme,
    the first segment of its path has a colon. *)
Lemma parse_marshalPrefix t :
  is_Some (neturl.parse parseRest (marshalPrefix ++ t)).
Proof.
  unfold neturl.parse.
  destruct (neturl.stringContainsCTLByte _); [by eexists|].
  unfold marshalPrefix, DQ. cbn [String.append].
  match goal with |- context [String.eqb ?a "*"] =>
    change (String.eqb a "*") with false end.
  cbv beta iota.
  match goal with |- context [neturl.getScheme ?a] =>
    change (neturl.getScheme a) with (@inl (string * string) error (EmptyString, a)) end.
  cbv beta iota.
  rewrite !Cut_cons by reflexivity. cbn [fst snd].
  change (negb (String.prefix "/" ?a)) with true.
  cbv beta iota. change (negb (String.eqb EmptyString EmptyString)) with false.
  cbv beta iota. rewrite !Cut_cons by reflexivity. cbn [fst snd].
  cbn. by eexists.
Qed.

Lemma Parse_Marshal p :
  is_Some (neturl.Parse parseRest setFragment strconv_Quote (json.Marshal p)).
Proof.
  rewrite Marshal_prefix. unfold neturl.Parse.
  assert (∃ t f, strings.Cut (marshalPrefix ++ json.encodeMap (Binaries p) ++ "}") "#"
                 = (marshalPrefix ++ t, f)) as (t & f & ->).
  { unfold marshalPrefix, DQ. cbn [String.append].
    rewrite !Cut_cons by reflexivity. by eexists _, _. }
  destruct (parse_marshalPrefix t) as [err ->]. by eexists.
Qed.

End ParseSerialization.

Lemma rev_cons c l : String.rev (String c l) = String.rev l ++ String c EmptyString.
Proof. unfold String.rev. simpl. by rewrite rev_app_append. Qed.

Lemma okBody_app a b : okBody a = true → okBody (a ++ b) = okBody b.
Proof.
  remember (String.length a) as n eqn:Hn. revert a Hn.
  induction (lt_wf n) as [n _ IH]. intros a -> Ha.
  destruct a as [|c rest]; [done|].
  cbn [String.append okBody] in *.
  destruct (Ascii.eqb c "\").
  - destruct rest as [|e rest1]; [done|]. cbn [String.append].
    destruct (Ascii.eqb e "u").
    + destruct rest1 as [|h1 [|h2 [|h3 [|h4 rest2]]]]; try done.
      cbn [String.append].
      apply andb_true_iff in Ha as [Hh Ha]. rewrite Hh. simpl.
      eapply IH; [|reflexivity|done]. simpl. lia.
    + apply andb_true_iff in Ha as [He Ha]. rewrite He. simpl.
      eapply IH; [|reflexivity|done]. simpl. lia.
  - apply andb_true_iff in Ha as [Hc Ha]. rewrite Hc. simpl.
    eapply IH; [|reflexivity|done]. simpl. lia.
Qed.

Lemma okBody_snoc l t : okBody (String.rev l) = true → okBody t = true →
  okBody (String.rev l ++ t) = true.
Proof. intros Hl Ht. by rewrite okBody_app. Qed.

Lemma forallb_rev {A} (f : A → bool) l : forallb f (rev l) = forallb f l.
Proof.
  induction l as [|x l IH]; [done|]. simpl. rewrite forallb_app, IH. simpl.
  rewrite andb_true_r. apply andb_comm.
Qed.

(** ** The invariant holds along a scan *)

Lemma attach_OK v s :
  wellQuoted v = true → scannerOK s → litOK (json.step s) EmptyString →
  scannerOK (json.attach v s).
Proof.
  intros Hv (Hfs & Htop & Hlit) Hl. unfold json.attach, scannerOK.
  destruct (json.parseState s) as [|f below]; simpl.
  - done.
  - simpl in Hfs. apply andb_true_iff in Hfs as [Hf Hb]. split_and!; [|done|done].
    apply andb_true_iff. split; [|done].
    destruct f as [members key | members [key|] | elems]; simpl in *.
    + apply andb_true_iff in Hf as [Hm _]. rewrite Hm. by destruct v.
    + apply andb_true_iff in Hf as [Hm Hk]. by rewrite Hk, Hv, Hm.
    + done.
    + by rewrite Hv, Hf.
Qed.

Lemma stateEndTop_OK s c s' :
  scannerOK s → json.stateEndTop_fn s c = inl s' → scannerOK s'.
Proof. unfold json.stateEndTop_fn. destruct (json.isSpace c); by intros ? [= <-]. Qed.

Ltac finish_OK :=
  match goal with
  | H : inl _ = inl _ |- _ => injection H as <-
  | H : inr _ = inl _ |- _ => discriminate H
  end.

Lemma stateEndValue_OK s c s' :
  scannerOK s → json.stateEndValue_fn s c = inl s' → scannerOK s'.
Proof.
  intros (Hfs & Htop & Hlit). unfold json.stateEndValue_fn.
  destruct (json.parseState s) as [|f below] eqn:Hps.
  { apply stateEndTop_OK. unfold scannerOK, json.goto. simpl. by rewrite Hps. }
  simpl in Hfs. apply andb_true_iff in Hfs as [Hf Hb].
  destruct (json.isSpace c).
  { intros [= <-]. unfold scannerOK, json.goto. simpl. rewrite Hps. simpl.
    by rewrite Hf, Hb. }
  destruct f as [members key | members key | elems]; simpl in Hf.
  - destruct (Ascii.eqb c ":"); intros ?; finish_OK.
    unfold scannerOK. simpl. by rewrite Hf, Hb.
  - apply andb_true_iff in Hf as [Hm Hk].
    destruct (Ascii.eqb c ","); [intros ?; finish_OK|].
    { unfold scannerOK. simpl. by rewrite Hm, Hb. }
    destruct (Ascii.eqb c "}"); intros ?; finish_OK.
    unfold json.popParseState. apply attach_OK.
    + simpl. rewrite forallb_rev. exact Hm.
    + unfold scannerOK. simpl. split_and!; [done|done|]. by destruct below.
    + simpl. by destruct below.
  - destruct (Ascii.eqb c ","); [intros ?; finish_OK|].
    { unfold scannerOK, json.goto. simpl. rewrite Hps. simpl. by rewrite Hf, Hb. }
    destruct (Ascii.eqb c "]"); intros ?; finish_OK.
    unfold json.popParseState. apply attach_OK.
    + simpl. rewrite forallb_rev. exact Hf.
    + unfold scannerOK. simpl. split_and!; [done|done|]. by destruct below.
    + simpl. by destruct below.
Qed.

(** A step that changes neither the stack nor the top-level value keeps
    the invariant when the literal fits the new state. *)
Lemma relabel_OK s st l :
  scannerOK s → litOK st l →
  scannerOK (json.mkScanner st (json.parseState s) l (json.top s)).
Proof. by intros (Hfs & Htop & _) Hl. Qed.

Lemma pushParseState_OK c f st s s' :
  scannerOK s → frameOK f = true → litOK st (json.lit s) →
  json.pushParseState c f st s = inl s' → scannerOK s'.
Proof.
  intros (Hfs & Htop & _) Hf Hl. unfold json.pushParseState.
  destruct (_ <=? _)%N; intros [= <-]. unfold scannerOK. simpl. by rewrite Hf, Hfs.
Qed.

Lemma stateBeginString_OK s c s' :
  scannerOK s → litOK (json.step s) (json.lit s) →
  json.stateBeginString_fn s c = inl s' → scannerOK s'.
Proof.
  intros HOK Hl. unfold json.stateBeginString_fn.
  destruct (json.isSpace c); [by intros [= <-]|].
  destruct (Ascii.eqb c "034"); intros [= <-]. by apply relabel_OK.
Qed.

Lemma stateBeginValue_OK s c s' :
  scannerOK s → json.stateBeginValue_fn s c = inl s' → scannerOK s'.
Proof.
  intros HOK. unfold json.stateBeginValue_fn, json.begin, json.goto.
  repeat match goal with
         | |- context [if ?b then _ else _] => destruct b
         end;
    try (by intros [= <-]);
    try (intros [= <-]; by apply relabel_OK);
    by apply pushParseState_OK.
Qed.

Lemma endNumber_OK s c s' :
  scannerOK s → litOK (json.step s) EmptyString →
  json.endNumber s c = inl s' → scannerOK s'.
Proof.
  intros HOK Hl. unfold json.endNumber. apply stateEndValue_OK. by apply attach_OK.
Qed.

Lemma state0_OK s c s' :
  scannerOK s → litOK (json.step s) EmptyString →
  json.state0_fn s c = inl s' → scannerOK s'.
Proof.
  intros HOK Hl. unfold json.state0_fn, json.more.
  repeat match goal with
         | |- context [if ?b then _ else _] => destruct b
         end;
    try (intros [= <-]; by apply relabel_OK).
  by apply endNumber_OK.
Qed.

Lemma stateESign_OK s c s' :
  scannerOK s → json.stateESign_fn s c = inl s' → scannerOK s'.
Proof.
  intros HOK. unfold json.stateESign_fn, json.more.
  destruct (json.isDigit c); intros [= <-]. by apply relabel_OK.
Qed.

Lemma letter_OK expect next context s c s' :
  scannerOK s → litOK next (json.lit s) →
  json.letter expect next context s c = inl s' → scannerOK s'.
Proof.
  intros HOK Hl. unfold json.letter, json.goto.
  destruct (Ascii.eqb c expect); intros [= <-]. by apply relabel_OK.
Qed.

Lemma lastLetter_OK expect v context s c s' :
  scannerOK s → wellQuoted v = true →
  json.lastLetter expect v context s c = inl s' → scannerOK s'.
Proof.
  intros HOK Hv. unfold json.lastLetter, json.goto.
  destruct (Ascii.eqb c expect); intros [= <-].
  apply attach_OK; [done | by apply relabel_OK | done].
Qed.

Lemma okBody_plain c :
  Ascii.eqb c "034" = false → Ascii.eqb c "\" = false → (nat_of_ascii c <? 32)%nat = false →
  okBody (String c EmptyString) = true.
Proof. intros H1 H2 H3. simpl. by rewrite H1, H2, H3. Qed.

Lemma okBody_escape e : scannerEscape e = true → okBody (String "\" (String e EmptyString)) = true.
Proof.
  intros He. cbn [okBody]. change (Ascii.eqb "\" "\") with true. cbv iota.
  destruct (Ascii.eqb_spec e "u") as [->|]; [by vm_compute in He|].
  by rewrite He.
Qed.

Lemma stepByte_OK s c s' : scannerOK s → json.stepByte s c = inl s' → scannerOK s'.
Proof.
  intros HOK. pose proof HOK as (Hfs & Htop & Hlit). unfold json.stepByte.
  destruct (json.step s) eqn:Hst; simpl in Hlit.
  - by apply stateBeginValue_OK.
  - destruct (json.isSpace c); [by intros [= <-]|].
    destruct (Ascii.eqb c "]");
      [by apply stateEndValue_OK | by apply stateBeginValue_OK].
  - destruct (json.isSpace c); [by intros [= <-]|].
    destruct (Ascii.eqb c "}").
    + destruct (json.parseState s) as [|[members key | members key | elems] below] eqn:Hps;
        apply stateEndValue_OK; try done.
    + apply stateBeginString_OK; [done | by rewrite Hst].
  - apply stateBeginString_OK; [done | by rewrite Hst].
  - by apply stateEndValue_OK.
  - by apply stateEndTop_OK.
  - destruct (Ascii.eqb c "034") eqn:Hq.
    { intros [= <-]. apply attach_OK; [done | by apply relabel_OK | done]. }
    destruct (Ascii.eqb_spec c "\") as [->|Hb].
    { intros [= <-]. apply relabel_OK; [done|]. simpl. by eexists. }
    destruct (nat_of_ascii c <? 32)%nat eqn:Hc; intros [= <-].
    apply relabel_OK; [done|]. simpl.
    rewrite rev_cons. apply okBody_snoc; [done|].
    apply okBody_plain; [done | by apply Ascii.eqb_neq | done].
  - destruct Hlit as (l' & Hl & Hok).
    match goal with |- context [if ?b then _ else _] => destruct b eqn:He end.
    { intros [= <-]. apply relabel_OK; [done|]. simpl. rewrite Hl, !rev_cons, append_assoc.
      apply okBody_snoc; [done|]. by apply okBody_escape. }
    destruct (Ascii.eqb_spec c "u") as [->|]; intros [= <-].
    apply relabel_OK; [done|]. simpl. rewrite Hl. by eexists.
  - destruct Hlit as (l' & Hl & Hok). unfold json.hexStep.
    destruct (json.isHex c) eqn:Hh; intros [= <-].
    apply relabel_OK; [done|]. simpl. rewrite Hl. by eexists _, _.
  - destruct Hlit as (h1 & l' & Hl & H1 & Hok). unfold json.hexStep.
    destruct (json.isHex c) eqn:Hh; intros [= <-].
    apply relabel_OK; [done|]. simpl. rewrite Hl. by eexists _, _, _.
  - destruct Hlit as (h1 & h2 & l' & Hl & H1 & H2 & Hok). unfold json.hexStep.
    destruct (json.isHex c) eqn:Hh; intros [= <-].
    apply relabel_OK; [done|]. simpl. rewrite Hl. by eexists _, _, _, _.
  - destruct Hlit as (h1 & h2 & h3 & l' & Hl & H1 & H2 & H3 & Hok). unfold json.hexStep.
    destruct (json.isHex c) eqn:Hh; intros [= <-].
    apply relabel_OK; [done|]. simpl. rewrite Hl, !rev_cons, !append_assoc.
    apply okBody_snoc; [done|]. simpl. by rewrite H1, H2, H3, Hh.
  - unfold json.more.
    repeat match goal with |- context [if ?b then _ else _] => destruct b end;
      intros [= <-]; by apply relabel_OK.
  - unfold json.more. destruct (json.isDigit c).
    + intros [= <-]. by apply relabel_OK.
    + apply state0_OK; [done | by rewrite Hst].
  - apply state0_OK; [done | by rewrite Hst].
  - unfold json.more. destruct (json.isDigit c); intros [= <-]. by apply relabel_OK.
  - unfold json.more. destruct (json.isDigit c); [intros [= <-]; by apply relabel_OK|].
    destruct (_ || _); [intros [= <-]; by apply relabel_OK|].
    apply endNumber_OK; [done | by rewrite Hst].
  - unfold json.more. destruct (_ || _); [intros [= <-]; by apply relabel_OK|].
    by apply stateESign_OK.
  - by apply stateESign_OK.
  - unfold json.more. destruct (json.isDigit c); [intros [= <-]; by apply relabel_OK|].
    apply endNumber_OK; [done | by rewrite Hst].
  - by apply letter_OK.
  - by apply letter_OK.
  - by apply lastLetter_OK.
  - by apply letter_OK.
  - by apply letter_OK.
  - by apply letter_OK.
  - by apply lastLetter_OK.
  - by apply letter_OK.
  - by apply letter_OK.
  - by apply lastLetter_OK.
Qed.

Lemma scanBytes_OK data : ∀ s s', scannerOK s → json.scanBytes s data = inl s' → scannerOK s'.
Proof.
  induction data as [|c data IH]; intros s s' HOK; simpl; [by intros [= <-]|].
  destruct (json.stepByte s c) as [s1|] eqn:Hs; [|done].
  apply IH. by eapply stepByte_OK.
Qed.

(** Every string and every key of a value that the scanner accepts can be
    unquoted by the rules of the scanner. *)
Lemma scan_wellQuoted data v : json.scan data = inl v → wellQuoted v = true.
Proof.
  unfold json.scan.
  destruct (json.scanBytes json.reset data) as [s|] eqn:Hs; [|done].
  assert (scannerOK s) as HOK by (eapply scanBytes_OK; [|exact Hs]; done).
  unfold json.eof.
  assert (∀ s1, scannerOK s1 →
            match json.top s1 with Some v1 => inl v1 | None => inr json.unexpectedEnd end
            = @inl _ json.SyntaxError v → wellQuoted v = true) as Htop.
  { intros s1 (_ & Ht & _). destruct (json.top s1); by intros [= <-]. }
  destruct (json.step s) eqn:Hst;
    try (destruct (json.stepByte s " ") as [s1|] eqn:H1; [|done];
         destruct (json.step s1); try done;
         apply Htop; by eapply stepByte_OK);
    by apply Htop.
Qed.

(** ** What the scanner lets through can be unquoted *)

Lemma isHex_hexVal c : json.isHex c = true → is_Some (json.hexVal c).
Proof.
  unfold json.isHex, json.hexVal. intros H.
  destruct (json.isDigit c); [by eexists|].
  destruct (utf8.between 97 102 c); [by eexists|].
  destruct (utf8.between 65 70 c); [by eexists | done].
Qed.

Lemma isHex_getu4 h1 h2 h3 h4 :
  json.isHex h1 && json.isHex h2 && json.isHex h3 && json.isHex h4 = true →
  is_Some (json.getu4 h1 h2 h3 h4).
Proof.
  rewrite !andb_true_iff. intros [[[H1 H2] H3] H4]. unfold json.getu4.
  destruct (isHex_hexVal _ H1) as [? ->], (isHex_hexVal _ H2) as [? ->],
    (isHex_hexVal _ H3) as [? ->], (isHex_hexVal _ H4) as [? ->]. by eexists.
Qed.

Lemma scannerEscape_simple e : scannerEscape e = true → is_Some (json.simpleEscape e).
Proof.
  unfold scannerEscape, json.simpleEscape. rewrite !orb_true_iff.
  intros H. repeat destruct H as [H|H]; apply Ascii.eqb_eq in H; subst e; by eexists.
Qed.

Lemma fmap_is_Some_string (f : string → string) (o : option string) :
  is_Some o → is_Some (f <$> o).
Proof. intros [x ->]. by eexists. Qed.

Lemma okBody_rune r : rune r → okBody r = true.
Proof.
  intros Hr. pose proof (rune_high _ Hr) as Hh.
  assert (∀ s, (∀ n b, String.get n s = Some b → high b) → okBody s = true) as Hall.
  { clear. induction s as [|c s IH]; intros Hh; [done|].
    destruct (high_plain c) as (H1 & H2 & H3); [by apply (Hh 0)|].
    cbn [okBody]. rewrite H1, H2, H3. simpl. apply IH. intros n. apply (Hh (S n)). }
  by apply Hall.
Qed.

Lemma okBody_unquote raw : okBody raw = true → is_Some (json.unquote raw).
Proof.
  unfold json.unquote.
  remember (String.length raw) as n eqn:Hn. revert raw Hn.
  induction (lt_wf n) as [n _ IH]. intros raw -> Hok.
  assert (∀ t, String.length t < String.length raw → okBody t = true →
               is_Some (json.unquoteFrom 0 t)) as IH'.
  { intros t Hlt Ht. by eapply IH. }
  clear IH.
  destruct raw as [|c rest]; [by eexists|].
  destruct (utf8.isASCII c) eqn:Hascii.
  - cbn [okBody] in Hok. cbn [json.unquoteFrom].
    destruct (Ascii.eqb c "\").
    + destruct rest as [|e rest1]; [done|].
      destruct (Ascii.eqb e "u").
      * destruct rest1 as [|h1 [|h2 [|h3 [|h4 rest2]]]]; try done.
        apply andb_true_iff in Hok as [Hh Hok].
        destruct (isHex_getu4 _ _ _ _ Hh) as [rr ->].
        assert (is_Some (json.unquoteFrom 0 rest2)) as Hrest2.
        { apply IH'; [simpl; lia | done]. }
        destruct (json.IsSurrogate rr); [|by apply fmap_is_Some_string].
        destruct rest2 as [|x [|y [|g1 [|g2 [|g3 [|g4 rest3]]]]]];
          try (by apply fmap_is_Some_string).
        destruct (Ascii.eqb x "\" && Ascii.eqb y "u") eqn:Hxy;
          [|by apply fmap_is_Some_string].
        destruct (json.getu4 g1 g2 g3 g4); [|by apply fmap_is_Some_string].
        destruct (json.DecodeRune rr n); [|by apply fmap_is_Some_string].
        apply fmap_is_Some_string, IH'; [simpl; lia|].
        apply andb_true_iff in Hxy as [Hx Hy].
        cbn [okBody] in Hok. rewrite Hx, Hy in Hok.
        by apply andb_true_iff in Hok as [_ Hok].
      * apply andb_true_iff in Hok as [He Hok].
        destruct (scannerEscape_simple _ He) as [b ->].
        apply fmap_is_Some_string, IH'; [simpl; lia | done].
    + apply andb_true_iff in Hok as [Hc Hok].
      apply andb_true_iff in Hc as [Hq Hc].
      apply negb_true_iff in Hq, Hc. rewrite Hq, Hc, Hascii. simpl.
      apply fmap_is_Some_string, IH'; [simpl; lia | done].
  - assert (Ascii.eqb c "\" = false) as Hb.
    { destruct (Ascii.eqb_spec c "\") as [->|]; [by vm_compute in Hascii | done]. }
    destruct (utf8.multiByte (String c rest)) as [k|] eqn:Hk.
    + destruct (multiByte_inv _ _ Hk) as (r & t & Hs & Hr & Hlen).
      rewrite Hs in *. rewrite unquoteFrom_rune by done.
      apply fmap_is_Some_string, IH'.
      * rewrite length_append. destruct Hr; simpl; lia.
      * by rewrite okBody_app in Hok by (by apply okBody_rune).
    + cbn [okBody] in Hok. rewrite Hb in Hok.
      apply andb_true_iff in Hok as [Hc Hok]. apply andb_true_iff in Hc as [Hq Hc].
      apply negb_true_iff in Hq, Hc.
      cbn [json.unquoteFrom]. rewrite Hb, Hq, Hc, Hascii, Hk. simpl.
      apply fmap_is_Some_string, IH'; [simpl; lia | done].
Qed.

(** ** The values that the decoder rejects *)

Lemma saveError_Some saved err : is_Some (json.saveError saved err).
Proof. destruct saved; by eexists. Qed.

Lemma decodeEntry_saved m e member : (json.decodeEntry (m, Some e) member).2 = Some e.
Proof.
  unfold json.decodeEntry. destruct (json.unquote member.1); [|done].
  destruct member.2; try done. by destruct (json.unquote raw).
Qed.

Lemma decodeEntry_fresh m member :
  okBody member.1 = true → wellQuoted member.2 = true →
  (json.decodeEntry (m, None) member).2 = None ↔ fitsString member.2 = true.
Proof.
  intros Hk Hv. unfold json.decodeEntry.
  destruct (okBody_unquote _ Hk) as [key ->].
  destruct member.2 as [| | | raw | |]; simpl in *; try done.
  by destruct (okBody_unquote _ Hv) as [val ->].
Qed.

Lemma decodeEntries_saved table m e :
  (fold_left json.decodeEntry table (m, Some e)).2 = Some e.
Proof.
  revert m. induction table as [|member table IH]; intros m; [done|]. cbn [fold_left].
  pose proof (decodeEntry_saved m e member) as H.
  destruct (json.decodeEntry (m, Some e) member) as [m' saved]. simpl in H. subst saved.
  apply IH.
Qed.

Lemma decodeEntries_fresh table m :
  membersOK table = true →
  (fold_left json.decodeEntry table (m, None)).2 = None
  ↔ forallb (λ member, fitsString member.2) table = true.
Proof.
  revert m. induction table as [|[key val] table IH]; intros m Hok; [done|].
  simpl in Hok. apply andb_true_iff in Hok as [Hm Hok]. apply andb_true_iff in Hm as [Hk Hv].
  cbn [fold_left forallb]. rewrite andb_true_iff.
  pose proof (decodeEntry_fresh m (key, val) Hk Hv) as H.
  destruct (json.decodeEntry (m, None) (key, val)) as [m' [e|]]; simpl in H.
  - rewrite decodeEntries_saved. split; [done|]. intros [Hf _]. by apply H in Hf.
  - rewrite IH by done. cbn [snd]. split; [intros ?; split; [by apply H | done] | by intros [_ ?]].
Qed.

Lemma decodeBinaries_saved cur e v : (json.decodeBinaries (cur, Some e) v).2 = Some e.
Proof.
  destruct v as [| | | | |table]; try done. simpl.
  pose proof (decodeEntries_saved table (entries cur) e) as H.
  by destruct (fold_left json.decodeEntry table (entries cur, Some e)).
Qed.

Lemma decodeBinaries_fresh cur v :
  wellQuoted v = true →
  (json.decodeBinaries (cur, None) v).2 = None ↔ fitsMap v = true.
Proof.
  intros Hv. destruct v as [| | | | |table]; try done. simpl.
  pose proof (decodeEntries_fresh table (entries cur) Hv) as H.
  by destruct (fold_left json.decodeEntry table (entries cur, None)).
Qed.

Lemma decodeField_saved cur e member : (json.decodeField (cur, Some e) member).2 = Some e.
Proof.
  unfold json.decodeField. destruct (json.unquote member.1); [|done].
  destruct (json.isBinaries s); [apply decodeBinaries_saved | done].
Qed.

Lemma decodeField_fresh cur member :
  okBody member.1 = true → wellQuoted member.2 = true →
  (json.decodeField (cur, None) member).2 = None
  ↔ (if namesBinaries member.1 then fitsMap member.2 else true) = true.
Proof.
  intros Hk Hv. unfold json.decodeField, namesBinaries.
  destruct (okBody_unquote _ Hk) as [key ->].
  destruct (json.isBinaries key); [by apply decodeBinaries_fresh | done].
Qed.

Lemma decodeFields_saved members cur e :
  (fold_left json.decodeField members (cur, Some e)).2 = Some e.
Proof.
  revert cur. induction members as [|member members IH]; intros cur; [done|]. cbn [fold_left].
  pose proof (decodeField_saved cur e member) as H.
  destruct (json.decodeField (cur, Some e) member) as [cur' saved]. simpl in H. subst saved.
  apply IH.
Qed.

Lemma decodeFields_fresh members cur :
  membersOK members = true →
  (fold_left json.decodeField members (cur, None)).2 = None
  ↔ forallb (λ member, if namesBinaries member.1 then fitsMap member.2 else true) members
    = true.
Proof.
  revert cur. induction members as [|[key val] members IH]; intros cur Hok; [done|].
  simpl in Hok. apply andb_true_iff in Hok as [Hm Hok]. apply andb_true_iff in Hm as [Hk Hv].
  cbn [fold_left forallb]. rewrite andb_true_iff.
  pose proof (decodeField_fresh cur (key, val) Hk Hv) as H.
  destruct (json.decodeField (cur, None) (key, val)) as [cur' [e|]]; simpl in H.
  - rewrite decodeFields_saved. split; [done|]. intros [Hf _]. by apply H in Hf.
  - rewrite IH by done. cbn [snd] in *.
    split; [intros ?; split; [by apply H | done] | by intros [_ ?]].
Qed.

(** The decoder accepts exactly the scanned values that fit a [PlanInfo]. *)
Lemma decode_fits v :
  wellQuoted v = true →
  (fitsPlanInfo v = true → ∃ p, json.decode v = inl p)
  ∧ (fitsPlanInfo v = false → ∃ err, json.decode v = inr err).
Proof.
  intros Hv. destruct v as [| | | | |members]; simpl; try (split; [done | by eexists]).
  - split; [by eexists | done].
  - pose proof (decodeFields_fresh members None Hv) as H.
    destruct (fold_left json.decodeField members (None, None)) as [b [e|]]; simpl in H.
    + split; [|by eexists]. intros Hf. by apply H in Hf.
    + split; [by eexists|]. intros Hf. destruct H as [H _]. by rewrite H in Hf.
Qed.

Section ParserFacts.

Variable neturl_Parse : string → option error.
Variable json_Error : json.Error → string.
Variable DownloadPlanInfoFromURL_env : string → World → gset string * (string + error).

Local Abbreviation resolveInfo := (planinfo.resolveInfo neturl_Parse DownloadPlanInfoFromURL_env).
Local Abbreviation ParsePlanInfo := (planinfo.ParsePlanInfo neturl_Parse json_Error DownloadPlanInfoFromURL_env).

(** C8 (amended): once the input is trimmed and resolved to the text [s],
    [ParsePlanInfo] returns the error "could not parse plan info: " followed
    by the diagnostic of the decoder, and no [PlanInfo], whenever [s] is
    malformed JSON and whenever its value does not fit the type [PlanInfo]:
    the top-level value is neither an object nor [null], or the value of a
    member that names the field binaries is neither an object nor [null],
    or a value in that table is neither a string nor [null].  For every
    other text it returns a [PlanInfo], also when no member names the field
    binaries and when other members are present. *)
Theorem ParsePlanInfo_decode_error infoStr w w' s :
  resolveInfo infoStr w = (w', inl s) →
  (∀ err, json.scan s = inr err →
     ParsePlanInfo infoStr w =
     (w', inr ("could not parse plan info: " ++ json_Error (json.errSyntax err))))
  ∧ (∀ v, json.scan s = inl v → fitsPlanInfo v = false →
     ∃ err, json.Unmarshal s = inr err
            ∧ ParsePlanInfo infoStr w =
              (w', inr ("could not parse plan info: " ++ json_Error err)))
  ∧ (∀ v, json.scan s = inl v → fitsPlanInfo v = true →
     ∃ p, json.Unmarshal s = inl p ∧ ParsePlanInfo infoStr w = (w', inl p)).
Proof.
  intros Hres. unfold planinfo.ParsePlanInfo, json.Unmarshal. rewrite Hres. split_and!.
  - by intros err ->.
  - intros v Hs Hf. rewrite Hs.
    destruct (proj2 (decode_fits v (scan_wellQuoted _ _ Hs)) Hf) as [err ->]. by eexists.
  - intros v Hs Hf. rewrite Hs.
    destruct (proj1 (decode_fits v (scan_wellQuoted _ _ Hs)) Hf) as [p ->]. by eexists.
Qed.

End ParserFacts.

(** The witness of C8 (amended): the text [:[] is malformed JSON, and it
    is no URL because its scheme is missing. *)
Lemma ParsePlanInfo_decode_error_witness :
  planinfo.ParsePlanInfo exampleParse exampleError exampleFetch ":[" emptyWorld =
  (emptyWorld, inr "could not parse plan info: syntax error").
Proof.
  refine (proj1 (ParsePlanInfo_decode_error exampleParse exampleError exampleFetch
                   ":[" emptyWorld emptyWorld ":[" _)
            (json.invalidCharacter ":" "looking for beginning of value") _);
    vm_compute; reflexivity.
Defined.

(** C8 (counterexample): the text [{"foo":1}] is well-formed JSON that
    does not have the shape of a plan-info document, and [ParsePlanInfo]
    returns a [PlanInfo] for it. *)
Lemma ParsePlanInfo_accepts_other_shape :
  let s := "{" ++ DQ ++ "foo" ++ DQ ++ ":1}" in
  json.scan s = inl (json.Object [("foo", json.Number "1")])
  ∧ conformsToShape (json.Object [("foo", json.Number "1")]) = false
  ∧ fitsPlanInfo (json.Object [("foo", json.Number "1")]) = true
  ∧ planinfo.ParsePlanInfo exampleParse exampleError exampleFetch s emptyWorld =
    (emptyWorld, inl (mkPlanInfo None)).
Proof. split_and!; vm_compute; reflexivity. Qed.

Section RoundTrip.

Variable parseRest : string → string → option error.
Variable setFragment : string → option error.
Variable strconv_Quote : string → string.
Variable json_Error : json.Error → string.
Variable DownloadPlanInfoFromURL_env : string → World → gset string * (string + error).

(** C6 (amended): for every [PlanInfo] whose keys and values are
    well-formed UTF-8, [ParsePlanInfo] applied to its JSON serialization
    returns a [PlanInfo] equal to it, without an error and without any call
    outside the process. *)
Theorem ParsePlanInfo_Marshal p w :
  validPlanInfo p →
  planinfo.ParsePlanInfo (neturl.Parse parseRest setFragment strconv_Quote) json_Error
    DownloadPlanInfoFromURL_env (json.Marshal p) w = (w, inl p).
Proof.
  intros Hv. unfold planinfo.ParsePlanInfo, planinfo.resolveInfo.
  rewrite TrimSpace_Marshal.
  destruct (Parse_Marshal parseRest setFragment strconv_Quote p) as [err ->].
  by rewrite Unmarshal_Marshal.
Qed.

End RoundTrip.

(** C6 (amended) at a plan with two platforms, of which the URLs hold bytes
    that the encoder escapes and a rune of two bytes. *)
Lemma ParsePlanInfo_Marshal_witness :
  planinfo.ParsePlanInfo exampleParse exampleError exampleFetch (json.Marshal examplePlan) emptyWorld
  = (emptyWorld, inl examplePlan).
Proof.
  apply (ParsePlanInfo_Marshal (λ _ _, None) (λ _, None) (λ s, DQ ++ s ++ DQ)
           exampleError exampleFetch examplePlan emptyWorld).
  unfold validPlanInfo, examplePlan, entries, Binaries, default.
  apply map_Forall_insert_2; [split; vm_compute; reflexivity|].
  apply map_Forall_singleton. split; vm_compute; reflexivity.
Defined.

(** C6 (counterexample): a key that is not well-formed UTF-8 comes back
    as the replacement rune. *)
Lemma ParsePlanInfo_Marshal_invalid_utf8 :
  let p := mkPlanInfo (Some {[ strings.bytes [255] := "v" ]}) in
  planinfo.ParsePlanInfo exampleParse exampleError exampleFetch (json.Marshal p) emptyWorld
  = (emptyWorld, inl (mkPlanInfo (Some {[ utf8.replacement := "v" ]})))
  ∧ mkPlanInfo (Some {[ utf8.replacement := "v" ]}) ≠ p.
Proof.
  split; [vm_compute; reflexivity|].
  intros H. apply (f_equal (λ q, entries (Binaries q) !! utf8.replacement)) in H.
  vm_compute in H. discriminate.
Qed.

Section ParserMore.

Variable neturl_Parse : string → option error.
Variable json_Error : json.Error → string.
Variable DownloadPlanInfoFromURL_env : string → World → gset string * (string + error).

Local Abbreviation ParsePlanInfo :=
  (planinfo.ParsePlanInfo neturl_Parse json_Error DownloadPlanInfoFromURL_env).
Local Abbreviation DownloadPlanInfoFromURL :=
  (planinfo.DownloadPlanInfoFromURL DownloadPlanInfoFromURL_env).

(** X5: a URL stands for the plan that is served behind it: when the
    trimmed input is a URL and its download gives the serialization of a
    plan whose keys and values are well-formed UTF-8, the result is that
    plan, after this one download and no other call. *)
Theorem ParsePlanInfo_of_URL infoStr w fs p :
  neturl_Parse (strings.TrimSpace infoStr) = None →
  DownloadPlanInfoFromURL_env (strings.TrimSpace infoStr) w = (fs, inl (json.Marshal p)) →
  validPlanInfo p →
  ParsePlanInfo infoStr w
  = (record (EvDownloadPlanInfoFromURL (strings.TrimSpace infoStr) (inl (json.Marshal p))) fs w,
     inl p).
Proof.
  intros Hurl Hdl Hv. unfold planinfo.ParsePlanInfo, planinfo.resolveInfo.
  rewrite Hurl. unfold planinfo.DownloadPlanInfoFromURL. rewrite Hdl.
  by rewrite Unmarshal_Marshal.
Qed.

End ParserMore.

(** X5 at a URL, between spaces, behind which a server holds the
    serialization of a plan. *)
Lemma ParsePlanInfo_of_URL_witness :
  planinfo.ParsePlanInfo exampleParse exampleError exampleServer
    "  https://example.com/plan  " emptyWorld
  = (record (EvDownloadPlanInfoFromURL (strings.TrimSpace "  https://example.com/plan  ")
               (inl (json.Marshal (mkPlanInfo (Some {[ "any" := "https://x" ]})))))
       (files emptyWorld) emptyWorld,
     inl (mkPlanInfo (Some {[ "any" := "https://x" ]}))).
Proof.
  apply (ParsePlanInfo_of_URL exampleParse exampleError exampleServer
           "  https://example.com/plan  " emptyWorld (files emptyWorld)
           (mkPlanInfo (Some {[ "any" := "https://x" ]})));
    [vm_compute; reflexivity | vm_compute; reflexivity |].
  unfold validPlanInfo, entries, Binaries, default.
  apply map_Forall_singleton. split; vm_compute; reflexivity.
Defined.

(** ** The URL check, the parser and white space *)

Lemma getSchemeFrom_no_colon seen s rawURL :
  strings.ContainsByte s ":" = false →
  neturl.getSchemeFrom seen s rawURL = inl (EmptyString, rawURL).
Proof.
  revert seen. induction s as [|c s IH]; intros seen; [done|].
  cbn [strings.ContainsByte neturl.getSchemeFrom].
  intros [Hc Hs]%orb_false_iff.
  destruct (neturl.isLetter c); [by apply IH|].
  destruct (_ || _ || _ || _); [destruct seen; [done | by apply IH]|].
  by rewrite Hc.
Qed.

Lemma Cut_fst_ContainsByte s sep b :
  strings.ContainsByte s b = false → strings.ContainsByte (strings.Cut s sep).1 b = false.
Proof.
  induction s as [|c s IH]; [done|]. cbn [strings.ContainsByte strings.Cut].
  intros [Hc Hs]%orb_false_iff. destruct (Ascii.eqb c sep); [done|].
  destruct (strings.Cut s sep) as [x y] eqn:E. cbn [fst strings.ContainsByte].
  rewrite Hc. by apply IH.
Qed.

Lemma Cut_snd_ContainsByte s sep b :
  strings.ContainsByte s b = false → strings.ContainsByte (strings.Cut s sep).2 b = false.
Proof.
  induction s as [|c s IH]; [done|]. cbn [strings.ContainsByte strings.Cut].
  intros [Hc Hs]%orb_false_iff. destruct (Ascii.eqb c sep); [done|].
  destruct (strings.Cut s sep) as [x y] eqn:E. cbn [snd]. by apply IH.
Qed.

Lemma Cut_fst_CTL s sep :
  neturl.stringContainsCTLByte s = false →
  neturl.stringContainsCTLByte (strings.Cut s sep).1 = false.
Proof.
  induction s as [|c s IH]; [done|]. cbn [neturl.stringContainsCTLByte strings.Cut].
  intros [Hc Hs]%orb_false_iff. destruct (Ascii.eqb c sep); [done|].
  destruct (strings.Cut s sep) as [x y] eqn:E. cbn [fst neturl.stringContainsCTLByte].
  rewrite Hc. by apply IH.
Qed.

Lemma Cut_fst_prefix2 s sep :
  Ascii.eqb "/" sep = false →
  String.prefix "//" (strings.Cut s sep).1 = String.prefix "//" s.
Proof.
  intros Hsep%Ascii.eqb_neq. destruct s as [|c [|d s]]; [done| |].
  - cbn [strings.Cut]. destruct (Ascii.eqb c sep); cbn [fst String.prefix];
      by destruct (ascii_dec "/" c).
  - cbn [strings.Cut]. destruct (Ascii.eqb_spec c sep) as [->|Hc].
    + cbn [fst String.prefix]. by destruct (ascii_dec "/" sep).
    + destruct (Ascii.eqb_spec d sep) as [->|Hd].
      * cbn [fst String.prefix]. destruct (ascii_dec "/" c); [|done].
        by destruct (ascii_dec "/" sep).
      * destruct (strings.Cut s sep). cbn [fst String.prefix].
        destruct (ascii_dec "/" c); [|done].
        destruct (ascii_dec "/" d); [by destruct s0, s | done].
Qed.

Section RestFacts.

Variable parseAuthority : string → option error.
Variable strconv_Quote : string → string.

Lemma unescape_no_percent s :
  strings.ContainsByte s "%" = false → neturl.unescape strconv_Quote s = None.
Proof.
  induction s as [|c s IH]; [done|]. cbn [strings.ContainsByte neturl.unescape].
  intros [-> Hs]%orb_false_iff. by apply IH.
Qed.

Lemma parse_plain u :
  plain u = true →
  neturl.parse (neturl.parseRest parseAuthority strconv_Quote) u = None.
Proof.
  unfold plain. intros [[[Hctl%negb_true_iff Hcolon%negb_true_iff]%andb_true_iff
    Hpct%negb_true_iff]%andb_true_iff Hsl%negb_true_iff]%andb_true_iff.
  unfold neturl.parse. rewrite Hctl.
  destruct (String.eqb u "*"); [done|].
  unfold neturl.getScheme. rewrite getSchemeFrom_no_colon by done.
  assert (neturl.parseRest parseAuthority strconv_Quote EmptyString (strings.Cut u "?").1 = None)
    as Hrest.
  { unfold neturl.parseRest. rewrite Cut_fst_prefix2, Hsl by done.
    rewrite andb_false_r. apply unescape_no_percent. by apply Cut_fst_ContainsByte. }
  destruct (negb (String.prefix "/" _)); [|done].
  cbn [negb String.eqb].
  rewrite Cut_fst_ContainsByte; [done|]. by apply Cut_fst_ContainsByte.
Qed.

End RestFacts.

Section RestFacts2.

Variable parseAuthority : string → option error.
Variable strconv_Quote : string → string.

Lemma ParseURL_plain s :
  plain s = true → neturl.ParseURL parseAuthority strconv_Quote s = None.
Proof.
  intros Hs. unfold neturl.ParseURL, neturl.Parse.
  destruct (strings.Cut s "#") as [u frag] eqn:E.
  assert (u = (strings.Cut s "#").1) as Hu by by rewrite E.
  assert (frag = (strings.Cut s "#").2) as Hf by by rewrite E.
  unfold plain in Hs.
  apply andb_true_iff in Hs as [[[Hctl%negb_true_iff Hcolon%negb_true_iff]%andb_true_iff
    Hpct%negb_true_iff]%andb_true_iff Hsl%negb_true_iff].
  rewrite parse_plain.
  - destruct (String.eqb frag EmptyString); [done|].
    unfold neturl.setFragment. rewrite unescape_no_percent; [done|].
    subst frag. by apply Cut_snd_ContainsByte.
  - unfold plain. subst u.
    rewrite Cut_fst_CTL, !Cut_fst_ContainsByte, Cut_fst_prefix2, Hsl by done. done.
Qed.

End RestFacts2.

(** ** Trimming *)

Lemma trimRight_idemp s : strings.trimRight (strings.trimRight s) = strings.trimRight s.
Proof.
  induction s as [|c s IH]; [done|]. cbn [strings.trimRight].
  destruct (existsb _ strings.spaceRunes) eqn:E; [done|].
  cbn [strings.trimRight]. by rewrite IH, E.
Qed.

Lemma trimLeftFrom_noSpaceAhead skip s : noSpaceAhead (strings.trimLeftFrom skip s).
Proof.
  revert skip. induction s as [|c s IH]; intros skip; [by left|].
  cbn [strings.trimLeftFrom]. destruct skip as [|k]; [|apply IH].
  destruct (List.find _ strings.spaceRunes) eqn:E; [apply IH|by right].
Qed.

Lemma trimLeftFrom_fixed s : noSpaceAhead s → strings.trimLeftFrom 0 s = s.
Proof.
  intros [->|H]; [done|]. destruct s as [|c s]; [done|].
  cbn [strings.trimLeftFrom]. by rewrite H.
Qed.

Lemma trimRight_prefix s : ∃ t, s = strings.trimRight s ++ t.
Proof.
  induction s as [|c s [t IH]]; [by exists EmptyString|].
  cbn [strings.trimRight]. destruct (existsb _ strings.spaceRunes).
  - by eexists.
  - exists t. cbn [String.append]. by rewrite <- IH.
Qed.

Lemma prefix_app e a b : String.prefix e a = true → String.prefix e (a ++ b) = true.
Proof.
  revert a. induction e as [|x e IH]; intros a; [by destruct (a ++ b)|].
  destruct a as [|y a]; [done|]. cbn [String.append String.prefix].
  destruct (ascii_dec x y); [apply IH | done].
Qed.

Lemma find_none_prefix {A} (f g : A → bool) l :
  (∀ x, g x = true → f x = true) → List.find f l = None → List.find g l = None.
Proof.
  intros Hfg. induction l as [|x l IH]; [done|]. simpl.
  destruct (f x) eqn:Ef; [done|]. destruct (g x) eqn:Eg.
  - by rewrite (Hfg x Eg) in Ef.
  - apply IH.
Qed.

Lemma trimRight_noSpaceAhead s : noSpaceAhead s → noSpaceAhead (strings.trimRight s).
Proof.
  intros [->|H]; [by left|]. right.
  destruct (trimRight_prefix s) as [t Ht].
  eapply find_none_prefix; [|exact H].
  intros e He. cbv beta. rewrite Ht. by apply prefix_app.
Qed.

Lemma TrimSpace_idemp s : strings.TrimSpace (strings.TrimSpace s) = strings.TrimSpace s.
Proof.
  unfold strings.TrimSpace.
  rewrite (trimLeftFrom_fixed (strings.trimRight _)).
  - apply trimRight_idemp.
  - apply trimRight_noSpaceAhead, trimLeftFrom_noSpaceAhead.
Qed.

Lemma asciiSpace_rune c : asciiSpace c = true → In (String c EmptyString) strings.spaceRunes.
Proof.
  unfold asciiSpace, utf8.between. intros H.
  destruct c as [[] [] [] [] [] [] [] []]; try discriminate H; vm_compute; tauto.
Qed.

Lemma trimLeftFrom_space c s :
  asciiSpace c = true → strings.trimLeftFrom 0 (String c s) = strings.trimLeftFrom 0 s.
Proof.
  intros H. cbn [strings.trimLeftFrom].
  destruct c as [[] [] [] [] [] [] [] []]; try discriminate H; by destruct s.
Qed.

Lemma trimLeftFrom_allSpace ws s :
  allSpace ws = true → strings.trimLeftFrom 0 (ws ++ s) = strings.trimLeftFrom 0 s.
Proof.
  induction ws as [|c ws IH]; [done|]. cbn [allSpace String.append].
  intros [Hc Hws]%andb_true_iff. rewrite trimLeftFrom_space by done. by apply IH.
Qed.

Lemma trimRight_allSpace ws : allSpace ws = true → strings.trimRight ws = EmptyString.
Proof.
  induction ws as [|c ws IH]; [done|]. cbn [allSpace strings.trimRight].
  intros [Hc Hws]%andb_true_iff. rewrite IH by done.
  destruct (existsb _ strings.spaceRunes) eqn:E; [done|].
  exfalso. apply not_true_iff_false in E. apply E, existsb_exists.
  exists (String c EmptyString). split; [by apply asciiSpace_rune | apply String.eqb_refl].
Qed.

Lemma trimRight_app_allSpace s ws :
  allSpace ws = true → strings.trimRight (s ++ ws) = strings.trimRight s.
Proof.
  intros Hws. induction s as [|c s IH]; [by apply trimRight_allSpace|].
  cbn [String.append strings.trimRight]. by rewrite IH.
Qed.

Lemma spaceRunes_shape e :
  In e strings.spaceRunes → (∃ c, e = String c EmptyString) ∨ allHigh e = true.
Proof.
  intros H. repeat (destruct H as [<-|H]; [first [by left; eexists | by right]|]). destruct H.
Qed.

Lemma asciiSpace_isASCII c : asciiSpace c = true → utf8.isASCII c = true.
Proof. destruct c as [[] [] [] [] [] [] [] []]; by vm_compute. Qed.

Lemma prefix_nil s : String.prefix EmptyString s = true.
Proof. by destruct s. Qed.

Lemma prefix_high_space e ws :
  allHigh e = true → allSpace ws = true → String.prefix e ws = String.prefix e EmptyString.
Proof.
  destruct e as [|x e]; [intros; by rewrite !prefix_nil|].
  destruct ws as [|w ws]; [done|]. cbn [allHigh allSpace String.prefix].
  intros [Hx _]%andb_true_iff [Hw _]%andb_true_iff.
  destruct (ascii_dec x w) as [->|?]; [|done].
  apply asciiSpace_isASCII in Hw. by rewrite Hw in Hx.
Qed.

Lemma prefix_app_space e c s ws :
  (∃ x, e = String x EmptyString) ∨ allHigh e = true →
  allSpace ws = true →
  String.prefix e (String c s ++ ws) = String.prefix e (String c s).
Proof.
  intros [[x ->]|He] Hws.
  - cbn [String.append String.prefix]. destruct (ascii_dec x c); [|done].
    by rewrite !prefix_nil.
  - revert c s He. induction e as [|x e IH]; intros c s He; [done|].
    cbn [String.append String.prefix]. destruct (ascii_dec x c); [|done].
    cbn [allHigh] in He. apply andb_true_iff in He as [_ He].
    destruct s as [|d s]; [by apply prefix_high_space|]. by apply IH.
Qed.

Lemma find_ext_In {A} (f g : A → bool) l :
  (∀ x, In x l → f x = g x) → List.find f l = List.find g l.
Proof.
  induction l as [|x l IH]; [done|]. intros H. simpl.
  rewrite (H x) by by left. destruct (g x); [done|]. apply IH. intros y Hy. apply H. by right.
Qed.

Lemma prefix_length e s : String.prefix e s = true → (String.length e ≤ String.length s)%nat.
Proof.
  revert s. induction e as [|x e IH]; intros s; [simpl; lia|].
  destruct s as [|y s]; [done|]. cbn [String.prefix String.length].
  destruct (ascii_dec x y); [|done]. intros H%IH. lia.
Qed.

Lemma trimLeftFrom_nil_allSpace ws :
  allSpace ws = true → strings.trimLeftFrom 0 ws = EmptyString.
Proof.
  intros H. rewrite <- (append_nil_r ws). by rewrite trimLeftFrom_allSpace.
Qed.

Lemma trimLeftFrom_app_space ws skip s :
  allSpace ws = true → (skip ≤ String.length s)%nat →
  strings.trimLeftFrom skip (s ++ ws) = strings.trimLeftFrom skip s ++ ws
  ∨ (strings.trimLeftFrom skip s = EmptyString
     ∧ strings.trimLeftFrom skip (s ++ ws) = EmptyString).
Proof.
  intros Hws. revert skip. induction s as [|c s IH]; intros skip Hskip.
  - right. assert (skip = 0) as -> by (simpl in Hskip; lia).
    split; [done|]. by apply trimLeftFrom_nil_allSpace.
  - change (String c s ++ ws) with (String c (s ++ ws)).
    cbn [strings.trimLeftFrom]. destruct skip as [|k].
    + change (String c (s ++ ws)) with (String c s ++ ws).
      rewrite (find_ext_In _ (λ e, String.prefix e (String c s)));
        [|intros e He; apply prefix_app_space; [by apply spaceRunes_shape | done]].
      destruct (List.find _ strings.spaceRunes) as [e|] eqn:E; [|by left].
      apply find_some in E as [_ He%prefix_length]. apply IH. simpl in He. lia.
    + apply IH. simpl in Hskip. lia.
Qed.

Lemma TrimSpace_around ws1 s ws2 :
  allSpace ws1 = true → allSpace ws2 = true →
  strings.TrimSpace (ws1 ++ s ++ ws2) = strings.TrimSpace s.
Proof.
  intros H1 H2. unfold strings.TrimSpace. rewrite trimLeftFrom_allSpace by done.
  destruct (trimLeftFrom_app_space ws2 0 s H2) as [->|[-> ->]]; [lia| |done].
  by apply trimRight_app_allSpace.
Qed.

(** ** The parser at its edges *)

Lemma Cut_app a b sep :
  strings.ContainsByte a sep = false →
  strings.Cut (a ++ b) sep = (a ++ (strings.Cut b sep).1, (strings.Cut b sep).2).
Proof.
  induction a as [|c a IH]; [cbn [String.append]; by destruct (strings.Cut b sep)|].
  cbn [strings.ContainsByte String.append strings.Cut].
  intros [-> Ha]%orb_false_iff. by rewrite (IH Ha).
Qed.

Lemma ContainsByte_app a b c :
  strings.ContainsByte (a ++ b) c = strings.ContainsByte a c || strings.ContainsByte b c.
Proof. induction a as [|x a IH]; [done|]. simpl. by rewrite IH, orb_assoc. Qed.

Section ObjectText.

Variable parseRest : string → string → option error.
Variable setFragment : string → option error.
Variable strconv_Quote : string → string.

(** A text that starts with a brace and has a colon in the first segment
    of its path is no URL. *)
Lemma Parse_object a b :
  inFirstSegment a = true →
  is_Some (neturl.Parse parseRest setFragment strconv_Quote (String "{" (a ++ String ":" b))).
Proof.
  unfold inFirstSegment.
  intros [[Hsl%negb_true_iff Hq%negb_true_iff]%andb_true_iff Hh%negb_true_iff]%andb_true_iff.
  unfold neturl.Parse.
  rewrite (Cut_cons "{") by reflexivity. rewrite (Cut_app a) by done.
  rewrite (Cut_cons ":") by reflexivity. cbn [fst snd].
  set (b1 := (strings.Cut b "#").1).
  assert (is_Some (neturl.parse parseRest (String "{" (a ++ String ":" b1)))) as [err ->];
    [|by eexists].
  unfold neturl.parse.
  destruct (neturl.stringContainsCTLByte _); [by eexists|].
  change (String.eqb (String "{" ?x) "*") with false. cbv beta iota.
  change (neturl.getScheme (String "{" ?x)) with (@inl (string * string) error (EmptyString, String "{" x)).
  cbv beta iota.
  rewrite (Cut_cons "{") by reflexivity. rewrite (Cut_app a) by done.
  rewrite (Cut_cons ":") by reflexivity. cbn [fst snd].
  change (negb (String.prefix "/" (String "{" ?x))) with true. cbv beta iota.
  cbn [negb String.eqb].
  rewrite (Cut_cons "{") by reflexivity. rewrite (Cut_app a) by done.
  rewrite (Cut_cons ":") by reflexivity. cbn [fst snd strings.ContainsByte].
  rewrite ContainsByte_app. cbn [strings.ContainsByte Ascii.eqb Bool.eqb].
  rewrite orb_true_r. by eexists.
Qed.

End ObjectText.

Section ParserEdges.

Variable neturl_Parse : string → option error.
Variable json_Error : json.Error → string.
Variable DownloadPlanInfoFromURL_env : string → World → gset string * (string + error).

Local Abbreviation ParsePlanInfo :=
  (planinfo.ParsePlanInfo neturl_Parse json_Error DownloadPlanInfoFromURL_env).

(** X6: ASCII white space around the input makes no difference to
    [ParsePlanInfo]. *)
Theorem ParsePlanInfo_ignores_space ws1 infoStr ws2 w :
  allSpace ws1 = true → allSpace ws2 = true →
  ParsePlanInfo (ws1 ++ infoStr ++ ws2) w = ParsePlanInfo infoStr w.
Proof.
  intros H1 H2. unfold planinfo.ParsePlanInfo, planinfo.resolveInfo.
  by rewrite TrimSpace_around.
Qed.

End ParserEdges.

Section ParserEdges2.

Variable parseRest : string → string → option error.
Variable setFragment : string → option error.
Variable parseAuthority : string → option error.
Variable strconv_Quote : string → string.
Variable json_Error : json.Error → string.
Variable DownloadPlanInfoFromURL_env : string → World → gset string * (string + error).

(** X7: a text that, once trimmed, opens with a brace and has a colon before
    any slash, question mark or hash is decoded as it is: nothing is
    downloaded, whatever the rest of the text and of [url.Parse]. *)
Theorem ParsePlanInfo_object_direct infoStr a b w :
  strings.TrimSpace infoStr = String "{" (a ++ String ":" b) →
  inFirstSegment a = true →
  planinfo.ParsePlanInfo (neturl.Parse parseRest setFragment strconv_Quote) json_Error
    DownloadPlanInfoFromURL_env infoStr w
  = (w, match json.Unmarshal (strings.TrimSpace infoStr) with
        | inr err => inr ("could not parse plan info: " ++ json_Error err)
        | inl planInfo => inl planInfo
        end).
Proof.
  intros Ht Ha. unfold planinfo.ParsePlanInfo, planinfo.resolveInfo. rewrite Ht.
  destruct (Parse_object parseRest setFragment strconv_Quote a b Ha) as [err ->].
  by destruct (json.Unmarshal _).
Qed.

(** X8: a text that, once trimmed, has no control byte, no colon, no percent
    sign and no two slashes at its start is a URL for [url.Parse]: the
    empty text, a word, and a JSON text without a colon are all fetched,
    not decoded. *)
Theorem ParsePlanInfo_plain_downloads infoStr w :
  plain (strings.TrimSpace infoStr) = true →
  planinfo.ParsePlanInfo (neturl.ParseURL parseAuthority strconv_Quote) json_Error
    DownloadPlanInfoFromURL_env infoStr w
  = match planinfo.DownloadPlanInfoFromURL DownloadPlanInfoFromURL_env
            (strings.TrimSpace infoStr) w with
    | (w', inr err) => (w', inr err)
    | (w', inl body) =>
        match json.Unmarshal body with
        | inr err => (w', inr ("could not parse plan info: " ++ json_Error err))
        | inl planInfo => (w', inl planInfo)
        end
    end.
Proof.
  intros Hp. unfold planinfo.ParsePlanInfo, planinfo.resolveInfo.
  by rewrite ParseURL_plain.
Qed.

(** X9: the URL check of [ValidateBasic] asks for no scheme and no host: it
    accepts every map with an entry whose keys pass the key check and whose
    values have no control byte, no colon, no percent sign and no two
    slashes at their start. *)
Theorem ValidateBasic_accepts_plain (m : BinaryDownloadURLMap) order :
  rangeOf m order →
  size m ≠ 0 →
  (∀ key val, m !! key = Some val →
     (key = "any" ∨ regexp.MatchString planinfo.osArchRx key = true) ∧ plain val = true) →
  planinfo.ValidateBasic (neturl.ParseURL parseAuthority strconv_Quote) m order = None.
Proof.
  intros Hr Hsz Hall. unfold planinfo.ValidateBasic.
  destruct (decide (size m = 0)); [done|].
  apply ValidateBasic_range_None, Forall_forall. intros [key val] Hin.
  apply ValidateBasic_entry_None. cbn [fst snd].
  apply (rangeOf_lookup m order key val Hr), Hall in Hin as [Hk Hv].
  split; [done|]. by apply ParseURL_plain.
Qed.

(** X10: the URL check of [ValidateBasic] refuses a value with a control byte
    before its fragment, and a value that starts with a colon: a map with
    such a value is rejected whatever the order of the visit. *)
Theorem ValidateBasic_rejects_value (m : BinaryDownloadURLMap) order key val :
  rangeOf m order →
  m !! key = Some val →
  neturl.stringContainsCTLByte (strings.Cut val "#").1 = true ∨ String.prefix ":" val = true →
  is_Some (planinfo.ValidateBasic (neturl.Parse parseRest setFragment strconv_Quote) m order).
Proof.
  intros Hr Hkv Hbad.
  destruct (planinfo.ValidateBasic _ m order) eqn:E; [by eexists|]. exfalso.
  unfold planinfo.ValidateBasic in E. destruct (decide (size m = 0)); [done|].
  apply ValidateBasic_range_None in E. rewrite Forall_forall in E.
  apply (rangeOf_lookup m order key val Hr) in Hkv.
  apply E, ValidateBasic_entry_None in Hkv as [_ Hurl]. cbn [fst snd] in Hurl.
  revert Hurl. unfold neturl.Parse.
  destruct (strings.Cut val "#") as [u frag] eqn:Ecut. cbn [fst] in Hbad.
  assert (is_Some (neturl.parse parseRest u)) as [err ->]; [|done].
  unfold neturl.parse. destruct Hbad as [->|Hcolon]; [by eexists|].
  destruct (neturl.stringContainsCTLByte u); [by eexists|].
  destruct val as [|c val]; [done|]. cbn [String.prefix] in Hcolon.
  destruct (ascii_dec ":" c) as [<-|]; [|done].
  rewrite Cut_cons in Ecut by reflexivity. injection Ecut as <- _.
  by eexists.
Qed.

End ParserEdges2.

(** ASCII white space around the input: a space and a tab before it, a
    line feed after it. *)
Lemma ParsePlanInfo_ignores_space_witness :
  planinfo.ParsePlanInfo exampleParse exampleError exampleFetch
    (String " " (String "009" EmptyString) ++ exampleBody ++ String "010" EmptyString) emptyWorld
  = planinfo.ParsePlanInfo exampleParse exampleError exampleFetch exampleBody emptyWorld.
Proof.
  apply (ParsePlanInfo_ignores_space exampleParse exampleError exampleFetch
           (String " " (String "009" EmptyString)) exampleBody (String "010" EmptyString)
           emptyWorld); reflexivity.
Defined.

Lemma ParsePlanInfo_object_direct_witness :
  planinfo.ParsePlanInfo exampleParse exampleError exampleFetch ("  " ++ exampleBody) emptyWorld
  = (emptyWorld, inl (mkPlanInfo (Some {[ "any" := "https://x" ]}))).
Proof.
  unfold exampleParse.
  rewrite (ParsePlanInfo_object_direct (λ _ _, None) (λ _, None) (λ s, DQ ++ s ++ DQ)
             exampleError exampleFetch ("  " ++ exampleBody)
             (DQ ++ "binaries" ++ DQ)
             ("{" ++ DQ ++ "any" ++ DQ ++ ":" ++ DQ ++ "https://x" ++ DQ ++ "}}")
             emptyWorld); [|vm_compute; reflexivity|vm_compute; reflexivity].
  vm_compute. reflexivity.
Defined.

Lemma ParsePlanInfo_plain_downloads_witness :
  planinfo.ParsePlanInfo (neturl.ParseURL (λ _, None) (λ s, DQ ++ s ++ DQ))
    exampleError exampleFetch " {} " emptyWorld
  = (mkWorld ∅ [EvDownloadPlanInfoFromURL "{}" (inr "unreachable")], inr "unreachable").
Proof.
  rewrite (ParsePlanInfo_plain_downloads (λ _, None) (λ s, DQ ++ s ++ DQ)
             exampleError exampleFetch " {} " emptyWorld); [|vm_compute; reflexivity].
  vm_compute. reflexivity.
Defined.

Lemma ValidateBasic_accepts_plain_witness :
  planinfo.ValidateBasic (neturl.ParseURL (λ _, None) (λ s, DQ ++ s ++ DQ))
    {[ "any" := "not a url" ]} [("any", "not a url")] = None.
Proof.
  apply (ValidateBasic_accepts_plain (λ _, None) (λ s, DQ ++ s ++ DQ)
           {[ "any" := "not a url" ]} [("any", "not a url")]).
  - unfold rangeOf. by rewrite map_to_list_singleton.
  - by rewrite map_size_singleton.
  - intros key val [<- <-]%lookup_singleton_Some. split; [by left | reflexivity].
Defined.

Lemma ValidateBasic_rejects_value_witness :
  is_Some (planinfo.ValidateBasic exampleParse
             {[ "any" := "https://example.com/a" ++ String "010" "b" ]}
             [("any", "https://example.com/a" ++ String "010" "b")]).
Proof.
  apply (ValidateBasic_rejects_value (λ _ _, None) (λ _, None) (λ s, DQ ++ s ++ DQ)
           {[ "any" := "https://example.com/a" ++ String "010" "b" ]}
           [("any", "https://example.com/a" ++ String "010" "b")]
           "any" ("https://example.com/a" ++ String "010" "b")).
  - unfold rangeOf. by rewrite map_to_list_singleton.
  - apply lookup_singleton_eq.
  - left. vm_compute. reflexivity.
Defined.

(** ** Destinations in the scratch directory *)

Lemma split_app a b acc :
  filepath.split (a ++ String "/" b) acc = (filepath.split a acc ++ filepath.split b EmptyString)%list.
Proof.
  revert acc. induction a as [|c a IH]; intros acc; [done|].
  cbn [String.append filepath.split]. destruct (Ascii.eqb c "/").
  - by rewrite IH.
  - apply IH.
Qed.

Lemma split_one b acc :
  hasByte "/" b = false → filepath.split b acc = [String.rev acc ++ b].
Proof.
  revert acc. induction b as [|c b IH]; intros acc; cbn [hasByte filepath.split].
  - by rewrite append_nil_r.
  - intros [-> Hb]%orb_false_iff. rewrite (IH _ Hb), rev_cons, append_assoc. done.
Qed.

Lemma joinSlash_snoc l x y :
  filepath.joinSlash ((x :: l) ++ [y])%list = filepath.joinSlash (x :: l) ++ "/" ++ y.
Proof.
  unfold filepath.joinSlash. cbn [app]. by rewrite fold_left_app.
Qed.

Lemma hasByte_ReplaceAll key : hasByte "/" (strings.ReplaceAll key "/" "-") = false.
Proof.
  induction key as [|c key IH]; [done|]. rewrite ReplaceAll_cons. cbn [hasByte].
  rewrite IH, orb_false_r. by destruct (Ascii.eqb_spec c "/") as [->|?%Ascii.eqb_neq].
Qed.

Lemma Clean_kept t :
  filepath.Clean t = t → t ≠ "/" → t ≠ "." →
  ∃ x l, rev (fold_left (filepath.cleanStep (String.prefix "/" t))
                (filepath.split t EmptyString) []) = x :: l
         ∧ (if String.prefix "/" t then "/" else EmptyString) ++ filepath.joinSlash (x :: l) = t.
Proof.
  unfold filepath.Clean. intros Ht Hroot Hdot.
  destruct (rev _) as [|x l].
  - exfalso. revert Ht. cbn [filepath.joinSlash]. rewrite append_nil_r.
    destruct (String.prefix "/" t); cbn [String.eqb Ascii.eqb Bool.eqb]; by intros <-.
  - exists x, l. split; [done|].
    revert Ht. by destruct (String.eqb _ EmptyString) eqn:E; [intros <-|].
Qed.

Lemma Clean_child t name :
  filepath.Clean t = t → t ≠ "/" → t ≠ "." →
  hasByte "/" name = false → name ≠ EmptyString → name ≠ "." → name ≠ ".." →
  filepath.Clean (t ++ String "/" name) = t ++ String "/" name.
Proof.
  intros Ht Hroot Hdot Hsl Hne Hn1 Hn2.
  assert (t ≠ EmptyString) as Hte by (intros ->; by vm_compute in Ht).
  destruct (Clean_kept t Ht Hroot Hdot) as (x & l & Hkept & Hout).
  unfold filepath.Clean.
  assert (String.prefix "/" (t ++ String "/" name) = String.prefix "/" t) as ->.
  { destruct t as [|c t]; [done|]. cbn [String.append String.prefix].
    destruct (ascii_dec "/" c); [|done]. by rewrite !prefix_nil. }
  rewrite split_app, (split_one name) by done.
  change (String.rev EmptyString ++ name) with name.
  rewrite fold_left_app. cbn [fold_left].
  assert (∀ stack, filepath.cleanStep (String.prefix "/" t) stack name = name :: stack) as ->.
  { intros stack. unfold filepath.cleanStep.
    destruct (String.eqb_spec name EmptyString); [done|].
    destruct (String.eqb_spec name "."); [done|]. cbn [orb].
    by destruct (String.eqb_spec name ".."). }
  cbn [rev]. rewrite Hkept, joinSlash_snoc.
  cbv zeta. rewrite <- append_assoc, Hout.
  change (t ++ "/" ++ name) with (t ++ String "/" name).
  destruct (String.eqb_spec (t ++ String "/" name) EmptyString) as [E|]; [|done].
  by destruct t.
Qed.

Lemma prefix_refl_app a b : String.prefix a (a ++ b) = true.
Proof.
  induction a as [|c a IH]; [by destruct b|]. cbn [String.append String.prefix].
  by destruct (ascii_dec c c).
Qed.

Lemma MatchString_has_slash key :
  regexp.MatchString planinfo.osArchRx key = true → hasByte "/" key = true.
Proof.
  intros H. apply MatchString_matches in H as (pre & mid & post & -> & Hm).
  apply fullMatch_matches, fullMatch_osArchRx in Hm as (os & arch & -> & _).
  rewrite !hasByte_app. cbn [String.append hasByte Ascii.eqb Bool.eqb].
  by rewrite !orb_true_r.
Qed.

Lemma ReplaceAll_name key :
  key = "any" ∨ regexp.MatchString planinfo.osArchRx key = true →
  let name := strings.ReplaceAll key "/" "-" in
  name ≠ EmptyString ∧ name ≠ "." ∧ name ≠ "..".
Proof.
  intros [->|H]; [by vm_compute|]. apply MatchString_has_slash in H.
  assert (hasByte "-" (strings.ReplaceAll key "/" "-") = true) as Hd.
  { induction key as [|c key IH]; [done|]. rewrite ReplaceAll_cons. cbn [hasByte] in *.
    destruct (Ascii.eqb_spec c "/") as [->|Hc]; [done|]. simpl in H.
    rewrite IH by done. apply orb_true_r. }
  cbv zeta. split_and!; intros E; by rewrite E in Hd.
Qed.

Section Destinations.

(** X11: for a key that passes the key check of [ValidateBasic], the
    destination of the download is the child of the scratch directory that
    is named by the key with a dash for every slash, so it lies inside the
    scratch directory. *)
Theorem dstRootOf_inside tempDir key :
  filepath.Clean tempDir = tempDir → tempDir ≠ "/" → tempDir ≠ "." →
  key = "any" ∨ regexp.MatchString planinfo.osArchRx key = true →
  planinfo.dstRootOf tempDir key = tempDir ++ String "/" (strings.ReplaceAll key "/" "-")
  ∧ within tempDir (planinfo.dstRootOf tempDir key) = true
  ∧ planinfo.dstRootOf tempDir key ≠ tempDir.
Proof.
  intros Ht Hroot Hdot Hkey.
  destruct (ReplaceAll_name key Hkey) as (Hn0 & Hn1 & Hn2).
  assert (tempDir ≠ EmptyString) as Hte by (intros ->; by vm_compute in Ht).
  assert (planinfo.dstRootOf tempDir key = tempDir ++ String "/" (strings.ReplaceAll key "/" "-")) as ->.
  { unfold planinfo.dstRootOf, filepath.Join.
    destruct (String.eqb_spec tempDir EmptyString); [done|].
    destruct (String.eqb_spec (strings.ReplaceAll key "/" "-") EmptyString); [done|].
    change (tempDir ++ "/" ++ ?x) with (tempDir ++ String "/" x).
    apply Clean_child; auto using hasByte_ReplaceAll. }
  split_and!; [done| |].
  - unfold within. change (tempDir ++ String "/" ?x) with (tempDir ++ "/" ++ x).
    rewrite <- append_assoc, prefix_refl_app. apply orb_true_r.
  - intros E. apply (f_equal String.length) in E. rewrite !length_append in E.
    simpl in E. lia.
Qed.

End Destinations.


Lemma joinSlash_snoc_length l y :
  (String.length (filepath.joinSlash l) ≤ String.length (filepath.joinSlash (l ++ [y])))%nat.
Proof.
  destruct l as [|x l]; [simpl; lia|].
  rewrite joinSlash_snoc, !length_append. lia.
Qed.

Section Escapes.


End Escapes.

Lemma dstRootOf_inside_witness :
  planinfo.dstRootOf "/tmp/os-arch-downloads123" "linux/amd64"
  = "/tmp/os-arch-downloads123/linux-amd64".
Proof.
  apply (dstRootOf_inside "/tmp/os-arch-downloads123" "linux/amd64");
    [vm_compute; reflexivity | discriminate | discriminate | right; vm_compute; reflexivity].
Defined.


(** ** The commands *)

Lemma Split_spec path :
  ∃ dir name, filepath.Split path = (dir, name) ∧ path = dir ++ name
    ∧ hasByte "/" name = false ∧ (dir = EmptyString ∨ ∃ d, dir = d ++ "/").
Proof.
  induction path as [|c path (dir & name & IH & Hp & Hn & Hd)].
  - exists EmptyString, EmptyString. split_and!; auto.
  - cbn [filepath.Split]. rewrite IH. destruct dir as [|x dir].
    + cbn [String.append] in Hp. subst name.
      destruct (Ascii.eqb_spec c "/") as [->|Hc].
      * exists "/", path. split_and!; auto. right. by exists EmptyString.
      * exists EmptyString, (String c path). split_and!; auto.
        cbn [hasByte]. rewrite Hn, orb_false_r. by apply Ascii.eqb_neq.
    + exists (String c (String x dir)), name. split_and!; auto.
      * cbn [String.append]. by rewrite Hp.
      * right. destruct Hd as [|[d Hd]]; [done|]. exists (String c d).
        cbn [String.append]. by rewrite Hd.
Qed.

(** X13: the default name of the daemon is the value of [DAEMON_NAME] when that
    is set and not empty, whatever it holds; otherwise it is what follows
    the last slash of the path of the executable: it has no slash, and it
    is empty when that path ends with a slash. *)
Theorem getDefaultDaemonName_spec environ arg0 args :
  ∃ name, cli.getDefaultDaemonName environ (arg0 :: args) = Returned name
    ∧ ((name = cli.Getenv environ "DAEMON_NAME" ∧ name ≠ EmptyString)
       ∨ (cli.Getenv environ "DAEMON_NAME" = EmptyString
          ∧ ∃ dir, arg0 = dir ++ name ∧ hasByte "/" name = false
                   ∧ (dir = EmptyString ∨ ∃ d, dir = d ++ "/"))).
Proof.
  unfold cli.getDefaultDaemonName.
  destruct (cli.Getenv environ "DAEMON_NAME") as [|c v] eqn:E.
  - destruct (Split_spec arg0) as (dir & name & Hs & Hrest).
    exists name. cbn [String.length Nat.eqb]. rewrite Hs. split; [done|].
    right. split; [done|]. by exists dir.
  - exists (String c v). cbn [String.length Nat.eqb]. split; [done|]. by left.
Qed.

Section CommandFacts.

Variables Content Context AccAddress Coins Msg : Type.
Variables FlagTitle FlagDescription FlagDeposit : string.
Variable NewSoftwareUpgradeProposal : string → string → cli.Plan → Content.
Variable SoftwareUpgradeProposal_Plan : Content → option cli.Plan.
Variable GetClientTxContext_env : cli.FlagSet → World → Context + error.
Variable GetFromAddress : Context → AccAddress.
Variable ParseCoinsNormalized : string → Coins + error.
Variable NewMsgSubmitProposal : Content → Coins → AccAddress → Msg + error.
Variable GenerateOrBroadcastTxCLI_env : Context → cli.FlagSet → Msg → World → option error.
Variable neturl_Parse : string → option error.
Variable json_Error : json.Error → string.
Variable DownloadPlanInfoFromURL_env : string → World → gset string * (string + error).
Variable TempDir_env : World → string.
Variable Mkdir_env : World → string + error.
Variable DownloadUpgrade_env :
  string → string → string → World → gset string * outcome (option error).
Variable RemoveAll_env : string → World → option (gset string * error).
Variables rangeBasic rangeURLs : BinaryDownloadURLMap → list (string * string).

Local Abbreviation RunE :=
  (cli.RunE Content Context AccAddress Coins Msg FlagTitle FlagDescription FlagDeposit
     NewSoftwareUpgradeProposal SoftwareUpgradeProposal_Plan GetClientTxContext_env
     GetFromAddress ParseCoinsNormalized NewMsgSubmitProposal GenerateOrBroadcastTxCLI_env
     neturl_Parse json_Error DownloadPlanInfoFromURL_env TempDir_env Mkdir_env
     DownloadUpgrade_env RemoveAll_env rangeBasic rangeURLs).
Local Abbreviation submit :=
  (cli.submit Content Context AccAddress Coins Msg FlagDeposit GetFromAddress
     ParseCoinsNormalized NewMsgSubmitProposal GenerateOrBroadcastTxCLI_env).
Local Abbreviation parseArgsToContent :=
  (cli.parseArgsToContent Content FlagTitle FlagDescription NewSoftwareUpgradeProposal).
Local Abbreviation ParsePlanInfo :=
  (planinfo.ParsePlanInfo neturl_Parse json_Error DownloadPlanInfoFromURL_env).
Local Abbreviation ValidateFull :=
  (planinfo.ValidateFull neturl_Parse TempDir_env Mkdir_env DownloadUpgrade_env
     RemoveAll_env).

Lemma submit_sent clientCtx cmd content s s' res :
  submit clientCtx cmd content s = (s', res) →
  cli.sent s' ≠ cli.sent s →
  ∃ depositStr deposit msg,
    cli.GetString cmd FlagDeposit = inl depositStr
    ∧ ParseCoinsNormalized depositStr = inl deposit
    ∧ NewMsgSubmitProposal content deposit (GetFromAddress clientCtx) = inl msg
    ∧ cli.world s' = cli.world s
    ∧ cli.sent s' = (cli.sent s ++ [msg])%list
    ∧ res = Returned (GenerateOrBroadcastTxCLI_env clientCtx cmd msg (cli.world s)).
Proof.
  unfold cli.submit.
  destruct (cli.GetString cmd FlagDeposit) as [depositStr|err];
    [|intros [= <- _] Hne; by destruct Hne].
  destruct (ParseCoinsNormalized depositStr) as [deposit|err] eqn:Ed;
    [|intros [= <- _] Hne; by destruct Hne].
  destruct (NewMsgSubmitProposal _ _ _) as [msg|err] eqn:Em;
    [|intros [= <- _] Hne; by destruct Hne].
  intros [= <- <-] _. exists depositStr, deposit, msg. by split_and!.
Qed.

(** X14: when the handler hands a message to the broadcaster, it hands one
    message: the one that [NewMsgSubmitProposal] builds from the content
    that [parseArgsToContent] returned, and the handler ends as the
    broadcast ends.  Unless the flag [no-validate] is set, the plan that
    was validated is the plan of that same content: its info was parsed and
    the plan info passed [ValidateFull].  So the content of a plan that
    fails the validation is never submitted. *)
Theorem RunE_sends_validated cmd args s s' res :
  RunE cmd args s = (s', res) →
  cli.sent s' ≠ cli.sent s →
  ∃ clientCtx name rest content depositStr deposit msg,
    args = name :: rest
    ∧ GetClientTxContext_env cmd (cli.world s) = inl clientCtx
    ∧ parseArgsToContent cmd name = inl content
    ∧ cli.GetString cmd FlagDeposit = inl depositStr
    ∧ ParseCoinsNormalized depositStr = inl deposit
    ∧ NewMsgSubmitProposal content deposit (GetFromAddress clientCtx) = inl msg
    ∧ cli.sent s' = (cli.sent s ++ [msg])%list
    ∧ res = Returned (GenerateOrBroadcastTxCLI_env clientCtx cmd msg (cli.world s'))
    ∧ ((cli.GetBool cmd cli.FlagNoValidate = inl true ∧ cli.world s' = cli.world s)
       ∨ (cli.GetBool cmd cli.FlagNoValidate = inl false
          ∧ ∃ plan daemonName w1 planInfo,
              SoftwareUpgradeProposal_Plan content = Some plan
              ∧ cli.GetString cmd cli.FlagDaemonName = inl daemonName
              ∧ ParsePlanInfo (cli.Info plan) (cli.world s) = (w1, inl planInfo)
              ∧ ValidateFull planInfo (rangeBasic (entries (Binaries planInfo)))
                  (rangeURLs (entries (Binaries planInfo))) daemonName w1
                = (cli.world s', Returned None))).
Proof.
  unfold cli.RunE.
  destruct (GetClientTxContext_env cmd (cli.world s)) as [clientCtx|err] eqn:Ec;
    [|intros [= <- _] Hne; by destruct Hne].
  destruct args as [|name rest]; [intros [= <- _] Hne; by destruct Hne|].
  destruct (parseArgsToContent cmd name) as [content|err] eqn:Econtent; [|intros [= <- _] Hne; by destruct Hne].
  destruct (cli.GetBool cmd cli.FlagNoValidate) as [[]|err]; [| |intros [= <- _] Hne; by destruct Hne]; cbn [negb].
  - intros Hsub Hne.
    destruct (submit_sent _ _ _ _ _ _ Hsub Hne)
      as (depositStr & deposit & msg & ? & ? & ? & Hw & ? & ->).
    exists clientCtx, name, rest, content, depositStr, deposit, msg.
    rewrite Hw. split_and!; try done. by left.
  - unfold cli.validateInfo.
    destruct (SoftwareUpgradeProposal_Plan content) as [plan|] eqn:Eplan; [|intros [= <- _] Hne; by destruct Hne].
    destruct (cli.GetString cmd cli.FlagDaemonName) as [daemonName|err]; [|intros [= <- _] Hne; by destruct Hne].
    destruct (ParsePlanInfo (cli.Info plan) (cli.world s)) as [w1 [planInfo|err]] eqn:Ep;
      [|intros [= <- _] Hne; by destruct Hne].
    destruct (ValidateFull planInfo _ _ daemonName w1) as [w2 [[err|]|v]] eqn:Ev;
      [intros [= <- _] Hne; by destruct Hne| |intros [= <- _] Hne; by destruct Hne].
    intros Hsub Hne.
    destruct (submit_sent _ _ _ _ _ _ Hsub Hne)
      as (depositStr & deposit & msg & ? & ? & ? & Hw & ? & ->).
    cbn [cli.world cli.sent] in *.
    exists clientCtx, name, rest, content, depositStr, deposit, msg.
    rewrite Hw. split_and!; try done. right. split; [done|].
    by exists plan, daemonName, w1, planInfo.
Qed.

End CommandFacts.

Section CommandDefaults.

Variables Content Context AccAddress Coins Msg : Type.
Variables FlagTitle FlagDescription FlagDeposit : string.
Variable NewSoftwareUpgradeProposal : string → string → cli.Plan → Content.
Variable SoftwareUpgradeProposal_Plan : Content → option cli.Plan.
Variable GetClientTxContext_env : cli.FlagSet → World → Context + error.
Variable GetFromAddress : Context → AccAddress.
Variable ParseCoinsNormalized : string → Coins + error.
Variable NewMsgSubmitProposal : Content → Coins → AccAddress → Msg + error.
Variable GenerateOrBroadcastTxCLI_env : Context → cli.FlagSet → Msg → World → option error.
Variable parseAuthority : string → option error.
Variable strconv_Quote : string → string.
Variable json_Error : json.Error → string.
Variable DownloadPlanInfoFromURL_env : string → World → gset string * (string + error).
Variable TempDir_env : World → string.
Variable Mkdir_env : World → string + error.
Variable DownloadUpgrade_env :
  string → string → string → World → gset string * outcome (option error).
Variable RemoveAll_env : string → World → option (gset string * error).
Variables rangeBasic rangeURLs : BinaryDownloadURLMap → list (string * string).

Local Abbreviation RunE :=
  (cli.RunE Content Context AccAddress Coins Msg FlagTitle FlagDescription FlagDeposit
     NewSoftwareUpgradeProposal SoftwareUpgradeProposal_Plan GetClientTxContext_env
     GetFromAddress ParseCoinsNormalized NewMsgSubmitProposal GenerateOrBroadcastTxCLI_env
     (neturl.ParseURL parseAuthority strconv_Quote) json_Error DownloadPlanInfoFromURL_env
     TempDir_env Mkdir_env DownloadUpgrade_env RemoveAll_env rangeBasic rangeURLs).

(** X15: with the validation on, an info that is empty (the default of the flag
    [upgrade-info]) or that is any text without a control byte, a colon, a
    percent sign and two slashes at its start is taken for a URL: the
    handler asks for its download, and when that fails the command fails
    with the error of the download and submits nothing. *)
Theorem RunE_plain_info cmd name args s clientCtx title description height info daemonName
    fs err :
  GetClientTxContext_env cmd (cli.world s) = inl clientCtx →
  cli.GetString cmd FlagTitle = inl title →
  cli.GetString cmd FlagDescription = inl description →
  cli.GetInt64 cmd cli.FlagUpgradeHeight = inl height →
  cli.GetString cmd cli.FlagUpgradeInfo = inl info →
  cli.GetBool cmd cli.FlagNoValidate = inl false →
  SoftwareUpgradeProposal_Plan
    (NewSoftwareUpgradeProposal title description (cli.mkPlan name height info))
  = Some (cli.mkPlan name height info) →
  cli.GetString cmd cli.FlagDaemonName = inl daemonName →
  plain (strings.TrimSpace info) = true →
  DownloadPlanInfoFromURL_env (strings.TrimSpace info) (cli.world s) = (fs, inr err) →
  RunE cmd (name :: args) s
  = (cli.mkSession
       (record (EvDownloadPlanInfoFromURL (strings.TrimSpace info) (inr err)) fs (cli.world s))
       (cli.sent s),
     Returned (Some err)).
Proof.
  intros Hctx Ht Hd Hh Hi Hnv Hplan Hdn Hplain Hdl.
  unfold cli.RunE, cli.parseArgsToContent. rewrite Hctx, Ht, Hd, Hh, Hi, Hnv. cbn [negb].
  unfold cli.validateInfo. rewrite Hplan, Hdn. cbn [cli.Info].
  unfold planinfo.ParsePlanInfo, planinfo.resolveInfo.
  rewrite ParseURL_plain by done.
  unfold planinfo.DownloadPlanInfoFromURL. by rewrite Hdl.
Qed.

End CommandDefaults.

Lemma getDefaultDaemonName_example :
  cli.getDefaultDaemonName ∅ ["/usr/local/bin/simd"; "tx"] = Returned "simd"
  ∧ cli.getDefaultDaemonName {[ "DAEMON_NAME" := "bin/gaiad" ]} ["/usr/local/bin/simd"]
    = Returned "bin/gaiad".
Proof. split; vm_compute; reflexivity. Qed.

Lemma RunE_sends_validated_witness :
  ∃ msg, cli.sent (exampleRunE exampleParse exampleFetch (exampleFlags exampleBody false) ["v2"]
                     (cli.mkSession emptyWorld [])).1 = [msg]
         ∧ cli.Info msg = exampleBody.
Proof.
  edestruct (RunE_sends_validated cli.Plan unit unit string cli.Plan "title" "description"
               "deposit" (λ _ _ plan, plan) Some (λ _ _, inl ()) (λ _, ()) inl
               (λ content _ _, inl content) (λ _ _ _ _, None) exampleParse exampleError
               exampleFetch exampleTempDir exampleMkdir exampleDownload exampleRemoveAll
               map_to_list map_to_list (exampleFlags exampleBody false) ["v2"]
               (cli.mkSession emptyWorld []))
    as (clientCtx & name & rest & content & depositStr & deposit & msg
        & _ & _ & Hcontent & _ & _ & Hmsg & Hsent & _).
  - apply surjective_pairing.
  - vm_compute. discriminate.
  - exists msg. split; [exact Hsent|].
    injection Hmsg as <-. injection Hcontent as <-. reflexivity.
Defined.

Lemma RunE_plain_info_witness :
  exampleRunE (neturl.ParseURL (λ _, None) (λ s, DQ ++ s ++ DQ)) exampleFetch
    (exampleFlags EmptyString false) ["v2"] (cli.mkSession emptyWorld [])
  = (cli.mkSession
       (mkWorld ∅ [EvDownloadPlanInfoFromURL EmptyString (inr "unreachable")]) [],
     Returned (Some "unreachable")).
Proof.
  apply (RunE_plain_info cli.Plan unit unit string cli.Plan "title" "description" "deposit"
           (λ _ _ plan, plan) Some (λ _ _, inl ()) (λ _, ()) inl (λ content _ _, inl content)
           (λ _ _ _ _, None) (λ _, None) (λ s, DQ ++ s ++ DQ) exampleError exampleFetch
           exampleTempDir exampleMkdir exampleDownload exampleRemoveAll map_to_list map_to_list
           (exampleFlags EmptyString false) "v2" [] (cli.mkSession emptyWorld [])
           () "Upgrade" "To v2" 100%Z EmptyString "simd" ∅ "unreachable");
    reflexivity.
Defined.

(** ** The generated code of the messages *)

Local Open Scope Z_scope.
Local Open Scope list_scope.

Lemma val_range b : 0 ≤ module.val b < 256.
Proof.
  unfold module.val. pose proof (N_ascii_bounded b). lia.
Qed.

Lemma val_uint8 z : module.val (module.uint8 z) = z mod 256.
Proof.
  unfold module.val, module.uint8.
  pose proof (Z.mod_pos_bound z 256 eq_refl).
  rewrite N_ascii_embedding by lia. lia.
Qed.

Lemma int_id z : - 2 ^ 63 ≤ z < 2 ^ 63 → module.int z = z.
Proof. intros H. unfold module.int. rewrite Z.mod_small; lia. Qed.

Lemma int_wrap z : 2 ^ 63 ≤ z < 2 ^ 64 → module.int z = z - 2 ^ 64.
Proof.
  intros H. unfold module.int.
  replace (z + 2 ^ 63) with ((z - 2 ^ 63) + 1 * 2 ^ 64) by lia.
  rewrite Z.mod_add by lia. rewrite Z.mod_small; lia.
Qed.

Lemma int_range z : - 2 ^ 63 ≤ module.int z < 2 ^ 63.
Proof.
  unfold module.int. pose proof (Z.mod_pos_bound (z + 2 ^ 63) (2 ^ 64) eq_refl). lia.
Qed.

Lemma uint64_id z : 0 ≤ z < 2 ^ 64 → module.uint64 z = z.
Proof. intros H. unfold module.uint64. by rewrite Z.mod_small. Qed.

(** *** The size of a varint *)

Lemma sovModule_log2 x : 0 ≤ x → module.sovModule x = (Z.log2 x + 7) / 7.
Proof.
  intros Hx. unfold module.sovModule, module.Len64.
  assert (0 < Z.lor x 1) as Hpos.
  { assert (0 ≤ Z.lor x 1) by (apply Z.lor_nonneg; lia).
    destruct (decide (Z.lor x 1 = 0)) as [E|]; [|lia].
    apply Z.lor_eq_0_iff in E. lia. }
  destruct (Z.eqb_spec (Z.lor x 1) 0); [lia|].
  rewrite Z.log2_lor by lia. change (Z.log2 1) with 0.
  rewrite Z.max_l by apply Z.log2_nonneg. f_equal. lia.
Qed.

Lemma sovModule_small x : 0 ≤ x < 128 → module.sovModule x = 1.
Proof.
  intros H. rewrite sovModule_log2 by lia.
  assert (0 ≤ Z.log2 x < 7) as Hl.
  { split; [apply Z.log2_nonneg|].
    destruct (decide (x = 0)) as [->|]; [done|]. apply Z.log2_lt_pow2; lia. }
  symmetry. apply Z.div_unique with (r := Z.log2 x); lia.
Qed.

Lemma sovModule_step x : 128 ≤ x → module.sovModule x = module.sovModule (Z.shiftr x 7) + 1.
Proof.
  intros H. rewrite !sovModule_log2 by (try apply Z.shiftr_nonneg; lia).
  rewrite Z.log2_shiftr by lia.
  assert (7 ≤ Z.log2 x) by (apply Z.log2_le_pow2; lia).
  rewrite Z.max_r by lia.
  replace (Z.log2 x + 7) with ((Z.log2 x - 7 + 7) + 1 * 7) by lia.
  rewrite Z.div_add by lia. lia.
Qed.

Lemma shiftr7_lt x k : 0 ≤ k → 0 ≤ x < 2 ^ (7 * (k + 1)) → 0 ≤ Z.shiftr x 7 < 2 ^ (7 * k).
Proof.
  intros Hk Hx. rewrite Z.shiftr_div_pow2 by lia. split; [apply Z.div_pos; lia|].
  apply Z.div_lt_upper_bound; [lia|].
  rewrite <- Z.pow_add_r by lia. replace (7 + 7 * k) with (7 * (k + 1)) by lia. lia.
Qed.

Lemma length_varintBytes passes x :
  0 ≤ x < 2 ^ (7 * (Z.of_nat passes + 1)) →
  Z.of_nat (length (varintBytes passes x)) = module.sovModule x.
Proof.
  revert x. induction passes as [|n IH]; intros x Hx; cbn [varintBytes].
  - rewrite sovModule_small; [done|]. change (2 ^ (7 * (Z.of_nat 0 + 1))) with 128 in Hx. lia.
  - destruct (Z.leb_spec 128 x) as [Hbig|Hsmall].
    + cbn [length]. rewrite sovModule_step by done.
      rewrite Nat2Z.inj_succ, IH; [lia|].
      apply shiftr7_lt; [lia|]. replace (Z.of_nat n + 1) with (Z.of_nat (S n)) by lia. lia.
    + rewrite sovModule_small by lia. done.
Qed.

Lemma sovModule_bounds x :
  0 ≤ x < 2 ^ 64 →
  1 ≤ module.sovModule x ≤ 10
  ∧ x < 2 ^ (7 * module.sovModule x)
  ∧ (x < 128 ∨ 2 ^ (7 * (module.sovModule x - 1)) ≤ x).
Proof.
  intros Hx. rewrite sovModule_log2 by lia.
  destruct (decide (x = 0)) as [->|Hne]; [by vm_compute; split_and!; try left|].
  pose proof (Z.log2_spec x ltac:(lia)) as [Hlo Hhi].
  assert (0 ≤ Z.log2 x < 64) as Hl.
  { split; [apply Z.log2_nonneg|]. apply Z.log2_lt_pow2; lia. }
  set (n := (Z.log2 x + 7) / 7).
  assert (7 * n ≤ Z.log2 x + 7 < 7 * n + 7) as Hn.
  { unfold n. pose proof (Z.div_mod (Z.log2 x + 7) 7 ltac:(lia)).
    pose proof (Z.mod_pos_bound (Z.log2 x + 7) 7 ltac:(lia)). lia. }
  split_and!; [lia | lia | |].
  - eapply Z.lt_le_trans; [exact Hhi|]. apply Z.pow_le_mono_r; lia.
  - right. etrans; [|exact Hlo]. apply Z.pow_le_mono_r; lia.
Qed.

(** *** Writing and reading a varint *)

Lemma len_app a b : module.len (a ++ b) = module.len a + module.len b.
Proof. unfold module.len. rewrite length_app. lia. Qed.

Lemma len_nonneg a : 0 ≤ module.len a.
Proof. unfold module.len. lia. Qed.

Lemma len_cons b a : module.len (b :: a) = 1 + module.len a.
Proof. unfold module.len. cbn [length]. lia. Qed.

Lemma len_nil : module.len [] = 0.
Proof. done. Qed.

Ltac lens :=
  repeat (rewrite len_app in * || rewrite len_cons in * || rewrite len_nil in * );
  unfold module.len in *; cbn [length] in *; lia.

Lemma store_middle pre b0 suf b :
  module.store (pre ++ b0 :: suf) (module.len pre) b = Some (pre ++ b :: suf).
Proof.
  unfold module.store. rewrite len_app. unfold module.len. cbn [length].
  destruct (Z.leb_spec 0 (Z.of_nat (length pre))); [|lia].
  destruct (Z.ltb_spec (Z.of_nat (length pre)) (Z.of_nat (length pre) + Z.of_nat (S (length suf))));
    [|lia].
  cbn [andb]. rewrite Nat2Z.id, insert_app_r_alt by lia. by rewrite Nat.sub_diag.
Qed.

Lemma encodeVarintLoop_spec passes pre hole suf v :
  length hole = length (varintBytes passes v) →
  module.len (pre ++ hole ++ suf) < 2 ^ 63 →
  module.encodeVarintLoop passes (pre ++ hole ++ suf) (module.len pre) v
  = Some (pre ++ varintBytes passes v ++ suf).
Proof.
  revert pre hole v. induction passes as [|n IH]; intros pre hole v Hlen Hfit;
    cbn [module.encodeVarintLoop varintBytes] in *.
  - destruct hole as [|h [|? ?]]; try done. apply store_middle.
  - destruct (Z.leb_spec 128 v).
    + destruct hole as [|h hole]; [done|]. cbn [length] in Hlen.
      cbn [app]. rewrite store_middle.
      rewrite int_id by lens.
      replace (module.len pre + 1) with (module.len (pre ++ [module.uint8 (Z.lor (Z.land v 127) 128)]))
        by lens.
      rewrite (cons_middle _ pre), app_assoc.
      rewrite IH; [by rewrite <- app_assoc | lia | lens].
    + destruct hole as [|h [|? ?]]; try done. apply store_middle.
Qed.

Lemma encodeVarintModule_spec pre hole suf v :
  0 ≤ v < 2 ^ 64 →
  module.len hole = module.sovModule v →
  module.len (pre ++ hole ++ suf) < 2 ^ 63 →
  module.encodeVarintModule (pre ++ hole ++ suf) (module.len pre + module.len hole) v
  = Returned (pre ++ varintBytes 9 v ++ suf, module.len pre).
Proof.
  intros Hv Hhole Hfit. unfold module.encodeVarintModule.
  rewrite <- Hhole, Z.add_simpl_r.
  rewrite int_id by lens.
  rewrite encodeVarintLoop_spec; [done| |done].
  apply Nat2Z.inj. rewrite length_varintBytes by (change (2 ^ (7 * (Z.of_nat 9 + 1))) with (2 ^ 70); lia).
  exact Hhole.
Qed.

Lemma below_128 (P : Z → bool) :
  forallb P (map Z.of_nat (seq 0 128)) = true → ∀ a, 0 ≤ a < 128 → P a = true.
Proof.
  intros H a Ha. rewrite forallb_forall in H. apply H.
  apply in_map_iff. exists (Z.to_nat a). split; [lia|]. apply in_seq. lia.
Qed.

Lemma byte_more a :
  0 ≤ a < 128 →
  128 ≤ module.val (module.uint8 (Z.lor a 128))
  ∧ Z.land (module.val (module.uint8 (Z.lor a 128))) 127 = a.
Proof.
  intros Ha.
  pose proof (below_128
    (λ a, (128 <=? module.val (module.uint8 (Z.lor a 128)))
          && (Z.land (module.val (module.uint8 (Z.lor a 128))) 127 =? a))
    ltac:(vm_compute; reflexivity) a Ha) as H.
  apply andb_true_iff in H as [H1 H2]. lia.
Qed.

Lemma byte_last a :
  0 ≤ a < 128 →
  module.val (module.uint8 a) < 128 ∧ Z.land (module.val (module.uint8 a)) 127 = a.
Proof.
  intros Ha.
  pose proof (below_128
    (λ a, (module.val (module.uint8 a) <? 128) && (Z.land (module.val (module.uint8 a)) 127 =? a))
    ltac:(vm_compute; reflexivity) a Ha) as H.
  apply andb_true_iff in H as [H1 H2]. lia.
Qed.

Lemma land_127 v : 0 ≤ v → 0 ≤ Z.land v 127 < 128 ∧ Z.land v 127 ≤ v.
Proof.
  intros Hv. change 127 with (Z.ones 7). rewrite Z.land_ones by lia.
  pose proof (Z.mod_pos_bound v (2 ^ 7) eq_refl).
  pose proof (Z.mod_le v (2 ^ 7) Hv eq_refl). lia.
Qed.

Lemma split_7 v : Z.lor (Z.land v 127) (Z.shiftl (Z.shiftr v 7) 7) = v.
Proof.
  apply Z.bits_inj'. intros n Hn.
  rewrite Z.lor_spec, Z.land_spec, Z.shiftl_spec by lia.
  change 127 with (Z.ones 7). destruct (Z.ltb_spec n 7).
  - rewrite Z.ones_spec_low by lia. rewrite (Z.testbit_neg_r _ (n - 7)) by lia.
    by rewrite andb_true_r, orb_false_r.
  - rewrite Z.ones_spec_high by lia. rewrite Z.shiftr_spec by lia.
    rewrite andb_false_r. cbn [orb]. f_equal. lia.
Qed.

Lemma index_middle pre b suf : module.index (pre ++ b :: suf) (module.len pre) = Some b.
Proof.
  unfold module.index, module.len. destruct (Z.leb_spec 0 (Z.of_nat (length pre))); [|lia].
  rewrite Nat2Z.id. by apply list_lookup_middle.
Qed.

Lemma shiftl_fits a s : 0 ≤ s → 0 ≤ a → a < 2 ^ (64 - s) → s ≤ 64 →
  module.uint64 (Z.shiftl a s) = Z.shiftl a s.
Proof.
  intros Hs Ha Hlt Hs'. apply uint64_id. rewrite Z.shiftl_mul_pow2 by lia.
  assert (0 < 2 ^ s) by (apply Z.pow_pos_nonneg; lia).
  split; [apply Z.mul_nonneg_nonneg; lia|].
  replace (2 ^ 64) with (2 ^ (64 - s) * 2 ^ s)
    by (rewrite <- Z.pow_add_r by lia; f_equal; lia).
  by apply Z.mul_lt_mono_pos_r.
Qed.

Lemma readVarint_last pre v post x k later :
  0 ≤ k → 7 * k ≤ 64 → 0 ≤ v < 128 → v < 2 ^ (64 - 7 * k) →
  module.len (pre ++ [module.uint8 v] ++ post) < 2 ^ 63 →
  module.readVarint (7 * k :: later) (pre ++ [module.uint8 v] ++ post) (module.len pre) x
  = module.ok (Z.lor x (Z.shiftl v (7 * k)), module.len pre + module.len [module.uint8 v]).
Proof.
  intros Hk Hk' Hv Hv' Hfit. cbn [module.readVarint app] in *.
  rewrite index_middle.
  destruct (Z.leb_spec (module.len (pre ++ module.uint8 v :: post)) (module.len pre)) as [Hle|_];
    [lens|].
  destruct (byte_last v Hv) as [H1 H2]. rewrite H2.
  destruct (Z.ltb_spec (module.val (module.uint8 v)) 128); [|lia].
  rewrite shiftl_fits by lia. rewrite int_id by lens. done.
Qed.

Lemma readVarint_varintBytes passes k more pre post v x :
  0 ≤ k → 7 * k ≤ 64 →
  0 ≤ v < 2 ^ (7 * (Z.of_nat passes + 1)) → v < 2 ^ (64 - 7 * k) →
  (passes < more)%nat →
  module.len (pre ++ varintBytes passes v ++ post) < 2 ^ 63 →
  module.readVarint (shiftsFrom k more) (pre ++ varintBytes passes v ++ post) (module.len pre) x
  = module.ok (Z.lor x (Z.shiftl v (7 * k)),
               module.len pre + module.len (varintBytes passes v)).
Proof.
  revert k more pre v x. induction passes as [|n IH]; intros k more pre v x Hk Hk' Hv Hv' Hm Hfit;
    (destruct more as [|more]; [lia|]); cbn [shiftsFrom varintBytes] in *.
  - change (2 ^ (7 * (Z.of_nat 0 + 1))) with 128 in Hv. by apply readVarint_last.
  - destruct (Z.leb_spec 128 v) as [Hbig|Hsmall]; [|apply readVarint_last; auto; lia].
    cbn [module.readVarint app] in *. rewrite index_middle.
    match goal with |- context [Z.leb ?a ?b] =>
      destruct (Z.leb_spec a b) as [Hle|_]; [lens|] end.
    destruct (land_127 v ltac:(lia)) as [Ha Hav].
    destruct (byte_more _ Ha) as [H1 H2]. rewrite H2.
    destruct (Z.ltb_spec (module.val (module.uint8 (Z.lor (Z.land v 127) 128))) 128); [lia|].
    rewrite shiftl_fits by lia.
    rewrite int_id by lens.
    set (b := module.uint8 (Z.lor (Z.land v 127) 128)) in *.
    replace (module.len pre + 1) with (module.len (pre ++ [b])) by lens.
    rewrite (cons_middle b pre), app_assoc.
    assert (0 ≤ Z.shiftr v 7 < 2 ^ (7 * (Z.of_nat n + 1))) as Hv7.
    { apply shiftr7_lt; [lia|]. replace (Z.of_nat n + 1) with (Z.of_nat (S n)) by lia. lia. }
    assert (7 * (k + 1) ≤ 64) as Hk1.
    { destruct (Z.le_gt_cases (7 * (k + 1)) 64) as [|Hgt]; [done|]. exfalso.
      assert (v < 2 ^ 7); [|lia].
      eapply Z.lt_le_trans; [exact Hv'|]. apply Z.pow_le_mono_r; lia. }
    assert (Z.shiftr v 7 < 2 ^ (64 - 7 * (k + 1))) as Hv7'.
    { rewrite Z.shiftr_div_pow2 by lia.
      apply Z.div_lt_upper_bound; [lia|]. rewrite <- Z.pow_add_r by lia.
      replace (7 + (64 - 7 * (k + 1))) with (64 - 7 * k) by lia. lia. }
    rewrite IH; [|lia|done|done|done|lia|by rewrite <- app_assoc].
    rewrite <- Z.lor_assoc.
    replace (7 * (k + 1)) with (7 + 7 * k) by lia.
    rewrite <- Z.shiftl_shiftl by lia. rewrite <- Z.shiftl_lor, split_7.
    replace (module.len (pre ++ [b]) + module.len (varintBytes n (Z.shiftr v 7)))
      with (module.len pre + module.len (b :: varintBytes n (Z.shiftr v 7))) by lens.
    done.
Qed.

(** *** Writing a message *)

Lemma strlen_list s : module.len (list_ascii_of_string s) = module.strlen s.
Proof.
  unfold module.len, module.strlen. f_equal.
  induction s as [|c s IH]; [done|]. cbn. by rewrite IH.
Qed.

Lemma strlen_nonneg s : 0 ≤ module.strlen s.
Proof. unfold module.strlen. lia. Qed.

Lemma sovModule_pos x : 0 ≤ x → 1 ≤ module.sovModule x.
Proof.
  intros Hx. rewrite sovModule_log2 by done. pose proof (Z.log2_nonneg x).
  apply Z.div_le_lower_bound; lia.
Qed.

Lemma len_fieldBytes tag s :
  module.strlen s < 2 ^ 63 → module.len (fieldBytes tag s) = fieldSize s.
Proof.
  intros Hs. unfold fieldBytes, fieldSize. rewrite len_cons, len_app, strlen_list.
  unfold module.len at 1. rewrite length_varintBytes; [lia|].
  pose proof (strlen_nonneg s). change (2 ^ (7 * (Z.of_nat 9 + 1))) with (2 ^ 70). lia.
Qed.

Lemma fieldSize_pos s : 2 ≤ fieldSize s.
Proof.
  unfold fieldSize. pose proof (strlen_nonneg s).
  pose proof (sovModule_pos (module.strlen s)). lia.
Qed.

Lemma slice_all pre rest :
  module.slice (pre ++ rest) (module.len pre) (module.len (pre ++ rest)) = Some rest.
Proof.
  unfold module.slice.
  destruct (Z.leb_spec 0 (module.len pre)); [|lens].
  destruct (Z.leb_spec (module.len pre) (module.len (pre ++ rest))); [|lens].
  rewrite Z.leb_refl. cbn [andb]. f_equal.
  replace (Z.to_nat (module.len (pre ++ rest) - module.len pre)) with (length rest) by lens.
  unfold module.len. rewrite Nat2Z.id, drop_app_length. by rewrite firstn_all.
Qed.

Lemma slice_middle pre mid post :
  module.slice (pre ++ mid ++ post) (module.len pre) (module.len pre + module.len mid) = Some mid.
Proof.
  unfold module.slice.
  destruct (Z.leb_spec 0 (module.len pre)); [|lens].
  destruct (Z.leb_spec (module.len pre) (module.len pre + module.len mid)); [|lens].
  destruct (Z.leb_spec (module.len pre + module.len mid) (module.len (pre ++ mid ++ post))); [|lens].
  cbn [andb]. f_equal.
  replace (Z.to_nat (module.len pre + module.len mid - module.len pre)) with (length mid) by lens.
  unfold module.len. rewrite Nat2Z.id, drop_app_length. by rewrite take_app_length.
Qed.

Lemma copyAt_spec pre hole suf s :
  length hole = String.length s →
  module.copyAt (pre ++ hole ++ suf) (module.len pre) s
  = Some (pre ++ list_ascii_of_string s ++ suf).
Proof.
  intros Hlen. unfold module.copyAt. rewrite slice_all.
  assert (length (list_ascii_of_string s) = String.length s) as Hs.
  { pose proof (strlen_list s) as H. unfold module.len, module.strlen in H. lia. }
  rewrite Nat.min_r by (rewrite length_app; lia).
  unfold module.len. rewrite Nat2Z.id, take_app_length.
  rewrite <- Hs at 1. rewrite firstn_all. rewrite <- Hlen, drop_app_length. done.
Qed.

Lemma marshalString_split tag s pre t hv hs suf :
  module.strlen s < 2 ^ 63 →
  module.len hv = module.sovModule (module.strlen s) →
  length hs = String.length s →
  module.len (pre ++ t :: hv ++ hs ++ suf) < 2 ^ 63 →
  module.marshalString tag s
    (pre ++ t :: hv ++ hs ++ suf, module.len pre + (1 + module.len hv + module.len hs))
  = Returned (pre ++ fieldBytes tag s ++ suf, module.len pre).
Proof.
  intros Hs Hhv Hhs Hfit. unfold module.marshalString.
  assert (module.len hs = module.strlen s) as Hhs' by (unfold module.len, module.strlen; lia).
  pose proof (strlen_nonneg s).
  rewrite int_id by lens.
  replace (module.len pre + (1 + module.len hv + module.len hs) - module.strlen s)
    with (module.len (pre ++ t :: hv)) by lens.
  replace (pre ++ t :: hv ++ hs ++ suf) with ((pre ++ t :: hv) ++ hs ++ suf)
    by (by rewrite <- app_assoc).
  rewrite copyAt_spec by done.
  replace ((pre ++ t :: hv) ++ list_ascii_of_string s ++ suf)
    with ((pre ++ [t]) ++ hv ++ (list_ascii_of_string s ++ suf))
    by (by rewrite <- !app_assoc).
  replace (module.len (pre ++ t :: hv)) with (module.len (pre ++ [t]) + module.len hv) by lens.
  rewrite uint64_id by lia.
  rewrite encodeVarintModule_spec; [|lia|done|].
  2:{ rewrite !len_app, strlen_list in *. rewrite !len_cons, !len_app in Hfit. lens. }
  rewrite int_id by lens.
  replace (module.len (pre ++ [t]) - 1) with (module.len pre) by lens.
  rewrite <- app_assoc. cbn [app]. rewrite store_middle.
  unfold fieldBytes. cbn [app]. by rewrite <- ?app_assoc.
Qed.

Lemma split_hole (hole : list ascii) a b :
  0 ≤ a → 0 ≤ b → module.len hole = a + b →
  ∃ h1 h2, hole = h1 ++ h2 ∧ module.len h1 = a ∧ module.len h2 = b.
Proof.
  intros Ha Hb Hlen. exists (take (Z.to_nat a) hole), (drop (Z.to_nat a) hole).
  rewrite take_drop. split; [done|]. unfold module.len in *.
  rewrite length_take, length_drop. lia.
Qed.

Lemma marshalString_spec tag s pre hole suf :
  module.strlen s < 2 ^ 63 →
  module.len hole = fieldSize s →
  module.len (pre ++ hole ++ suf) < 2 ^ 63 →
  module.marshalString tag s (pre ++ hole ++ suf, module.len pre + module.len hole)
  = Returned (pre ++ fieldBytes tag s ++ suf, module.len pre).
Proof.
  intros Hs Hhole Hfit. unfold fieldSize in Hhole.
  pose proof (strlen_nonneg s). pose proof (sovModule_pos (module.strlen s) ltac:(done)).
  destruct (split_hole hole 1 (module.sovModule (module.strlen s) + module.strlen s))
    as (h1 & h23 & -> & H1 & H23); [lia|lia|lia|].
  destruct (split_hole h23 (module.sovModule (module.strlen s)) (module.strlen s))
    as (hv & hs & -> & Hv & Hs'); [lia|lia|lia|].
  destruct h1 as [|t [|? ?]]; [lens| |lens].
  rewrite <- !app_assoc in *. cbn [app] in *.
  replace (module.len (t :: hv ++ hs)) with (1 + module.len hv + module.len hs) by lens.
  apply marshalString_split; auto. unfold module.len, module.strlen in *. lia.
Qed.

Lemma marshalStrings_spec tag l pre hole suf :
  Forall (λ s, module.strlen s < 2 ^ 63) l →
  module.len hole = module.len (flat_map (fieldBytes tag) (rev l)) →
  module.len (pre ++ hole ++ suf) < 2 ^ 63 →
  module.marshalStrings tag l (pre ++ hole ++ suf, module.len pre + module.len hole)
  = Returned (pre ++ flat_map (fieldBytes tag) (rev l) ++ suf, module.len pre).
Proof.
  revert hole suf. induction l as [|s l IH]; intros hole suf Hall Hhole Hfit.
  - cbn in *. destruct hole; [|lens]. cbn. by rewrite Z.add_0_r.
  - inversion Hall as [|? ? Hs Hl]; subst. cbn [rev module.marshalStrings] in *.
    rewrite flat_map_app in *. cbn [flat_map] in *. rewrite app_nil_r in *.
    rewrite len_app, (len_fieldBytes tag s Hs) in Hhole.
    destruct (split_hole hole (module.len (flat_map (fieldBytes tag) (rev l))) (fieldSize s))
      as (h1 & h2 & -> & H1 & H2); [apply len_nonneg | pose proof (fieldSize_pos s); lia | done |].
    replace (pre ++ (h1 ++ h2) ++ suf) with ((pre ++ h1) ++ h2 ++ suf) by (by rewrite <- !app_assoc).
    replace (module.len pre + module.len (h1 ++ h2)) with (module.len (pre ++ h1) + module.len h2)
      by lens.
    rewrite marshalString_spec; [|done|done|by rewrite <- !app_assoc in *].
    rewrite <- app_assoc. rewrite len_app.
    rewrite IH; [by rewrite <- !app_assoc | done | done |].
    rewrite <- !app_assoc in Hfit. rewrite !len_app in *.
    rewrite (len_fieldBytes tag s Hs). lia.
Qed.

Lemma strlen_pos_iff s : (0 <? module.strlen s) = negb (String.eqb s EmptyString).
Proof. by destruct s. Qed.

Lemma foldr_fieldSize_nonneg l : 0 ≤ foldr (λ s n, fieldSize s + n) 0 l.
Proof. induction l as [|s l IH]; cbn; [lia|]. pose proof (fieldSize_pos s). lia. Qed.

Lemma rawSize_cases (m : module.Permission) :
  (module.Address m = EmptyString
   ∧ rawSize m = foldr (λ s n, fieldSize s + n) 0 (module.Permissions m))
  ∨ (module.Address m ≠ EmptyString
     ∧ rawSize m = fieldSize (module.Address m)
                   + foldr (λ s n, fieldSize s + n) 0 (module.Permissions m)).
Proof.
  unfold rawSize. destruct (String.eqb_spec (module.Address m) EmptyString); [left|right]; done.
Qed.

Lemma rawSize_nonneg m : 0 ≤ rawSize m.
Proof.
  pose proof (foldr_fieldSize_nonneg (module.Permissions m)).
  pose proof (fieldSize_pos (module.Address m)).
  destruct (rawSize_cases m) as [[_ ->]|[_ ->]]; lia.
Qed.

Lemma fieldSize_strlen s : fieldSize s < 2 ^ 63 → module.strlen s < 2 ^ 63.
Proof.
  unfold fieldSize. pose proof (sovModule_pos _ (strlen_nonneg s)). lia.
Qed.

Lemma rawSize_strings (m : module.Permission) :
  rawSize m < 2 ^ 63 →
  (module.Address m = EmptyString ∨ module.strlen (module.Address m) < 2 ^ 63)
  ∧ Forall (λ s, module.strlen s < 2 ^ 63) (module.Permissions m).
Proof.
  intros H.
  pose proof (foldr_fieldSize_nonneg (module.Permissions m)) as Hnn.
  pose proof (fieldSize_pos (module.Address m)).
  assert (foldr (λ s n, fieldSize s + n) 0 (module.Permissions m) < 2 ^ 63) as Hp
    by (destruct (rawSize_cases m) as [[_ E]|[_ E]]; lia).
  split.
  - destruct (rawSize_cases m) as [[E _]|[_ E]]; [by left|right].
    apply fieldSize_strlen. lia.
  - clear H Hnn. induction (module.Permissions m) as [|s l IH]; [done|]. cbn [foldr] in Hp.
    pose proof (foldr_fieldSize_nonneg l). pose proof (fieldSize_pos s).
    constructor; [apply fieldSize_strlen; lia | apply IH; lia].
Qed.

Lemma len_flat_map tag l :
  Forall (λ s, module.strlen s < 2 ^ 63) l →
  module.len (flat_map (fieldBytes tag) l) = foldr (λ s n, fieldSize s + n) 0 l.
Proof.
  induction 1 as [|s l Hs Hl IH]; [done|]. cbn [flat_map foldr].
  by rewrite len_app, len_fieldBytes, IH.
Qed.

Lemma wire_cases (m : module.Permission) :
  (module.Address m = EmptyString
   ∧ wire m = flat_map (fieldBytes "018") (module.Permissions m))
  ∨ (module.Address m ≠ EmptyString
     ∧ wire m = fieldBytes "010" (module.Address m)
                ++ flat_map (fieldBytes "018") (module.Permissions m)).
Proof.
  unfold wire. destruct (String.eqb_spec (module.Address m) EmptyString); [left|right]; done.
Qed.

Lemma len_wire m : rawSize m < 2 ^ 63 → module.len (wire m) = rawSize m.
Proof.
  intros H. destruct (rawSize_strings m H) as [Ha Hp].
  destruct (rawSize_cases m) as [[E ->]|[E ->]], (wire_cases m) as [[E' ->]|[E' ->]]; try done.
  - by apply len_flat_map.
  - destruct Ha as [|Ha]; [done|]. by rewrite len_app, len_flat_map, len_fieldBytes.
Qed.

Lemma fold_addSize l n :
  0 ≤ n → n + foldr (λ s n, fieldSize s + n) 0 l < 2 ^ 63 →
  fold_left module.addSize l n = n + foldr (λ s n, fieldSize s + n) 0 l.
Proof.
  revert n. induction l as [|s l IH]; intros n Hn Hfit; cbn [fold_left foldr] in *; [lia|].
  pose proof (foldr_fieldSize_nonneg l). pose proof (fieldSize_pos s).
  pose proof (strlen_nonneg s).
  assert (module.strlen s < 2 ^ 63).
  { unfold fieldSize in *. pose proof (sovModule_pos _ (strlen_nonneg s)). lia. }
  assert (module.addSize n s = n + fieldSize s) as ->.
  { unfold module.addSize, fieldSize. rewrite uint64_id by lia.
    rewrite int_id; [lia|]. unfold fieldSize in *. lia. }
  rewrite IH; lia.
Qed.

Lemma Size_rawSize m : rawSize m < 2 ^ 63 → module.Size m = rawSize m.
Proof.
  intros H. unfold module.Size.
  pose proof (foldr_fieldSize_nonneg (module.Permissions m)) as Hp.
  pose proof (fieldSize_pos (module.Address m)).
  rewrite strlen_pos_iff.
  assert (∀ n, 0 ≤ n → n + foldr (λ s n, fieldSize s + n) 0 (module.Permissions m) < 2 ^ 63 →
            (if 0 <? Z.of_nat (length (module.Permissions m))
             then fold_left module.addSize (module.Permissions m) n else n)
            = n + foldr (λ s n, fieldSize s + n) 0 (module.Permissions m)) as Hperm.
  { intros n Hn Hfit. destruct (Z.ltb_spec 0 (Z.of_nat (length (module.Permissions m)))) as [|Hz].
    - by apply fold_addSize.
    - destruct (module.Permissions m); [cbn; lia | cbn [length] in Hz; lia]. }
  destruct (rawSize_cases m) as [[E Hr]|[E Hr]]; rewrite Hr in *.
  - rewrite E. cbn [String.eqb negb]. rewrite Hperm; lia.
  - apply String.eqb_neq in E. rewrite E. cbn [negb].
    assert (module.addSize 0 (module.Address m) = fieldSize (module.Address m)) as ->.
    { unfold module.addSize. pose proof (strlen_nonneg (module.Address m)).
      assert (module.strlen (module.Address m) < 2 ^ 63) by (apply fieldSize_strlen; lia).
      rewrite uint64_id by lia. unfold fieldSize in *. rewrite int_id; lia. }
    rewrite Hperm; lia.
Qed.

Lemma MarshalToSizedBuffer_spec m pre hole :
  rawSize m < 2 ^ 63 →
  module.len hole = rawSize m →
  module.len (pre ++ hole) < 2 ^ 63 →
  module.MarshalToSizedBuffer m (pre ++ hole) = Returned (pre ++ wire m, rawSize m).
Proof.
  intros Hraw Hhole Hfit. destruct (rawSize_strings m Hraw) as [Ha Hp].
  unfold module.MarshalToSizedBuffer.
  pose proof (foldr_fieldSize_nonneg (module.Permissions m)) as Hnn.
  pose proof (fieldSize_pos (module.Address m)) as Hfp.
  set (W2 := flat_map (fieldBytes "018") (module.Permissions m)).
  assert (module.len W2 = foldr (λ s n, fieldSize s + n) 0 (module.Permissions m)) as HW2
    by by apply len_flat_map.
  destruct (split_hole hole (rawSize m - module.len W2) (module.len W2))
    as (h1 & h2 & -> & H1 & H2);
    [destruct (rawSize_cases m) as [[_ E]|[_ E]]; lia | apply len_nonneg | lia |].
  assert ((if 0 <? Z.of_nat (length (module.Permissions m))
           then module.marshalStrings "018" (rev (module.Permissions m))
                  (pre ++ h1 ++ h2, module.len (pre ++ h1 ++ h2))
           else Returned (pre ++ h1 ++ h2, module.len (pre ++ h1 ++ h2)))
          = Returned (pre ++ h1 ++ W2, module.len (pre ++ h1))) as ->.
  { destruct (Z.ltb_spec 0 (Z.of_nat (length (module.Permissions m)))) as [|Hz].
    - replace (pre ++ h1 ++ h2) with ((pre ++ h1) ++ h2 ++ []) by (by rewrite app_nil_r, <- app_assoc).
      replace (module.len ((pre ++ h1) ++ h2 ++ [])) with (module.len (pre ++ h1) + module.len h2)
        by lens.
      rewrite marshalStrings_spec.
      + rewrite rev_involutive, app_nil_r. by rewrite <- app_assoc.
      + by apply Forall_rev.
      + by rewrite rev_involutive.
      + rewrite app_nil_r, <- app_assoc. done.
    - unfold W2 in *. destruct (module.Permissions m); [|cbn [length] in Hz; lia].
      cbn in *. destruct h2; [|lens]. by rewrite !app_nil_r. }
  rewrite strlen_pos_iff.
  destruct (rawSize_cases m) as [[E Hr]|[E Hr]], (wire_cases m) as [[E' ->]|[E' ->]]; try done.
  - rewrite E. cbn [String.eqb negb]. fold W2.
    destruct h1; [|lens]. cbn [app] in *. rewrite app_nil_r in *.
    rewrite int_id by lens. do 2 f_equal. lens.
  - apply String.eqb_neq in E. rewrite E. cbn [negb]. fold W2.
    destruct Ha as [Ha|Ha]; [by rewrite Ha in E|].
    rewrite len_app. rewrite marshalString_spec; [|done|lia|].
    + rewrite int_id by lens. do 2 f_equal. lens.
    + rewrite !len_app in *. lia.
Qed.

Lemma Marshal_wire m : rawSize m < 2 ^ 63 → module.Marshal m = Returned (wire m).
Proof.
  intros Hraw. unfold module.Marshal. rewrite Size_rawSize by done.
  pose proof (rawSize_nonneg m) as Hnn.
  destruct (Z.ltb_spec (rawSize m) 0); [lia|].
  set (buf := replicate (Z.to_nat (rawSize m)) zero).
  assert (module.len buf = rawSize m) as Hbuf.
  { unfold module.len, buf. rewrite length_replicate. lia. }
  pose proof (slice_all [] buf) as Hs. cbn [app] in Hs. rewrite len_nil, Hbuf in Hs.
  rewrite Hs.
  pose proof (MarshalToSizedBuffer_spec m [] buf Hraw Hbuf) as Hm. cbn [app] in Hm.
  rewrite Hm by lia.
  pose proof (slice_middle [] (wire m) []) as Hw. cbn [app] in Hw.
  rewrite app_nil_r, len_nil, Z.add_0_l, len_wire in Hw by done. by rewrite Hw.
Qed.

(** *** Reading back what was written *)

Lemma readVarint_at pre post v :
  0 ≤ v < 2 ^ 64 →
  module.len (pre ++ varintBytes 9 v ++ post) < 2 ^ 63 →
  module.readVarint module.shifts (pre ++ varintBytes 9 v ++ post) (module.len pre) 0
  = module.ok (v, module.len pre + module.sovModule v).
Proof.
  intros Hv Hfit. change module.shifts with (shiftsFrom 0 10).
  rewrite readVarint_varintBytes; [|lia|lia| | |lia|done].
  - rewrite Z.shiftl_0_r, Z.lor_0_l. unfold module.len at 2.
    rewrite length_varintBytes; [done|]. change (2 ^ (7 * (Z.of_nat 9 + 1))) with (2 ^ 70). lia.
  - change (2 ^ (7 * (Z.of_nat 9 + 1))) with (2 ^ 70). lia.
  - change (2 ^ (64 - 7 * 0)) with (2 ^ 64). lia.
Qed.

Lemma readVarint_byte pre post v :
  0 ≤ v < 128 →
  module.len (pre ++ module.uint8 v :: post) < 2 ^ 63 →
  module.readVarint module.shifts (pre ++ module.uint8 v :: post) (module.len pre) 0
  = module.ok (v, module.len pre + 1).
Proof.
  intros Hv Hfit. change module.shifts with (7 * 0 :: shiftsFrom 1 9).
  pose proof (readVarint_last pre v post 0 0 (shiftsFrom 1 9)) as H.
  cbn [app] in H. rewrite H; [|lia|lia|lia|change (2 ^ (64 - 7 * 0)) with (2 ^ 64); lia|done].
  by rewrite Z.shiftl_0_r, Z.lor_0_l.
Qed.

Lemma readTag_string name pre post (tag : ascii) fieldNum :
  (tag = "010"%char ∧ fieldNum = 1) ∨ (tag = "018"%char ∧ fieldNum = 2) →
  module.len (pre ++ tag :: post) < 2 ^ 63 →
  module.readTag name (pre ++ tag :: post) (module.len pre)
  = module.ok (fieldNum, 2, module.len pre + 1).
Proof.
  intros Htag Hfit. unfold module.readTag.
  destruct Htag as [[-> ->]|[-> ->]].
  - change "010"%char with (module.uint8 10) in *. by rewrite readVarint_byte.
  - change "018"%char with (module.uint8 18) in *. by rewrite readVarint_byte.
Qed.

Lemma string_of_list s : string_of_list_ascii (list_ascii_of_string s) = s.
Proof. apply string_of_list_ascii_of_string. Qed.

Lemma readString_spec pre s post :
  module.strlen s < 2 ^ 63 →
  module.len (pre ++ varintBytes 9 (module.strlen s) ++ list_ascii_of_string s ++ post) < 2 ^ 63 →
  module.readString (pre ++ varintBytes 9 (module.strlen s) ++ list_ascii_of_string s ++ post)
    (module.len pre)
  = module.ok (s, module.len pre + module.sovModule (module.strlen s) + module.strlen s).
Proof.
  intros Hs Hfit. unfold module.readString. pose proof (strlen_nonneg s).
  rewrite readVarint_at by (done || lia). cbn [module.bind module.ok].
  assert (module.len (varintBytes 9 (module.strlen s)) = module.sovModule (module.strlen s)) as Hv.
  { unfold module.len. rewrite length_varintBytes; [done|].
    change (2 ^ (7 * (Z.of_nat 9 + 1))) with (2 ^ 70). lia. }
  pose proof (strlen_list s) as Hl.
  rewrite (int_id (module.strlen s)) by lia.
  destruct (Z.ltb_spec (module.strlen s) 0); [lia|].
  rewrite int_id by lens.
  destruct (Z.ltb_spec (module.len pre + module.sovModule (module.strlen s) + module.strlen s) 0);
    [lens|].
  match goal with |- context [Z.ltb ?a ?b] => destruct (Z.ltb_spec a b); [lens|] end.
  assert (module.slice
            (pre ++ varintBytes 9 (module.strlen s) ++ list_ascii_of_string s ++ post)
            (module.len pre + module.sovModule (module.strlen s))
            (module.len pre + module.sovModule (module.strlen s) + module.strlen s)
          = Some (list_ascii_of_string s)) as ->.
  { rewrite app_assoc.
    replace (module.len pre + module.sovModule (module.strlen s))
      with (module.len (pre ++ varintBytes 9 (module.strlen s))) by lens.
    rewrite <- Hl. apply slice_middle. }
  by rewrite string_of_list.
Qed.

Lemma unmarshalField_string m pre post f :
  f.1 = "010"%char ∨ f.1 = "018"%char →
  module.strlen f.2 < 2 ^ 63 →
  module.len (pre ++ fieldBytes f.1 f.2 ++ post) < 2 ^ 63 →
  module.unmarshalField m (pre ++ fieldBytes f.1 f.2 ++ post) (module.len pre)
  = module.ok (setField m f, module.len pre + fieldSize f.2).
Proof.
  destruct f as [tag s]. cbn [fst snd]. intros Htag Hs Hfit.
  unfold fieldBytes in *. cbn [app] in *. rewrite <- app_assoc in *.
  set (d := pre ++ tag :: varintBytes 9 (module.strlen s) ++ list_ascii_of_string s ++ post) in *.
  assert (module.readString d (module.len pre + 1)
          = module.ok (s, module.len pre + fieldSize s)) as Hread.
  { unfold d. rewrite (cons_middle tag pre), app_assoc.
    replace (module.len pre + 1) with (module.len (pre ++ [tag])) by lens.
    rewrite readString_spec; [|done|by rewrite <- app_assoc].
    replace (module.len (pre ++ [tag]) + module.sovModule (module.strlen s) + module.strlen s)
      with (module.len pre + fieldSize s) by (unfold fieldSize; lens).
    done. }
  unfold module.unmarshalField.
  destruct Htag as [->| ->].
  - unfold d at 1. rewrite (readTag_string "Permission" pre _ "010" 1) by (by left || done).
    cbn [module.bind module.ok Z.eqb negb Pos.eqb]. by rewrite Hread.
  - unfold d at 1. rewrite (readTag_string "Permission" pre _ "018" 2) by (by right || done).
    cbn [module.bind module.ok Z.eqb negb Pos.eqb]. by rewrite Hread.
Qed.

Lemma unmarshalLoop_fields fs passes m pre :
  Forall (λ f : ascii * string,
            (f.1 = "010"%char ∨ f.1 = "018"%char) ∧ module.strlen f.2 < 2 ^ 63) fs →
  (length (flat_map (λ f, fieldBytes f.1 f.2) fs) ≤ passes)%nat →
  module.len (pre ++ flat_map (λ f, fieldBytes f.1 f.2) fs) < 2 ^ 63 →
  module.unmarshalLoop module.unmarshalField passes m
    (pre ++ flat_map (λ f, fieldBytes f.1 f.2) fs) (module.len pre)
  = (fold_left setField fs m, Returned None).
Proof.
  revert passes m pre. induction fs as [|f fs IH]; intros passes m pre Hall Hpass Hfit.
  - cbn [flat_map fold_left] in *. rewrite app_nil_r in *.
    destruct passes; cbn [module.unmarshalLoop]; by rewrite !Z.ltb_irrefl.
  - inversion Hall as [|? ? [Htag Hs] Hall']; subst. cbn [flat_map fold_left] in *.
    pose proof (fieldSize_pos f.2) as Hpos.
    pose proof (len_fieldBytes f.1 f.2 Hs) as Hlen.
    destruct passes as [|passes]; [rewrite length_app in Hpass; unfold module.len in Hlen; lia|].
    cbn [module.unmarshalLoop].
    match goal with |- context [Z.ltb ?a ?b] => destruct (Z.ltb_spec a b); [|lens] end.
    rewrite unmarshalField_string by done.
    unfold module.ok. rewrite <- Hlen, <- len_app, app_assoc.
    apply IH; [done| |by rewrite <- app_assoc].
    rewrite length_app in Hpass. unfold module.len in Hlen. lia.
Qed.

Lemma fold_setField_permissions l m :
  fold_left setField (map (λ s, ("018"%char, s)) l) m
  = module.mkPermission (module.Address m) (module.Permissions m ++ l).
Proof.
  revert m. induction l as [|s l IH]; intros m; cbn [map fold_left].
  - rewrite app_nil_r. by destruct m.
  - rewrite IH. cbn. by rewrite <- app_assoc.
Qed.

Lemma fold_setField m0 m : fold_left setField (fieldsOf m) m0 = merge m0 m.
Proof.
  unfold fieldsOf, merge. rewrite fold_left_app, fold_setField_permissions.
  by destruct (String.eqb (module.Address m) EmptyString).
Qed.

Lemma wire_fields m : wire m = flat_map (λ f, fieldBytes f.1 f.2) (fieldsOf m).
Proof.
  unfold wire, fieldsOf. rewrite flat_map_app. f_equal.
  - destruct (String.eqb (module.Address m) EmptyString); [done|]. cbn. by rewrite app_nil_r.
  - induction (module.Permissions m) as [|s l IH]; [done|]. cbn [map flat_map]. by rewrite IH.
Qed.

Lemma fieldsOf_ok m :
  rawSize m < 2 ^ 63 →
  Forall (λ f : ascii * string,
            (f.1 = "010"%char ∨ f.1 = "018"%char) ∧ module.strlen f.2 < 2 ^ 63) (fieldsOf m).
Proof.
  intros H. destruct (rawSize_strings m H) as [Ha Hp]. unfold fieldsOf.
  apply Forall_app. split.
  - destruct (String.eqb_spec (module.Address m) EmptyString); [done|].
    destruct Ha as [|Ha]; [done|]. constructor; [|done]. split; [by left | done].
  - apply Forall_map. eapply Forall_impl; [exact Hp|]. intros s Hs. split; [by right | done].
Qed.

Lemma Unmarshal_wire m0 m :
  rawSize m < 2 ^ 63 → module.Unmarshal m0 (wire m) = (merge m0 m, Returned None).
Proof.
  intros H. unfold module.Unmarshal. rewrite wire_fields.
  pose proof (unmarshalLoop_fields (fieldsOf m)
                (length (flat_map (λ f, fieldBytes f.1 f.2) (fieldsOf m))) m0 []) as Hl.
  cbn [app] in Hl. rewrite len_nil in Hl. rewrite Hl; [by rewrite fold_setField| | |].
  - by apply fieldsOf_ok.
  - done.
  - rewrite <- wire_fields, len_wire; done.
Qed.

(** *** The decoders move forward and do not panic *)

Lemma index_in_range dAtA i : 0 ≤ i < module.len dAtA → is_Some (module.index dAtA i).
Proof.
  intros H. unfold module.index. destruct (Z.leb_spec 0 i); [|lia].
  apply lookup_lt_is_Some. unfold module.len in H. lia.
Qed.

Lemma readVarint_advances sh dAtA i x :
  0 ≤ i → module.len dAtA < 2 ^ 63 →
  advances dAtA i snd (module.readVarint sh dAtA i x).
Proof.
  intros Hi Hfit. revert i x Hi. induction sh as [|shift sh IH]; intros i x Hi; [done|].
  cbn [module.readVarint]. destruct (Z.leb_spec (module.len dAtA) i); [done|].
  destruct (index_in_range dAtA i) as [b ->]; [lia|].
  rewrite int_id by lia. destruct (module.val b <? 128).
  - cbn. lia.
  - specialize (IH (i + 1) (Z.lor x (module.uint64 (Z.shiftl (Z.land (module.val b) 127) shift)))
                  ltac:(lia)).
    unfold advances in *. destruct (module.readVarint _ _ _ _) as [[[v i']|]|]; try done. lia.
Qed.

Lemma skipVarint_advances sh dAtA i :
  0 ≤ i → module.len dAtA < 2 ^ 63 →
  advances dAtA i id (module.skipVarint sh dAtA i).
Proof.
  intros Hi Hfit. revert i Hi. induction sh as [|shift sh IH]; intros i Hi; [done|].
  cbn [module.skipVarint]. destruct (Z.leb_spec (module.len dAtA) i); [done|].
  rewrite (int_id (i + 1)) by lia. rewrite Z.add_simpl_r, int_id by lia.
  destruct (index_in_range dAtA i) as [b ->]; [lia|].
  destruct (module.val b <? 128).
  - cbn. lia.
  - specialize (IH (i + 1) ltac:(lia)).
    unfold advances in *. destruct (module.skipVarint _ _ _) as [[i'|]|]; try done.
    unfold id in *. lia.
Qed.

Lemma lor_below a b : a < 2 ^ 63 → b < 2 ^ 63 → Z.lor a b < 2 ^ 63.
Proof.
  intros Ha Hb. destruct (Z.lt_ge_cases (Z.lor a b) 0) as [|Hnn]; [lia|].
  apply Z.lor_nonneg in Hnn as [Ha0 Hb0].
  destruct (decide (Z.lor a b = 0)) as [->|Hne]; [done|].
  assert (0 < Z.lor a b) by (pose proof (proj2 (Z.lor_nonneg a b) (conj Ha0 Hb0)); lia).
  assert (∀ c, 0 ≤ c < 2 ^ 63 → Z.log2 c < 63) as Hlog.
  { intros c Hc. destruct (decide (c = 0)) as [->|]; [done|]. apply Z.log2_lt_pow2; lia. }
  apply Z.log2_lt_pow2; [done|]. rewrite Z.log2_lor by done.
  apply Z.max_lub_lt; apply Hlog; lia.
Qed.

Lemma readLength_advances sh dAtA i length :
  0 ≤ i → module.len dAtA < 2 ^ 63 → length < 2 ^ 63 →
  advances dAtA i snd (module.readLength sh dAtA i length)
  ∧ ∀ n i', module.readLength sh dAtA i length = module.ok (n, i') → n < 2 ^ 63.
Proof.
  intros Hi Hfit. revert i length Hi. induction sh as [|shift sh IH]; intros i length Hi Hl; [done|].
  cbn [module.readLength]. destruct (Z.leb_spec (module.len dAtA) i); [done|].
  destruct (index_in_range dAtA i) as [b ->]; [lia|].
  rewrite (int_id (i + 1)) by lia.
  set (length' := Z.lor length (module.int (Z.shiftl (Z.land (module.val b) 127) shift))).
  assert (length' < 2 ^ 63) as Hl'.
  { apply lor_below; [done|]. apply int_range. }
  destruct (module.val b <? 128).
  - split; [cbn; lia|]. by intros n i' [= <- <-].
  - destruct (IH (i + 1) length' ltac:(lia) Hl') as [IH1 IH2]. split; [|done].
    unfold advances in *. destruct (module.readLength _ _ _ _) as [[[v i']|]|]; try done.
    cbn [snd] in *. lia.
Qed.

Lemma int_add_moves i n :
  0 ≤ i < 2 ^ 63 → 0 ≤ n < 2 ^ 63 → module.int (i + n) < 0 ∨ module.int (i + n) = i + n.
Proof.
  intros Hi Hn. destruct (Z.lt_ge_cases (i + n) (2 ^ 63)).
  - right. apply int_id. lia.
  - left. rewrite int_wrap; lia.
Qed.

Lemma skipField_moves dAtA i depth :
  0 ≤ i → module.len dAtA < 2 ^ 63 →
  match module.skipField dAtA i depth with
  | Panicked _ => False
  | Returned (inl (i', _)) => (i' < 0 ∨ i < i') ∧ i' < 2 ^ 63
  | Returned (inr _) => True
  end.
Proof.
  intros Hi Hfit. unfold module.skipField.
  pose proof (readVarint_advances module.shifts dAtA i 0 Hi Hfit) as H.
  unfold advances in H. destruct (module.readVarint _ _ _ _) as [[[wire i1]|]|]; try done.
  cbn [snd module.bind] in *.
  set (wireType := module.int (Z.land wire 7)).
  destruct (Z.eqb wireType 0).
  { pose proof (skipVarint_advances module.shifts dAtA i1 ltac:(lia) Hfit) as H'.
    unfold advances, id in H'. destruct (module.skipVarint _ _ _) as [[i2|]|]; try done.
    cbn. lia. }
  destruct (Z.eqb wireType 1).
  { cbn. pose proof (int_range (i1 + 8)).
    destruct (int_add_moves i1 8 ltac:(lia) ltac:(lia)); lia. }
  destruct (Z.eqb wireType 2).
  { destruct (readLength_advances module.shifts dAtA i1 0 ltac:(lia) Hfit ltac:(lia)) as [H' Hn].
    unfold advances in H'. destruct (module.readLength _ _ _ _) as [[[n i2]|]|]; try done.
    cbn [snd module.bind] in *. specialize (Hn n i2 eq_refl).
    destruct (Z.ltb_spec n 0); [done|]. cbn. pose proof (int_range (i2 + n)).
    destruct (int_add_moves i2 n ltac:(lia) ltac:(lia)); lia. }
  destruct (Z.eqb wireType 3); [cbn; lia|].
  destruct (Z.eqb wireType 4); [destruct (Z.eqb depth 0); cbn; [done|lia]|].
  destruct (Z.eqb wireType 5); [|done].
  cbn. pose proof (int_range (i1 + 4)).
  destruct (int_add_moves i1 4 ltac:(lia) ltac:(lia)); lia.
Qed.

Lemma skipLoop_moves passes dAtA i depth :
  0 ≤ i → module.len dAtA < 2 ^ 63 → (Z.to_nat (module.len dAtA - i) ≤ passes)%nat →
  moves i id (module.skipLoop passes dAtA i depth).
Proof.
  intros Hi Hfit. revert i depth Hi. induction passes as [|passes IH]; intros i depth Hi Hp;
    cbn [module.skipLoop]; destruct (Z.ltb_spec i (module.len dAtA)); try done; [lia|].
  pose proof (skipField_moves dAtA i depth Hi Hfit) as Hsf.
  destruct (module.skipField dAtA i depth) as [[[i' depth']|]|]; try done.
  cbn [module.bind]. destruct (Z.ltb_spec i' 0); [done|].
  destruct (Z.eqb depth' 0); [cbn; unfold id; lia|].
  specialize (IH i' depth' ltac:(lia) ltac:(lia)).
  unfold moves, id in *. destruct (module.skipLoop _ _ _ _) as [[n|]|]; try done. lia.
Qed.

Lemma slice_in_range dAtA lo hi :
  0 ≤ lo ≤ hi → hi ≤ module.len dAtA →
  ∃ bs, module.slice dAtA lo hi = Some bs ∧ module.len bs = hi - lo.
Proof.
  intros Hlo Hhi. unfold module.slice.
  destruct (Z.leb_spec 0 lo); [|lia]. destruct (Z.leb_spec lo hi); [|lia].
  destruct (Z.leb_spec hi (module.len dAtA)); [|lia]. cbn [andb]. eexists. split; [done|].
  unfold module.len in *. rewrite length_take, length_drop. lia.
Qed.

Lemma skipUnknown_advances dAtA i :
  0 ≤ i < module.len dAtA → module.len dAtA < 2 ^ 63 →
  advances dAtA i id (module.skipUnknown dAtA i).
Proof.
  intros Hi Hfit. unfold module.skipUnknown.
  destruct (slice_in_range dAtA i (module.len dAtA)) as (rest & -> & Hrest); [lia|lia|].
  pose proof (skipLoop_moves (length rest) rest 0 0 ltac:(lia) ltac:(lia)) as H.
  unfold module.skipModule. unfold moves, id in H.
  destruct (module.skipLoop _ _ _ _) as [[skippy|]|]; try done; [|apply H; lens].
  specialize (H ltac:(lens)). cbn [module.bind].
  destruct (Z.ltb_spec skippy 0); [lia|]. cbn [orb].
  destruct (int_add_moves i skippy ltac:(lia) ltac:(lia)) as [Hneg|Heq].
  - destruct (Z.ltb_spec (module.int (i + skippy)) 0); [done|lia].
  - rewrite Heq. destruct (Z.ltb_spec (i + skippy) 0); [done|].
    destruct (Z.ltb_spec (module.len dAtA) (i + skippy)); [done|]. cbn. unfold id. lia.
Qed.

Lemma readString_advances dAtA i :
  0 ≤ i → module.len dAtA < 2 ^ 63 →
  advances dAtA i snd (module.readString dAtA i).
Proof.
  intros Hi Hfit. unfold module.readString.
  pose proof (readVarint_advances module.shifts dAtA i 0 Hi Hfit) as H.
  unfold advances in H. destruct (module.readVarint _ _ _ _) as [[[stringLen i1]|]|]; try done.
  cbn [snd module.bind] in *. pose proof (int_range stringLen).
  destruct (Z.ltb_spec (module.int stringLen) 0); [done|].
  destruct (int_add_moves i1 (module.int stringLen) ltac:(lia) ltac:(lia)) as [Hneg|Heq].
  - destruct (Z.ltb_spec (module.int (i1 + module.int stringLen)) 0); [done|lia].
  - rewrite Heq. destruct (Z.ltb_spec (i1 + module.int stringLen) 0); [done|].
    destruct (Z.ltb_spec (module.len dAtA) (i1 + module.int stringLen)); [done|].
    destruct (slice_in_range dAtA i1 (i1 + module.int stringLen)) as (bs & -> & _); [lia|lia|].
    cbn. lia.
Qed.

Lemma readTag_advances name dAtA i :
  0 ≤ i → module.len dAtA < 2 ^ 63 →
  advances dAtA i snd (module.readTag name dAtA i).
Proof.
  intros Hi Hfit. unfold module.readTag.
  pose proof (readVarint_advances module.shifts dAtA i 0 Hi Hfit) as H.
  unfold advances in H. destruct (module.readVarint _ _ _ _) as [[[wire i1]|]|]; try done.
  cbn [snd module.bind] in *.
  destruct (Z.eqb _ 4); [done|]. destruct (Z.leb _ 0); [done|]. cbn. lia.
Qed.

Lemma unmarshalField_advances m dAtA i :
  0 ≤ i < module.len dAtA → module.len dAtA < 2 ^ 63 →
  advances dAtA i snd (module.unmarshalField m dAtA i).
Proof.
  intros Hi Hfit. unfold module.unmarshalField.
  pose proof (readTag_advances "Permission" dAtA i ltac:(lia) Hfit) as H.
  unfold advances in H.
  destruct (module.readTag _ _ _) as [[[[fieldNum wireType] i1]|]|]; try done.
  cbn [snd module.bind] in *.
  pose proof (readString_advances dAtA i1 ltac:(lia) Hfit) as Hs.
  pose proof (skipUnknown_advances dAtA i Hi Hfit) as Hu.
  unfold advances, id in Hs, Hu.
  destruct (Z.eqb fieldNum 1); [|destruct (Z.eqb fieldNum 2)];
    try (destruct (negb _); [done|]);
    try (destruct (module.readString dAtA i1) as [[[s i2]|]|]; try done; cbn in *; lia).
  destruct (module.skipUnknown dAtA i) as [[i2|]|]; try done; cbn; lia.
Qed.

Lemma emptyField_advances name m dAtA i :
  0 ≤ i < module.len dAtA → module.len dAtA < 2 ^ 63 →
  advances dAtA i snd (module.emptyField name m dAtA i).
Proof.
  intros Hi Hfit. unfold module.emptyField.
  pose proof (readTag_advances name dAtA i ltac:(lia) Hfit) as H.
  unfold advances in H.
  destruct (module.readTag _ _ _) as [[[[fieldNum wireType] i1]|]|]; try done.
  cbn [snd module.bind] in *.
  pose proof (skipUnknown_advances dAtA i Hi Hfit) as Hu. unfold advances, id in Hu.
  destruct (module.skipUnknown dAtA i) as [[i2|]|]; try done; cbn; lia.
Qed.

Lemma unmarshalLoop_no_panic {M} (field : M → list ascii → Z → module.result (M * Z))
    passes m dAtA i :
  (∀ m i, 0 ≤ i < module.len dAtA → advances dAtA i snd (field m dAtA i)) →
  0 ≤ i → (Z.to_nat (module.len dAtA - i) ≤ passes)%nat →
  ∃ m' err, module.unmarshalLoop field passes m dAtA i = (m', Returned err).
Proof.
  intros Hfield. revert m i. induction passes as [|passes IH]; intros m i Hi Hp;
    cbn [module.unmarshalLoop]; destruct (Z.ltb_spec i (module.len dAtA));
    try (destruct (module.len dAtA <? i); by eauto); [lia|].
  specialize (Hfield m i ltac:(lia)). unfold advances in Hfield.
  destruct (field m dAtA i) as [[[m' i']|err]|]; [|by eauto|done].
  cbn [snd] in Hfield. apply IH; lia.
Qed.

(** *** Fields that the message does not have *)

Lemma len_varintBytes v : 0 ≤ v < 2 ^ 64 → module.len (varintBytes 9 v) = module.sovModule v.
Proof.
  intros Hv. unfold module.len. rewrite length_varintBytes; [done|].
  change (2 ^ (7 * (Z.of_nat 9 + 1))) with (2 ^ 70). lia.
Qed.

Lemma skipVarint_varintBytes passes sh pre post v :
  0 ≤ v < 2 ^ (7 * (Z.of_nat passes + 1)) →
  (passes < length sh)%nat →
  module.len (pre ++ varintBytes passes v ++ post) < 2 ^ 63 →
  module.skipVarint sh (pre ++ varintBytes passes v ++ post) (module.len pre)
  = module.ok (module.len pre + module.len (varintBytes passes v)).
Proof.
  assert (∀ sh pre post v, 0 ≤ v < 128 → (0 < length sh)%nat →
            module.len (pre ++ [module.uint8 v] ++ post) < 2 ^ 63 →
            module.skipVarint sh (pre ++ [module.uint8 v] ++ post) (module.len pre)
            = module.ok (module.len pre + module.len [module.uint8 v])) as Hlast.
  { clear. intros sh pre post v Hv Hsh Hfit. destruct sh as [|shift sh]; [cbn in Hsh; lia|].
    cbn [module.skipVarint app] in *.
    match goal with |- context [Z.leb ?a ?b] => destruct (Z.leb_spec a b); [lens|] end.
    rewrite (int_id (module.len pre + 1)) by lens. rewrite Z.add_simpl_r, int_id by lens.
    rewrite index_middle. destruct (byte_last v Hv) as [H1 _].
    destruct (Z.ltb_spec (module.val (module.uint8 v)) 128); [done|lia]. }
  revert sh pre v. induction passes as [|n IH]; intros sh pre v Hv Hsh Hfit;
    cbn [varintBytes] in *.
  - change (2 ^ (7 * (Z.of_nat 0 + 1))) with 128 in Hv. by apply Hlast.
  - destruct (Z.leb_spec 128 v) as [Hbig|Hsmall]; [|apply Hlast; [lia|lia|done]].
    destruct sh as [|shift sh]; [cbn in Hsh; lia|].
    cbn [module.skipVarint app length] in *.
    match goal with |- context [Z.leb ?a ?b] => destruct (Z.leb_spec a b); [lens|] end.
    rewrite (int_id (module.len pre + 1)) by lens. rewrite Z.add_simpl_r, int_id by lens.
    rewrite index_middle.
    destruct (land_127 v ltac:(lia)) as [Ha Hav]. destruct (byte_more _ Ha) as [H1 _].
    destruct (Z.ltb_spec (module.val (module.uint8 (Z.lor (Z.land v 127) 128))) 128); [lia|].
    set (b := module.uint8 (Z.lor (Z.land v 127) 128)) in *.
    replace (module.len pre + 1) with (module.len (pre ++ [b])) by lens.
    rewrite (cons_middle b pre), app_assoc.
    rewrite IH; [|..|by rewrite <- app_assoc].
    + replace (module.len (pre ++ [b]) + module.len (varintBytes n (Z.shiftr v 7)))
        with (module.len pre + module.len (b :: varintBytes n (Z.shiftr v 7))) by lens.
      done.
    + apply shiftr7_lt; [lia|]. replace (Z.of_nat n + 1) with (Z.of_nat (S n)) by lia. lia.
    + lia.
Qed.

Lemma shiftl_fits_int a s : 0 ≤ s → 0 ≤ a → a < 2 ^ (63 - s) → s ≤ 63 →
  module.int (Z.shiftl a s) = Z.shiftl a s.
Proof.
  intros Hs Ha Hlt Hs'. apply int_id. rewrite Z.shiftl_mul_pow2 by lia.
  assert (0 < 2 ^ s) by (apply Z.pow_pos_nonneg; lia).
  split; [assert (0 ≤ a * 2 ^ s) by (apply Z.mul_nonneg_nonneg; lia); lia|].
  replace (2 ^ 63) with (2 ^ (63 - s) * 2 ^ s)
    by (rewrite <- Z.pow_add_r by lia; f_equal; lia).
  by apply Z.mul_lt_mono_pos_r.
Qed.

Lemma readLength_last pre v post x k later :
  0 ≤ k → 7 * k ≤ 63 → 0 ≤ v < 128 → v < 2 ^ (63 - 7 * k) →
  module.len (pre ++ [module.uint8 v] ++ post) < 2 ^ 63 →
  module.readLength (7 * k :: later) (pre ++ [module.uint8 v] ++ post) (module.len pre) x
  = module.ok (Z.lor x (Z.shiftl v (7 * k)), module.len pre + module.len [module.uint8 v]).
Proof.
  intros Hk Hk' Hv Hv' Hfit. cbn [module.readLength app] in *.
  rewrite index_middle.
  match goal with |- context [Z.leb ?a ?b] => destruct (Z.leb_spec a b); [lens|] end.
  destruct (byte_last v Hv) as [H1 H2]. rewrite H2.
  destruct (Z.ltb_spec (module.val (module.uint8 v)) 128); [|lia].
  rewrite shiftl_fits_int by lia. rewrite int_id by lens. done.
Qed.

Lemma readLength_varintBytes passes k more pre post v x :
  0 ≤ k → 7 * k ≤ 63 →
  0 ≤ v < 2 ^ (7 * (Z.of_nat passes + 1)) → v < 2 ^ (63 - 7 * k) →
  (passes < more)%nat →
  module.len (pre ++ varintBytes passes v ++ post) < 2 ^ 63 →
  module.readLength (shiftsFrom k more) (pre ++ varintBytes passes v ++ post) (module.len pre) x
  = module.ok (Z.lor x (Z.shiftl v (7 * k)),
               module.len pre + module.len (varintBytes passes v)).
Proof.
  revert k more pre v x. induction passes as [|n IH]; intros k more pre v x Hk Hk' Hv Hv' Hm Hfit;
    (destruct more as [|more]; [lia|]); cbn [shiftsFrom varintBytes] in *.
  - change (2 ^ (7 * (Z.of_nat 0 + 1))) with 128 in Hv. by apply readLength_last.
  - destruct (Z.leb_spec 128 v) as [Hbig|Hsmall]; [|apply readLength_last; auto; lia].
    cbn [module.readLength app] in *. rewrite index_middle.
    match goal with |- context [Z.leb ?a ?b] =>
      destruct (Z.leb_spec a b) as [Hle|_]; [lens|] end.
    destruct (land_127 v ltac:(lia)) as [Ha Hav].
    destruct (byte_more _ Ha) as [H1 H2]. rewrite H2.
    destruct (Z.ltb_spec (module.val (module.uint8 (Z.lor (Z.land v 127) 128))) 128); [lia|].
    rewrite shiftl_fits_int by lia.
    rewrite int_id by lens.
    set (b := module.uint8 (Z.lor (Z.land v 127) 128)) in *.
    replace (module.len pre + 1) with (module.len (pre ++ [b])) by lens.
    rewrite (cons_middle b pre), app_assoc.
    assert (0 ≤ Z.shiftr v 7 < 2 ^ (7 * (Z.of_nat n + 1))) as Hv7.
    { apply shiftr7_lt; [lia|]. replace (Z.of_nat n + 1) with (Z.of_nat (S n)) by lia. lia. }
    assert (7 * (k + 1) ≤ 63) as Hk1.
    { destruct (Z.le_gt_cases (7 * (k + 1)) 63) as [|Hgt]; [done|]. exfalso.
      assert (v < 2 ^ 7); [|lia].
      eapply Z.lt_le_trans; [exact Hv'|]. apply Z.pow_le_mono_r; lia. }
    assert (Z.shiftr v 7 < 2 ^ (63 - 7 * (k + 1))) as Hv7'.
    { rewrite Z.shiftr_div_pow2 by lia.
      apply Z.div_lt_upper_bound; [lia|]. rewrite <- Z.pow_add_r by lia.
      replace (7 + (63 - 7 * (k + 1))) with (63 - 7 * k) by lia. lia. }
    rewrite IH; [|lia|done|done|done|lia|by rewrite <- app_assoc].
    rewrite <- Z.lor_assoc.
    replace (7 * (k + 1)) with (7 + 7 * k) by lia.
    rewrite <- Z.shiftl_shiftl by lia. rewrite <- Z.shiftl_lor, split_7.
    replace (module.len (pre ++ [b]) + module.len (varintBytes n (Z.shiftr v 7)))
      with (module.len pre + module.len (b :: varintBytes n (Z.shiftr v 7))) by lens.
    done.
Qed.

Lemma readLength_at pre post v :
  0 ≤ v < 2 ^ 63 →
  module.len (pre ++ varintBytes 9 v ++ post) < 2 ^ 63 →
  module.readLength module.shifts (pre ++ varintBytes 9 v ++ post) (module.len pre) 0
  = module.ok (v, module.len pre + module.sovModule v).
Proof.
  intros Hv Hfit. change module.shifts with (shiftsFrom 0 10).
  rewrite readLength_varintBytes; [|lia|lia| | |lia|done].
  - rewrite Z.shiftl_0_r, Z.lor_0_l. by rewrite len_varintBytes by lia.
  - change (2 ^ (7 * (Z.of_nat 9 + 1))) with (2 ^ 70). lia.
  - change (2 ^ (63 - 7 * 0)) with (2 ^ 63). lia.
Qed.

Lemma land_tag fieldNum wireType :
  0 ≤ fieldNum → 0 ≤ wireType < 8 →
  Z.land (fieldNum * 8 + wireType) 7 = wireType
  ∧ Z.shiftr (fieldNum * 8 + wireType) 3 = fieldNum.
Proof.
  intros Hf Hw. split.
  - change 7 with (Z.ones 3). rewrite Z.land_ones by lia. change (2 ^ 3) with 8.
    rewrite Z.add_comm, Z.mod_add by lia. apply Z.mod_small. lia.
  - rewrite Z.shiftr_div_pow2 by lia. change (2 ^ 3) with 8.
    rewrite Z.add_comm, Z.div_add by lia. rewrite Z.div_small by lia. lia.
Qed.

Lemma len_unknownField fieldNum wireType payload :
  0 ≤ fieldNum * 8 + wireType < 2 ^ 64 →
  module.len (unknownField fieldNum wireType payload)
  = module.sovModule (fieldNum * 8 + wireType) + module.len payload.
Proof. intros H. unfold unknownField. by rewrite len_app, len_varintBytes. Qed.

Lemma skipField_unknown fieldNum wireType payload post :
  0 ≤ fieldNum < 2 ^ 61 → payloadOf wireType payload →
  module.len (unknownField fieldNum wireType payload ++ post) < 2 ^ 63 →
  module.skipField (unknownField fieldNum wireType payload ++ post) 0 0
  = module.ok (module.len (unknownField fieldNum wireType payload), 0).
Proof.
  intros Hf Hp Hfit.
  assert (0 ≤ wireType < 8) as Hw by (destruct Hp as [[-> _]|[[-> _]|[[-> _]|[-> _]]]]; lia).
  assert (0 ≤ fieldNum * 8 + wireType < 2 ^ 64) as Ht by lia.
  destruct (land_tag fieldNum wireType ltac:(lia) Hw) as [Hland _].
  rewrite len_unknownField by done.
  unfold unknownField in *. rewrite <- app_assoc in *.
  set (t := fieldNum * 8 + wireType) in *.
  unfold module.skipField.
  pose proof (readVarint_at [] (payload ++ post) t Ht Hfit) as Hr.
  cbn [app] in Hr. rewrite len_nil in Hr. rewrite Hr.
  cbn [module.bind module.ok]. rewrite Hland, (int_id wireType) by lia.
  rewrite Z.add_0_l.
  pose proof (sovModule_pos t ltac:(lia)) as Hsov.
  assert (module.len (varintBytes 9 t) = module.sovModule t) as Hlt by (by apply len_varintBytes).
  destruct Hp as [[-> [v [Hv ->]]]|[[-> Hl]|[[-> [body [Hb ->]]]|[-> Hl]]]];
    cbn [Z.eqb Pos.eqb].
  - rewrite <- Hlt.
    rewrite skipVarint_varintBytes; [done| |cbn; lia|done].
    change (2 ^ (7 * (Z.of_nat 9 + 1))) with (2 ^ 70). lia.
  - rewrite int_id by lens. by rewrite Hl.
  - rewrite <- Hlt. rewrite <- !app_assoc in *.
    pose proof (len_nonneg body).
    rewrite readLength_at; [|lia|done].
    cbn [module.bind module.ok]. destruct (Z.ltb_spec (module.len body) 0); [lia|].
    assert (module.len (varintBytes 9 (module.len body)) = module.sovModule (module.len body))
      as Hlb by (apply len_varintBytes; lia).
    rewrite int_id by lens. rewrite len_app, Hlb. do 2 f_equal. lia.
  - rewrite int_id by lens. by rewrite Hl.
Qed.

Lemma skipModule_unknown fieldNum wireType payload post :
  0 ≤ fieldNum < 2 ^ 61 → payloadOf wireType payload →
  module.len (unknownField fieldNum wireType payload ++ post) < 2 ^ 63 →
  module.skipModule (unknownField fieldNum wireType payload ++ post)
  = module.ok (module.len (unknownField fieldNum wireType payload)).
Proof.
  intros Hf Hp Hfit.
  assert (0 ≤ wireType < 8) as Hw by (destruct Hp as [[-> _]|[[-> _]|[[-> _]|[-> _]]]]; lia).
  pose proof (len_unknownField fieldNum wireType payload ltac:(lia)) as Hlen.
  pose proof (sovModule_pos (fieldNum * 8 + wireType) ltac:(lia)) as Hsov.
  pose proof (len_nonneg payload) as Hpl.
  unfold module.skipModule.
  destruct (length (unknownField fieldNum wireType payload ++ post)) as [|passes] eqn:Hn.
  { exfalso. assert (module.len (unknownField fieldNum wireType payload ++ post) = 0)
      by (unfold module.len; lia). pose proof (len_nonneg post). lens. }
  cbn [module.skipLoop].
  match goal with |- context [Z.ltb ?a ?b] =>
    destruct (Z.ltb_spec a b); [|pose proof (len_nonneg post); lens] end.
  rewrite skipField_unknown by done. cbn [module.bind module.ok].
  destruct (Z.ltb_spec (module.len (unknownField fieldNum wireType payload)) 0); [lia|]. done.
Qed.

Lemma unmarshalField_unknown m pre fieldNum wireType payload post :
  3 ≤ fieldNum < 2 ^ 31 → payloadOf wireType payload →
  module.len (pre ++ unknownField fieldNum wireType payload ++ post) < 2 ^ 63 →
  module.unmarshalField m (pre ++ unknownField fieldNum wireType payload ++ post) (module.len pre)
  = module.ok (m, module.len pre + module.len (unknownField fieldNum wireType payload)).
Proof.
  intros Hf Hp Hfit.
  assert (0 ≤ wireType < 8 ∧ wireType ≠ 4) as [Hw Hw4]
    by (destruct Hp as [[-> _]|[[-> _]|[[-> _]|[-> _]]]]; lia).
  assert (0 ≤ fieldNum * 8 + wireType < 2 ^ 64) as Ht by lia.
  destruct (land_tag fieldNum wireType ltac:(lia) Hw) as [Hland Hshift].
  pose proof (len_nonneg pre) as Hpre. pose proof (len_nonneg post) as Hpost.
  pose proof (len_nonneg payload) as Hpl.
  pose proof (len_unknownField fieldNum wireType payload Ht) as Hlen.
  pose proof (sovModule_pos (fieldNum * 8 + wireType) ltac:(lia)) as Hsov.
  unfold module.unmarshalField, module.readTag.
  assert (module.readVarint module.shifts
            (pre ++ unknownField fieldNum wireType payload ++ post) (module.len pre) 0
          = module.ok (fieldNum * 8 + wireType,
                       module.len pre + module.sovModule (fieldNum * 8 + wireType))) as ->.
  { unfold unknownField in *. rewrite <- app_assoc in *. by apply readVarint_at. }
  cbn [module.bind module.ok]. rewrite Hland, Hshift, (int_id wireType) by lia.
  assert (module.int32 fieldNum = fieldNum) as ->.
  { unfold module.int32. rewrite Z.mod_small; lia. }
  destruct (Z.eqb_spec wireType 4); [done|].
  destruct (Z.leb_spec fieldNum 0); [lia|]. cbn [module.bind module.ok].
  destruct (Z.eqb_spec fieldNum 1); [lia|]. destruct (Z.eqb_spec fieldNum 2); [lia|].
  unfold module.skipUnknown. rewrite slice_all.
  rewrite skipModule_unknown; [|lia|done|lens].
  cbn [module.bind module.ok].
  set (skippy := module.len (unknownField fieldNum wireType payload)) in *.
  rewrite int_id by lens.
  destruct (Z.ltb_spec skippy 0); [lia|]. destruct (Z.ltb_spec (module.len pre + skippy) 0); [lia|].
  cbn [orb].
  match goal with |- context [Z.ltb ?a ?b] => destruct (Z.ltb_spec a b); [lens|] end.
  done.
Qed.

(** *** The loop over a run of fields *)

Lemma unmarshalLoop_chunks (chunks : list (list ascii * (module.Permission → module.Permission)))
    tl passes m pre :
  Forall (λ c, consumed c.1 c.2) chunks →
  (length (concat (map fst chunks) ++ tl) ≤ passes)%nat →
  module.len (pre ++ concat (map fst chunks) ++ tl) < 2 ^ 63 →
  ∃ passes', (length tl ≤ passes')%nat
    ∧ module.unmarshalLoop module.unmarshalField passes m
        (pre ++ concat (map fst chunks) ++ tl) (module.len pre)
      = module.unmarshalLoop module.unmarshalField passes'
          (fold_left (λ m c, c.2 m) chunks m)
          ((pre ++ concat (map fst chunks)) ++ tl) (module.len (pre ++ concat (map fst chunks))).
Proof.
  revert passes m pre. induction chunks as [|[bytes effect] chunks IH]; intros passes m pre Hall Hpass Hfit.
  - cbn [map concat fold_left length app] in *. rewrite !app_nil_r. by exists passes.
  - inversion Hall as [|? ? [Hpos Hstep] Hall']; subst. cbn [map concat fold_left fst snd] in *.
    rewrite <- app_assoc, length_app in Hpass.
    destruct passes as [|passes]; [exfalso; unfold module.len in Hpos; clear -Hpos Hpass; lia|].
    destruct (IH passes (effect m) (pre ++ bytes)) as (passes' & Hp' & E);
      [done|unfold module.len in Hpos; clear -Hpass Hpos; lia|by rewrite <- !app_assoc in *|].
    exists passes'. split; [done|].
    cbn [module.unmarshalLoop].
    match goal with |- context [Z.ltb ?a ?b] => destruct (Z.ltb_spec a b); [|lens] end.
    rewrite <- !app_assoc in *. rewrite Hstep by done.
    unfold module.ok. rewrite <- len_app. exact E.
Qed.

Lemma unmarshalLoop_end passes m dAtA :
  module.unmarshalLoop module.unmarshalField passes m dAtA (module.len dAtA) = (m, Returned None).
Proof. destruct passes; cbn [module.unmarshalLoop]; by rewrite !Z.ltb_irrefl. Qed.

Lemma Unmarshal_chunks chunks tl m :
  Forall (λ c, consumed c.1 c.2) chunks →
  module.len (concat (map fst chunks) ++ tl) < 2 ^ 63 →
  ∃ passes', (length tl ≤ passes')%nat
    ∧ module.Unmarshal m (concat (map fst chunks) ++ tl)
      = module.unmarshalLoop module.unmarshalField passes'
          (fold_left (λ m c, c.2 m) chunks m)
          (concat (map fst chunks) ++ tl) (module.len (concat (map fst chunks))).
Proof.
  intros Hall Hfit. unfold module.Unmarshal.
  pose proof (unmarshalLoop_chunks chunks tl (length (concat (map fst chunks) ++ tl)) m [] Hall) as H.
  cbn [app] in H. rewrite len_nil in H. apply H; done.
Qed.

Lemma consumed_field f :
  (f.1 = "010"%char ∨ f.1 = "018"%char) → module.strlen f.2 < 2 ^ 63 →
  consumed (fieldBytes f.1 f.2) (λ m, setField m f).
Proof.
  intros Htag Hs. split.
  - rewrite len_fieldBytes by done. pose proof (fieldSize_pos f.2). lia.
  - intros m pre post Hfit. rewrite unmarshalField_string by done.
    by rewrite len_fieldBytes.
Qed.

Lemma consumed_unknown fieldNum wireType payload :
  3 ≤ fieldNum < 2 ^ 31 → payloadOf wireType payload →
  consumed (unknownField fieldNum wireType payload) (λ m, m).
Proof.
  intros Hf Hp.
  assert (0 ≤ wireType < 8) as Hw by (destruct Hp as [[-> _]|[[-> _]|[[-> _]|[-> _]]]]; lia).
  split.
  - rewrite len_unknownField by lia.
    pose proof (sovModule_pos (fieldNum * 8 + wireType) ltac:(lia)).
    pose proof (len_nonneg payload). lia.
  - intros m pre post Hfit. by apply unmarshalField_unknown.
Qed.

(** The chunks of an encoding. *)
Lemma wire_chunks m :
  rawSize m < 2 ^ 63 →
  ∃ chunks, Forall (λ c, consumed c.1 c.2) chunks
            ∧ concat (map fst chunks) = wire m
            ∧ ∀ m0, fold_left (λ m c, c.2 m) chunks m0 = merge m0 m.
Proof.
  intros Hraw. pose proof (fieldsOf_ok m Hraw) as Hok.
  exists (map (λ f, (fieldBytes f.1 f.2, λ m, setField m f)) (fieldsOf m)). split_and!.
  - apply Forall_map. eapply Forall_impl; [exact Hok|].
    intros f [Htag Hs]. by apply consumed_field.
  - rewrite wire_fields. clear Hok. induction (fieldsOf m) as [|f fs IH]; [done|].
    cbn [map concat flat_map fst]. by rewrite IH.
  - intros m0. rewrite <- fold_setField. generalize (fieldsOf m). intros fs. revert m0.
    induction fs as [|f fs IH]; intros m0; [done|]. cbn [map fold_left snd]. by rewrite IH.
Qed.

Lemma merge_zero m : merge (module.mkPermission EmptyString []) m = m.
Proof.
  unfold merge. destruct m as [a p]. cbn [module.Address module.Permissions app].
  by destruct (String.eqb_spec a EmptyString) as [->|].
Qed.

(** *** Cut fields and tags that are refused *)

Ltac lens_take :=
  unfold module.len in *;
  repeat first [rewrite length_app in * | rewrite length_take in * | progress cbn [length] in * ];
  lia.

Lemma readVarint_at_end shift later pre x :
  module.readVarint (shift :: later) pre (module.len pre) x = module.fail module.io_ErrUnexpectedEOF.
Proof. cbn [module.readVarint]. by rewrite Z.leb_refl. Qed.

Lemma readVarint_cut passes sh pre v j x :
  (j < length (varintBytes passes v))%nat → (passes < length sh)%nat →
  module.len (pre ++ take j (varintBytes passes v)) < 2 ^ 63 →
  module.readVarint sh (pre ++ take j (varintBytes passes v)) (module.len pre) x
  = module.fail module.io_ErrUnexpectedEOF.
Proof.
  revert sh pre v j x. induction passes as [|n IH]; intros sh pre v j x Hj Hsh Hfit;
    (destruct sh as [|shift sh]; [cbn in Hsh; lia|]); cbn [varintBytes] in *.
  - cbn [length] in Hj. replace j with 0%nat by lia. cbn [take]. rewrite app_nil_r.
    apply readVarint_at_end.
  - destruct (Z.leb_spec 128 v) as [Hbig|Hsmall].
    + destruct j as [|j]; [cbn [take]; rewrite app_nil_r; apply readVarint_at_end|].
      cbn [take length] in *. cbn [module.readVarint]. rewrite index_middle.
      match goal with |- context [Z.leb ?a ?b] => destruct (Z.leb_spec a b); [lens|] end.
      assert (0 ≤ Z.land v 127 < 128) as Ha.
      { change 127 with (Z.ones 7). rewrite Z.land_ones by lia.
        apply Z.mod_pos_bound. lia. }
      destruct (byte_more _ Ha) as [H1 H2].
      destruct (Z.ltb_spec (module.val (module.uint8 (Z.lor (Z.land v 127) 128))) 128); [lia|].
      rewrite int_id by lens.
      set (b := module.uint8 (Z.lor (Z.land v 127) 128)) in *.
      replace (module.len pre + 1) with (module.len (pre ++ [b])) by lens.
      rewrite (cons_middle b pre), app_assoc.
      apply IH; [lia|lia|by rewrite <- app_assoc].
    + cbn [length] in Hj. replace j with 0%nat by lia. cbn [take]. rewrite app_nil_r.
      apply readVarint_at_end.
Qed.

Lemma unmarshalField_cut m pre f k :
  f.1 = "010"%char ∨ f.1 = "018"%char →
  (0 < k < length (fieldBytes f.1 f.2))%nat →
  module.len (pre ++ fieldBytes f.1 f.2) < 2 ^ 63 →
  module.unmarshalField m (pre ++ take k (fieldBytes f.1 f.2)) (module.len pre)
  = module.fail module.io_ErrUnexpectedEOF.
Proof.
  destruct f as [tag s]. cbn [fst snd]. intros Htag Hk Hfit.
  assert (module.strlen s < 2 ^ 63) as Hs.
  { unfold fieldBytes in Hfit. pose proof (strlen_list s). pose proof (len_nonneg pre).
    pose proof (len_nonneg (varintBytes 9 (module.strlen s))). lens. }
  pose proof (strlen_nonneg s) as Hs0.
  pose proof (len_fieldBytes tag s Hs) as Hlen. unfold fieldSize in Hlen.
  assert (module.len (varintBytes 9 (module.strlen s)) = module.sovModule (module.strlen s))
    as Hlv by (apply len_varintBytes; lia).
  assert (module.len pre + 1 + module.strlen s + module.sovModule (module.strlen s) < 2 ^ 63)
    as Htot by (rewrite len_app in Hfit; lia).
  unfold fieldBytes in *. destruct k as [|k]; [lia|]. cbn [take length] in *.
  assert (module.len (pre ++ tag :: take k (varintBytes 9 (module.strlen s) ++ list_ascii_of_string s))
          ≤ module.len (pre ++ tag :: varintBytes 9 (module.strlen s) ++ list_ascii_of_string s))
    as Hle.
  { rewrite !len_app, !len_cons. unfold module.len. rewrite length_take. lia. }
  unfold module.unmarshalField.
  assert (module.readTag "Permission"
            (pre ++ tag :: take k (varintBytes 9 (module.strlen s) ++ list_ascii_of_string s))
            (module.len pre)
          = module.ok (if Ascii.eqb tag "010" then 1 else 2, 2, module.len pre + 1)) as ->.
  { destruct Htag as [->| ->]; cbn [Ascii.eqb Bool.eqb andb].
    - apply readTag_string; [by left|lia].
    - apply readTag_string; [by right|lia]. }
  cbn [module.bind module.ok].
  assert (module.readString
            (pre ++ tag :: take k (varintBytes 9 (module.strlen s) ++ list_ascii_of_string s))
            (module.len pre + 1)
          = module.fail module.io_ErrUnexpectedEOF) as Hread.
  { rewrite (cons_middle tag pre), app_assoc in *.
    replace (module.len pre + 1) with (module.len (pre ++ [tag])) by lens.
    unfold module.readString.
    destruct (Nat.lt_ge_cases k (length (varintBytes 9 (module.strlen s)))) as [Hlt|Hge].
    - rewrite take_app_le in * by lia. rewrite readVarint_cut; [done|done|cbn; lia|clear -Hle Hfit; lens_take].
    - rewrite take_app_ge in * by lia.
      set (rest := take (k - length (varintBytes 9 (module.strlen s))) (list_ascii_of_string s)) in *.
      assert (module.len rest < module.strlen s) as Hrest.
      { unfold rest, module.len. rewrite length_take. rewrite length_app in Hk.
        pose proof (strlen_list s) as Hsl. unfold module.len in Hsl. lia. }
      rewrite readVarint_at; [|lia|clear -Htot Hlv Hrest; lens].
      cbn [module.bind module.ok]. rewrite (int_id (module.strlen s)) by lia.
      destruct (Z.ltb_spec (module.strlen s) 0); [lia|].
      pose proof (strlen_list s) as Hsl.
      rewrite int_id by lens.
      match goal with |- context [Z.ltb ?a 0] => destruct (Z.ltb_spec a 0); [lens|] end.
      match goal with |- context [Z.ltb (module.len ?a) ?b] =>
        destruct (Z.ltb_spec (module.len a) b); [done|lens] end. }
  destruct Htag as [->| ->]; cbn [Ascii.eqb Bool.eqb andb Z.eqb Pos.eqb negb]; by rewrite Hread.
Qed.

Lemma uint8_val b : module.uint8 (module.val b) = b.
Proof.
  unfold module.uint8. pose proof (val_range b). rewrite Z.mod_small by lia.
  unfold module.val. rewrite N2Z.id. apply ascii_N_embedding.
Qed.

Lemma readTag_byte name pre b rest :
  module.val b < 128 →
  module.len (pre ++ b :: rest) < 2 ^ 63 →
  module.readTag name (pre ++ b :: rest) (module.len pre)
  = (let fieldNum := Z.shiftr (module.val b) 3 in
     let wireType := Z.land (module.val b) 7 in
     if wireType =? 4
     then module.fail ("proto: " ++ name ++ ": wiretype end group for non-group")%string
     else if fieldNum <=? 0
     then module.fail ("proto: " ++ name ++ ": illegal tag " ++ module.itoa fieldNum
                       ++ " (wire type " ++ module.itoa (module.val b) ++ ")")%string
     else module.ok (fieldNum, wireType, module.len pre + 1)).
Proof.
  intros Hb Hfit. pose proof (val_range b) as Hr. unfold module.readTag.
  rewrite <- (uint8_val b) at 1.
  rewrite readVarint_byte; [|lia|by rewrite uint8_val].
  cbn [module.bind module.ok].
  assert (0 ≤ Z.land (module.val b) 7 < 8) as Hl.
  { change 7 with (Z.ones 3). rewrite Z.land_ones by lia. apply Z.mod_pos_bound. lia. }
  assert (0 ≤ Z.shiftr (module.val b) 3 < 16) as Hsh.
  { rewrite Z.shiftr_div_pow2 by lia. change (2 ^ 3) with 8. split.
    - apply Z.div_pos; lia.
    - apply Z.div_lt_upper_bound; lia. }
  rewrite (int_id (Z.land _ _)) by lia.
  replace (module.int32 (Z.shiftr (module.val b) 3)) with (Z.shiftr (module.val b) 3)
    by (unfold module.int32; rewrite Z.mod_small; lia).
  done.
Qed.

(** *** Whole buffers *)

Lemma Unmarshal_chunks_all chunks m :
  Forall (λ c, consumed c.1 c.2) chunks →
  module.len (concat (map fst chunks)) < 2 ^ 63 →
  module.Unmarshal m (concat (map fst chunks))
  = (fold_left (λ m c, c.2 m) chunks m, Returned None).
Proof.
  intros Hall Hfit.
  destruct (Unmarshal_chunks chunks [] m Hall) as (passes & _ & E);
    [by rewrite app_nil_r|].
  rewrite app_nil_r in E. rewrite E. apply unmarshalLoop_end.
Qed.

Lemma unmarshalLoop_stops passes m dAtA i err :
  (0 < passes)%nat → i < module.len dAtA →
  module.unmarshalField m dAtA i = module.fail err →
  module.unmarshalLoop module.unmarshalField passes m dAtA i = (m, Returned (Some err)).
Proof.
  intros Hp Hi E. destruct passes as [|passes]; [lia|]. cbn [module.unmarshalLoop].
  destruct (Z.ltb_spec i (module.len dAtA)); [|lia]. by rewrite E.
Qed.

Lemma Unmarshal_stops chunks tl m err :
  Forall (λ c, consumed c.1 c.2) chunks → tl ≠ [] →
  module.len (concat (map fst chunks) ++ tl) < 2 ^ 63 →
  (∀ m, module.unmarshalField m (concat (map fst chunks) ++ tl)
          (module.len (concat (map fst chunks))) = module.fail err) →
  module.Unmarshal m (concat (map fst chunks) ++ tl)
  = (fold_left (λ m c, c.2 m) chunks m, Returned (Some err)).
Proof.
  intros Hall Htl Hfit Hfail.
  destruct (Unmarshal_chunks chunks tl m Hall Hfit) as (passes & Hp & E).
  rewrite E. apply unmarshalLoop_stops; [destruct tl; [done|cbn in Hp; lia]| |done].
  destruct tl; [done|]. lens.
Qed.

Lemma consumed_tagged fieldNum s :
  0 ≤ fieldNum < 2 ^ 61 →
  module.int32 fieldNum = 1 ∨ module.int32 fieldNum = 2 →
  module.strlen s < 2 ^ 63 →
  consumed (taggedBytes fieldNum s)
    (λ m, setField m (if module.int32 fieldNum =? 1 then "010"%char else "018"%char, s)).
Proof.
  intros Hf Hnum Hs.
  assert (0 ≤ fieldNum * 8 + 2 < 2 ^ 64) as Ht by lia.
  pose proof (sovModule_pos (fieldNum * 8 + 2) ltac:(lia)) as Hsov.
  pose proof (strlen_nonneg s) as Hs0.
  pose proof (sovModule_pos (module.strlen s) Hs0) as Hsov'.
  assert (module.len (taggedBytes fieldNum s)
          = module.sovModule (fieldNum * 8 + 2) + module.sovModule (module.strlen s)
            + module.strlen s) as Hlen.
  { unfold taggedBytes. rewrite !len_app, !len_varintBytes, strlen_list by lia. lia. }
  split; [lia|]. intros m pre post Hfit. rewrite Hlen.
  unfold taggedBytes in *. rewrite <- !app_assoc in *.
  destruct (land_tag fieldNum 2 ltac:(lia) ltac:(lia)) as [Hland Hshift].
  unfold module.unmarshalField, module.readTag.
  rewrite readVarint_at by done. cbn [module.bind module.ok].
  rewrite Hland, Hshift. change (module.int 2) with 2. cbn [Z.eqb Pos.eqb].
  assert (module.readString
            (pre ++ varintBytes 9 (fieldNum * 8 + 2) ++ varintBytes 9 (module.strlen s)
             ++ list_ascii_of_string s ++ post)
            (module.len pre + module.sovModule (fieldNum * 8 + 2))
          = module.ok (s, module.len pre
                          + (module.sovModule (fieldNum * 8 + 2)
                             + module.sovModule (module.strlen s) + module.strlen s))) as Hread.
  { rewrite <- (len_varintBytes (fieldNum * 8 + 2)) by done.
    rewrite <- len_app, app_assoc.
    rewrite readString_spec; [|done|by rewrite <- app_assoc].
    do 2 f_equal. rewrite len_app. lia. }
  destruct Hnum as [-> | ->]; cbn [Z.leb Z.compare Z.eqb Pos.eqb module.bind module.ok negb];
    by rewrite Hread.
Qed.

Lemma unmarshalField_bad_tag m pre b rest :
  module.val b < 128 →
  module.len (pre ++ b :: rest) < 2 ^ 63 →
  Z.land (module.val b) 7 = 4 ∨ Z.shiftr (module.val b) 3 = 0
  ∨ (Z.shiftr (module.val b) 3 ≤ 2 ∧ Z.land (module.val b) 7 ≠ 2) →
  module.unmarshalField m (pre ++ b :: rest) (module.len pre)
  = module.fail
      (if Z.land (module.val b) 7 =? 4
       then "proto: Permission: wiretype end group for non-group"
       else if Z.shiftr (module.val b) 3 =? 0
       then ("proto: Permission: illegal tag 0 (wire type " ++ module.itoa (module.val b)
             ++ ")")%string
       else module.wrongWireType (Z.land (module.val b) 7)
              (if Z.shiftr (module.val b) 3 =? 1 then "Address" else "Permissions")).
Proof.
  intros Hb Hfit Hbad. unfold module.unmarshalField. rewrite readTag_byte by done.
  cbn zeta.
  assert (0 ≤ Z.shiftr (module.val b) 3) as Hsh by (apply Z.shiftr_nonneg, val_range).
  set (wireType := Z.land (module.val b) 7) in *.
  set (fieldNum := Z.shiftr (module.val b) 3) in *.
  destruct (Z.eqb_spec wireType 4); [done|].
  destruct (Z.eqb_spec fieldNum 0) as [->|]; [done|].
  destruct (Z.leb_spec fieldNum 0); [lia|]. cbn [module.bind module.ok].
  destruct Hbad as [?|[?|[Hle Hw]]]; [done|done|].
  destruct (Z.eqb_spec fieldNum 1) as [->|];
    [destruct (Z.eqb_spec wireType 2); done|].
  destruct (Z.eqb_spec fieldNum 2) as [->|]; [|lia].
  destruct (Z.eqb_spec wireType 2); done.
Qed.

(** *** What the generated code guarantees *)

(** X16: for a [uint64] [x], [sovModule x] is the number of groups of seven
    bits that [x] takes: it lies between 1 and 10, [x] is below
    [2 ^ (7 * sovModule x)], and no smaller number of groups would do
    unless [x] takes one byte. *)
Theorem sovModule_groups x :
  0 ≤ x < 2 ^ 64 →
  1 ≤ module.sovModule x ≤ 10
  ∧ x < 2 ^ (7 * module.sovModule x)
  ∧ (x < 128 ∨ 2 ^ (7 * (module.sovModule x - 1)) ≤ x).
Proof. apply sovModule_bounds. Qed.

Lemma sovModule_groups_witness :
  1 ≤ module.sovModule 300 ≤ 10
  ∧ 300 < 2 ^ (7 * module.sovModule 300)
  ∧ (300 < 128 ∨ 2 ^ (7 * (module.sovModule 300 - 1)) ≤ 300).
Proof. apply (sovModule_groups 300). lia. Defined.

(** X17: [encodeVarintModule] called with the offset at the end of a gap
    of [sovModule v] bytes fills the gap and nothing else, and returns the
    offset of its start; the loop of the decoders reads [v] back from
    there, whatever follows the gap. *)
Theorem encodeVarintModule_readVarint pre hole suf v :
  0 ≤ v < 2 ^ 64 →
  module.len hole = module.sovModule v →
  module.len (pre ++ hole ++ suf) < 2 ^ 63 →
  ∃ bytes,
    module.len bytes = module.sovModule v
    ∧ module.encodeVarintModule (pre ++ hole ++ suf) (module.len pre + module.len hole) v
      = Returned (pre ++ bytes ++ suf, module.len pre)
    ∧ ∀ rest, module.len (pre ++ bytes ++ rest) < 2 ^ 63 →
        module.readVarint module.shifts (pre ++ bytes ++ rest) (module.len pre) 0
        = module.ok (v, module.len pre + module.sovModule v).
Proof.
  intros Hv Hhole Hfit. exists (varintBytes 9 v). split_and!.
  - by apply len_varintBytes.
  - by apply encodeVarintModule_spec.
  - intros rest Hrest. by apply readVarint_at.
Qed.

Lemma encodeVarintModule_readVarint_witness :
  ∃ bytes,
    module.len bytes = module.sovModule 300
    ∧ module.encodeVarintModule (["a"%char] ++ [zero; zero] ++ ["z"%char])
        (module.len ["a"%char] + module.len [zero; zero]) 300
      = Returned (["a"%char] ++ bytes ++ ["z"%char], module.len ["a"%char])
    ∧ ∀ rest, module.len (["a"%char] ++ bytes ++ rest) < 2 ^ 63 →
        module.readVarint module.shifts (["a"%char] ++ bytes ++ rest) (module.len ["a"%char]) 0
        = module.ok (300, module.len ["a"%char] + module.sovModule 300).
Proof.
  apply (encodeVarintModule_readVarint ["a"%char] [zero; zero] ["z"%char] 300);
    [lia | reflexivity | by vm_compute].
Defined.

(** X18: [Marshal] does not panic and returns the encoding: for an address
    that is not empty the byte 0x0A, the length of the address as a varint
    and the address; then for each permission, in their order, the byte
    0x12, its length and its text.  That is [Size()] bytes. *)
Theorem Marshal_encoding m :
  rawSize m < 2 ^ 63 →
  module.Marshal m = Returned (wire m) ∧ module.len (wire m) = module.Size m.
Proof.
  intros H. split; [by apply Marshal_wire|]. by rewrite len_wire, Size_rawSize.
Qed.

Lemma Marshal_encoding_witness :
  module.Marshal examplePermission = Returned (wire examplePermission)
  ∧ module.len (wire examplePermission) = module.Size examplePermission.
Proof. apply (Marshal_encoding examplePermission). by vm_compute. Defined.

(** X19: what [Marshal] returns, [Unmarshal] decodes without error: into
    the zero message it gives the message back, and into any other
    receiver it replaces the address, unless the encoded one is empty, and
    appends the permissions. *)
Theorem Permission_round_trip m0 m :
  rawSize m < 2 ^ 63 →
  ∃ dAtA,
    module.Marshal m = Returned dAtA
    ∧ module.Unmarshal (module.mkPermission EmptyString []) dAtA = (m, Returned None)
    ∧ module.Unmarshal m0 dAtA = (merge m0 m, Returned None).
Proof.
  intros H. exists (wire m). split_and!.
  - by apply Marshal_wire.
  - rewrite Unmarshal_wire by done. by rewrite merge_zero.
  - by apply Unmarshal_wire.
Qed.

Lemma Permission_round_trip_witness :
  ∃ dAtA,
    module.Marshal examplePermission = Returned dAtA
    ∧ module.Unmarshal (module.mkPermission EmptyString []) dAtA
      = (examplePermission, Returned None)
    ∧ module.Unmarshal (module.mkPermission "old" ["staking"]) dAtA
      = (merge (module.mkPermission "old" ["staking"]) examplePermission, Returned None).
Proof.
  apply (Permission_round_trip (module.mkPermission "old" ["staking"]) examplePermission).
  by vm_compute.
Defined.

(** X20: the encodings of two messages one after the other decode as the
    first message merged with the second: the later address wins, the
    permissions add up. *)
Theorem Unmarshal_concat m0 m1 m2 b1 b2 :
  rawSize m1 + rawSize m2 < 2 ^ 63 →
  module.Marshal m1 = Returned b1 → module.Marshal m2 = Returned b2 →
  module.Unmarshal m0 (b1 ++ b2) = (merge (merge m0 m1) m2, Returned None).
Proof.
  intros Hraw E1 E2.
  pose proof (rawSize_nonneg m1). pose proof (rawSize_nonneg m2).
  rewrite Marshal_wire in E1, E2 by lia. injection E1 as <-. injection E2 as <-.
  destruct (wire_chunks m1 ltac:(lia)) as (c1 & Hc1 & W1 & F1).
  destruct (wire_chunks m2 ltac:(lia)) as (c2 & Hc2 & W2 & F2).
  pose proof (len_wire m1 ltac:(lia)) as L1. pose proof (len_wire m2 ltac:(lia)) as L2.
  rewrite <- W1, <- W2 in *. rewrite <- concat_app, <- map_app.
  rewrite Unmarshal_chunks_all.
  - by rewrite fold_left_app, F1, F2.
  - by apply Forall_app.
  - rewrite map_app, concat_app, len_app. lia.
Qed.

Lemma Unmarshal_concat_witness :
  module.Unmarshal (module.mkPermission "old" [])
    (wire examplePermission ++ wire (module.mkPermission EmptyString ["staking"]))
  = (merge (merge (module.mkPermission "old" []) examplePermission)
       (module.mkPermission EmptyString ["staking"]),
     Returned None).
Proof.
  apply (Unmarshal_concat (module.mkPermission "old" []) examplePermission
           (module.mkPermission EmptyString ["staking"]));
    by vm_compute.
Defined.

(** X21: a field with a number that [Permission] does not have, of wire
    type 0, 1, 2 or 5 and with the payload of that type, is passed over
    wherever it stands between the fields of the message: the fields
    before and after it are decoded as if it were not there. *)
Theorem Unmarshal_skips_unknown m0 m1 m2 b1 b2 fieldNum wireType payload :
  3 ≤ fieldNum < 2 ^ 31 → payloadOf wireType payload →
  module.Marshal m1 = Returned b1 → module.Marshal m2 = Returned b2 →
  rawSize m1 + module.len payload + 5 + rawSize m2 < 2 ^ 63 →
  module.Unmarshal m0 (b1 ++ unknownField fieldNum wireType payload ++ b2)
  = (merge (merge m0 m1) m2, Returned None).
Proof.
  intros Hf Hp E1 E2 Hraw.
  assert (0 ≤ wireType < 8) as Hw by (destruct Hp as [[-> _]|[[-> _]|[[-> _]|[-> _]]]]; lia).
  pose proof (rawSize_nonneg m1). pose proof (rawSize_nonneg m2).
  pose proof (len_nonneg payload).
  rewrite Marshal_wire in E1, E2 by lia. injection E1 as <-. injection E2 as <-.
  destruct (wire_chunks m1 ltac:(lia)) as (c1 & Hc1 & W1 & F1).
  destruct (wire_chunks m2 ltac:(lia)) as (c2 & Hc2 & W2 & F2).
  pose proof (len_wire m1 ltac:(lia)) as L1. pose proof (len_wire m2 ltac:(lia)) as L2.
  pose proof (len_unknownField fieldNum wireType payload ltac:(lia)) as Lu.
  pose proof (sovModule_bounds (fieldNum * 8 + wireType) ltac:(lia)) as (_ & _ & Hsov).
  assert (module.sovModule (fieldNum * 8 + wireType) ≤ 5) as Hs5.
  { destruct Hsov as [Hsmall|Hbig]; [rewrite sovModule_small; lia|].
    destruct (Z.le_gt_cases (module.sovModule (fieldNum * 8 + wireType)) 5) as [|Hgt]; [done|].
    exfalso. assert (2 ^ 35 ≤ 2 ^ (7 * (module.sovModule (fieldNum * 8 + wireType) - 1)))
      by (apply Z.pow_le_mono_r; lia). lia. }
  rewrite <- W1, <- W2 in *.
  pose (c := c1 ++ [(unknownField fieldNum wireType payload,
                     (λ m : module.Permission, m))] ++ c2).
  assert (concat (map fst c1) ++ unknownField fieldNum wireType payload ++ concat (map fst c2)
          = concat (map fst c)) as ->.
  { unfold c. rewrite !map_app, !concat_app. cbn [map concat fst app]. by rewrite app_nil_r. }
  rewrite Unmarshal_chunks_all.
  - unfold c. rewrite !fold_left_app. cbn [fold_left snd]. by rewrite F1, F2.
  - unfold c. apply Forall_app. split; [done|]. apply Forall_app. split; [|done].
    constructor; [|done]. by apply consumed_unknown.
  - unfold c. rewrite !map_app, !concat_app. cbn [map concat fst app].
    rewrite app_nil_r, !len_app. lia.
Qed.

Lemma Unmarshal_skips_unknown_witness :
  module.Unmarshal (module.mkPermission EmptyString [])
    (wire examplePermission ++ unknownField 7 2 (varintBytes 9 (module.len ["x"%char]) ++ ["x"%char])
     ++ wire (module.mkPermission EmptyString ["staking"]))
  = (merge (merge (module.mkPermission EmptyString []) examplePermission)
       (module.mkPermission EmptyString ["staking"]),
     Returned None).
Proof.
  apply (Unmarshal_skips_unknown (module.mkPermission EmptyString []) examplePermission
           (module.mkPermission EmptyString ["staking"]));
    [lia | | by vm_compute | by vm_compute | by vm_compute].
  right. right. left. split; [reflexivity|]. exists ["x"%char]. split; [by vm_compute|reflexivity].
Defined.

(** X22: [Unmarshal] never panics, whatever the bytes: it returns, with
    an error or without.  The same holds for the messages without fields. *)
Theorem Unmarshal_no_panic m dAtA :
  module.len dAtA < 2 ^ 63 →
  (∃ m' err, module.Unmarshal m dAtA = (m', Returned err))
  ∧ (∃ err, module.TxHandler_Unmarshal dAtA = Returned err)
  ∧ (∃ err, module.DefaultAccountConstructor_Unmarshal dAtA = Returned err)
  ∧ (∃ err, module.DefaultRandomGenesisAccountsProvider_Unmarshal dAtA = Returned err).
Proof.
  intros Hfit.
  assert (∀ name, ∃ err,
            (module.unmarshalLoop (module.emptyField name) (length dAtA) () dAtA 0).2
            = Returned err) as Hempty.
  { intros name.
    destruct (unmarshalLoop_no_panic (module.emptyField name) (length dAtA) () dAtA 0)
      as (m' & err & E); [|lia|unfold module.len; lia|].
    - intros m0 i Hi. by apply emptyField_advances.
    - exists err. by rewrite E. }
  split_and!; [|apply Hempty..].
  apply unmarshalLoop_no_panic; [|lia|unfold module.len; lia].
  intros m0 i Hi. by apply unmarshalField_advances.
Qed.

Lemma Unmarshal_no_panic_witness :
  (∃ m' err, module.Unmarshal examplePermission ["255"; "255"; "010"; "200"]%char
             = (m', Returned err))
  ∧ (∃ err, module.TxHandler_Unmarshal ["255"; "255"; "010"; "200"]%char = Returned err)
  ∧ (∃ err, module.DefaultAccountConstructor_Unmarshal ["255"; "255"; "010"; "200"]%char
            = Returned err)
  ∧ (∃ err, module.DefaultRandomGenesisAccountsProvider_Unmarshal
              ["255"; "255"; "010"; "200"]%char = Returned err).
Proof.
  apply (Unmarshal_no_panic examplePermission ["255"; "255"; "010"; "200"]%char).
  by vm_compute.
Defined.

(** X23: in a buffer of at least [Size()] bytes, [MarshalTo] writes what
    [Marshal] returns over the first [Size()] bytes and
    [MarshalToSizedBuffer] over the last ones; both leave the other bytes
    as they were and return [Size()]. *)
Theorem MarshalTo_frame m dAtA :
  rawSize m < 2 ^ 63 → module.Size m ≤ module.len dAtA → module.len dAtA < 2 ^ 63 →
  ∃ bs,
    module.Marshal m = Returned bs
    ∧ module.MarshalTo m dAtA
      = Returned (bs ++ drop (Z.to_nat (module.Size m)) dAtA, module.Size m)
    ∧ module.MarshalToSizedBuffer m dAtA
      = Returned (take (Z.to_nat (module.len dAtA - module.Size m)) dAtA ++ bs, module.Size m).
Proof.
  intros Hraw Hsize Hfit. exists (wire m). pose proof (rawSize_nonneg m) as Hnn.
  rewrite Size_rawSize in * by done. split_and!.
  - by apply Marshal_wire.
  - unfold module.MarshalTo. rewrite Size_rawSize by done.
    set (n := Z.to_nat (rawSize m)).
    assert (module.len (take n dAtA) = rawSize m) as Hlen.
    { unfold module.len in *. rewrite length_take. lia. }
    pose proof (slice_middle [] (take n dAtA) (drop n dAtA)) as Hs.
    cbn [app] in Hs. rewrite take_drop, len_nil, Z.add_0_l, Hlen in Hs. rewrite Hs.
    pose proof (MarshalToSizedBuffer_spec m [] (take n dAtA) Hraw Hlen) as Hm.
    cbn [app] in Hm. rewrite Hm by lia. done.
  - set (k := Z.to_nat (module.len dAtA - rawSize m)).
    assert (module.len (drop k dAtA) = rawSize m) as Hlen.
    { unfold module.len in *. rewrite length_drop. lia. }
    rewrite <- (take_drop k dAtA) at 1.
    apply MarshalToSizedBuffer_spec; [done|done|by rewrite take_drop].
Qed.

Lemma MarshalTo_frame_witness :
  ∃ bs,
    module.Marshal examplePermission = Returned bs
    ∧ module.MarshalTo examplePermission (replicate 40 "."%char)
      = Returned (bs ++ drop (Z.to_nat (module.Size examplePermission)) (replicate 40 "."%char),
                  module.Size examplePermission)
    ∧ module.MarshalToSizedBuffer examplePermission (replicate 40 "."%char)
      = Returned (take (Z.to_nat (module.len (replicate 40 "."%char)
                                  - module.Size examplePermission))
                    (replicate 40 "."%char) ++ bs,
                  module.Size examplePermission).
Proof.
  apply (MarshalTo_frame examplePermission (replicate 40 "."%char)); by vm_compute.
Defined.

(** X24: an encoding cut inside a field is rejected with
    [io.ErrUnexpectedEOF], and the receiver keeps the fields that came
    before the cut. *)
Theorem Unmarshal_truncated m0 m1 b1 tag s k :
  module.Marshal m1 = Returned b1 →
  tag = "010"%char ∨ tag = "018"%char →
  (0 < k < length (fieldBytes tag s))%nat →
  rawSize m1 + fieldSize s < 2 ^ 63 →
  module.Unmarshal m0 (b1 ++ take k (fieldBytes tag s))
  = (merge m0 m1, Returned (Some module.io_ErrUnexpectedEOF)).
Proof.
  intros E1 Htag Hk Hraw.
  pose proof (rawSize_nonneg m1). pose proof (fieldSize_pos s).
  assert (module.strlen s < 2 ^ 63) as Hs by (apply fieldSize_strlen; lia).
  pose proof (len_fieldBytes tag s Hs) as Hlen.
  rewrite Marshal_wire in E1 by lia. injection E1 as <-.
  destruct (wire_chunks m1 ltac:(lia)) as (c1 & Hc1 & W1 & F1).
  pose proof (len_wire m1 ltac:(lia)) as L1. rewrite <- W1 in *.
  assert (module.len (take k (fieldBytes tag s)) ≤ fieldSize s) as Hcut.
  { rewrite <- Hlen. unfold module.len. rewrite length_take. lia. }
  rewrite (Unmarshal_stops c1 _ m0 module.io_ErrUnexpectedEOF); [by rewrite F1|done| | |].
  - destruct k; [lia|]. unfold fieldBytes. done.
  - rewrite len_app. lia.
  - intros m. apply (unmarshalField_cut m _ (tag, s) k); [done|done|]. cbn [fst snd]. rewrite len_app. lia.
Qed.

Lemma Unmarshal_truncated_witness :
  module.Unmarshal (module.mkPermission EmptyString [])
    (wire examplePermission ++ take 4 (fieldBytes "018" "staking"))
  = (merge (module.mkPermission EmptyString []) examplePermission,
     Returned (Some module.io_ErrUnexpectedEOF)).
Proof.
  apply (Unmarshal_truncated (module.mkPermission EmptyString []) examplePermission);
    [by vm_compute | by right | vm_compute; lia | by vm_compute].
Defined.

(** X25: after the fields of a message, a one-byte tag of wire type 4, of
    field number 0, or of field 1 or 2 with a wire type other than 2 ends
    [Unmarshal] with the error of that case; the receiver keeps the fields
    that came before. *)
Theorem Unmarshal_bad_tag m0 m1 b1 b rest :
  module.Marshal m1 = Returned b1 → rawSize m1 + 1 + module.len rest < 2 ^ 63 →
  module.val b < 128 →
  Z.land (module.val b) 7 = 4 ∨ Z.shiftr (module.val b) 3 = 0
  ∨ (Z.shiftr (module.val b) 3 ≤ 2 ∧ Z.land (module.val b) 7 ≠ 2) →
  module.Unmarshal m0 (b1 ++ b :: rest)
  = (merge m0 m1,
     Returned (Some
       (if Z.land (module.val b) 7 =? 4
        then "proto: Permission: wiretype end group for non-group"
        else if Z.shiftr (module.val b) 3 =? 0
        then ("proto: Permission: illegal tag 0 (wire type " ++ module.itoa (module.val b)
              ++ ")")%string
        else module.wrongWireType (Z.land (module.val b) 7)
               (if Z.shiftr (module.val b) 3 =? 1 then "Address" else "Permissions")))).
Proof.
  intros E1 Hraw Hb Hbad.
  pose proof (rawSize_nonneg m1). pose proof (len_nonneg rest).
  rewrite Marshal_wire in E1 by lia. injection E1 as <-.
  destruct (wire_chunks m1 ltac:(lia)) as (c1 & Hc1 & W1 & F1).
  pose proof (len_wire m1 ltac:(lia)) as L1. rewrite <- W1 in *.
  erewrite (Unmarshal_stops c1 (b :: rest) m0); [by rewrite F1|done|done| |].
  - rewrite len_app, len_cons. lia.
  - intros m. apply unmarshalField_bad_tag; [done| |done]. rewrite len_app, len_cons. lia.
Qed.

Lemma Unmarshal_bad_tag_witness :
  module.Unmarshal (module.mkPermission EmptyString []) (wire examplePermission ++ ["008"%char])
  = (merge (module.mkPermission EmptyString []) examplePermission,
     Returned (Some
       (if Z.land (module.val "008") 7 =? 4
        then "proto: Permission: wiretype end group for non-group"
        else if Z.shiftr (module.val "008") 3 =? 0
        then ("proto: Permission: illegal tag 0 (wire type " ++ module.itoa (module.val "008")
              ++ ")")%string
        else module.wrongWireType (Z.land (module.val "008") 7)
               (if Z.shiftr (module.val "008") 3 =? 1 then "Address" else "Permissions")))).
Proof.
  apply (Unmarshal_bad_tag (module.mkPermission EmptyString []) examplePermission);
    [by vm_compute | by vm_compute | by vm_compute |].
  right. right. by vm_compute.
Defined.

(** X26: the field number of a tag is cut to 32 bits, so a field of wire
    type 2 whose number is 1 or 2 plus a multiple of [2 ^ 32] is decoded
    as the address or as a permission. *)
Theorem Unmarshal_fieldNum_wraps m0 k s :
  0 ≤ k < 2 ^ 29 → module.strlen s + 20 < 2 ^ 63 →
  module.Unmarshal m0 (taggedBytes (k * 2 ^ 32 + 1) s)
  = (module.mkPermission s (module.Permissions m0), Returned None)
  ∧ module.Unmarshal m0 (taggedBytes (k * 2 ^ 32 + 2) s)
    = (module.mkPermission (module.Address m0) (module.Permissions m0 ++ [s]), Returned None).
Proof.
  intros Hk Hs. pose proof (strlen_nonneg s) as Hs0.
  assert (∀ f, 1 ≤ f ≤ 2 → module.int32 (k * 2 ^ 32 + f) = f) as Hwrap.
  { intros f Hf. unfold module.int32.
    replace (k * 2 ^ 32 + f + 2 ^ 31) with (f + 2 ^ 31 + k * 2 ^ 32) by lia.
    rewrite Z.mod_add by lia. rewrite Z.mod_small; lia. }
  assert (∀ f, 1 ≤ f ≤ 2 →
            module.len (concat (map fst [(taggedBytes (k * 2 ^ 32 + f) s,
                                          λ m : module.Permission, m)])) < 2 ^ 63) as Hfit.
  { intros f Hf. cbn [map concat fst]. rewrite app_nil_r. unfold taggedBytes.
    rewrite !len_app, !len_varintBytes, strlen_list by lia.
    pose proof (sovModule_bounds ((k * 2 ^ 32 + f) * 8 + 2) ltac:(lia)) as [? _].
    pose proof (sovModule_bounds (module.strlen s) ltac:(lia)) as [? _]. lia. }
  split.
  - pose proof (consumed_tagged (k * 2 ^ 32 + 1) s ltac:(lia)) as Hc.
    rewrite (Hwrap 1) in Hc by lia. specialize (Hc ltac:(by left) ltac:(lia)).
    pose proof (Unmarshal_chunks_all [(taggedBytes (k * 2 ^ 32 + 1) s, _)] m0
                  ltac:(constructor; [exact Hc|done])) as H.
    cbn [map concat fst fold_left snd] in H. rewrite app_nil_r in H.
    rewrite H; [done|]. specialize (Hfit 1 ltac:(lia)). cbn [map concat fst] in Hfit.
    by rewrite app_nil_r in Hfit.
  - pose proof (consumed_tagged (k * 2 ^ 32 + 2) s ltac:(lia)) as Hc.
    rewrite (Hwrap 2) in Hc by lia. specialize (Hc ltac:(by right) ltac:(lia)).
    pose proof (Unmarshal_chunks_all [(taggedBytes (k * 2 ^ 32 + 2) s, _)] m0
                  ltac:(constructor; [exact Hc|done])) as H.
    cbn [map concat fst fold_left snd] in H. rewrite app_nil_r in H.
    rewrite H; [done|]. specialize (Hfit 2 ltac:(lia)). cbn [map concat fst] in Hfit.
    by rewrite app_nil_r in Hfit.
Qed.

Lemma Unmarshal_fieldNum_wraps_witness :
  module.Unmarshal examplePermission (taggedBytes (1 * 2 ^ 32 + 1) "other")
  = (module.mkPermission "other" (module.Permissions examplePermission), Returned None)
  ∧ module.Unmarshal examplePermission (taggedBytes (1 * 2 ^ 32 + 2) "other")
    = (module.mkPermission (module.Address examplePermission)
         (module.Permissions examplePermission ++ ["other"]),
       Returned None).
Proof. apply (Unmarshal_fieldNum_wraps examplePermission 1 "other"); [lia | by vm_compute]. Defined.
